(** * Minimizador de AFD: a shallow embedding of [minimizador_afd.py]

    The Python class [MinimizadorAFD] minimises a deterministic finite
    automaton with the table-filling algorithm.  This development embeds
    the algorithmic methods of the class as Rocq functions over an explicit
    object state and proves properties of them.

    Modelling choices.
    - A Python [str] is a [string]; a Python [list] is a [list].
    - A Python [dict] is an association list in insertion order: assigning
      to an existing key replaces the value in place, assigning to a new
      key appends.  This is what makes the iteration order of
      [tabela_marcacao] and of the output transition map observable.
    - A Python [set] of strings is a duplicate-free list.  The order in which
      Python iterates a set is not fixed by the language (it follows the
      string hashes, which change from one process to the next), so every
      place where the source iterates a set goes through the section
      variable [set_iter], which stands for that order.
    - Exceptions are the [Erro] results of a small error monad; the two
      [while] loops run on fuel, and running out of fuel is its own result
      [SemCombustivel], shown never to occur with the fuel [minimizar]
      supplies.
    - Console narration, the marking history, JSON and image output have no
      influence on the returned automaton and are left out, except for the
      one place where the table printer can raise. *)

From Stdlib Require Import List String Ascii Bool Arith ZArith Lia.
From Stdlib Require Import Permutation Sorted OrdersEx.
Import ListNotations.
Open Scope string_scope.
Open Scope list_scope.

(** ** Keys with a boolean equality *)

Class EqB (K : Type) : Type := { eqb : K -> K -> bool }.

#[export] Instance EqB_string : EqB string := {| eqb := String.eqb |}.

Definition par : Type := (string * string)%type.

Definition par_eqb (p q : par) : bool :=
  (String.eqb (fst p) (fst q) && String.eqb (snd p) (snd q))%bool.

#[export] Instance EqB_par : EqB par := {| eqb := par_eqb |}.

(** the boolean equality decides Leibniz equality *)
Class EqBLegal (K : Type) `{EqB K} : Prop :=
  eqb_eq : forall x y : K, eqb x y = true <-> x = y.

(** ** Python dictionaries, in insertion order *)

Definition dict (K V : Type) : Type := list (K * V).

Section Dict.
Context {K V : Type} `{EqB K}.

(** [d.get(k)] *)
Fixpoint dict_get (d : dict K V) (k : K) : option V :=
match d with
| [] => None
| (k', v) :: r => if eqb k' k then Some v else dict_get r k
end.

(** [k in d] *)
Definition dict_in (d : dict K V) (k : K) : bool :=
match dict_get d k with Some _ => true | None => false end.

(** [d[k] = v] *)
Fixpoint dict_set (d : dict K V) (k : K) (v : V) : dict K V :=
match d with
| [] => [(k, v)]
| (k', v') :: r =>
    if eqb k' k then (k', v) :: r else (k', v') :: dict_set r k v
end.

(** the keys, in iteration order *)
Definition dict_keys (d : dict K V) : list K := map fst d.
End Dict.

(** ** Python sets of strings *)

Definition pyset : Type := list string.

Definition set_mem (x : string) (s : pyset) : bool := existsb (String.eqb x) s.

Definition set_add (x : string) (s : pyset) : pyset :=
  if set_mem x s then s else s ++ [x].

(** [set(l)] *)
Definition set_of_list (l : list string) : pyset :=
  fold_left (fun s x => set_add x s) l [].

(** [s1 & s2] *)
Definition set_inter (s1 s2 : pyset) : pyset :=
  filter (fun x => set_mem x s2) s1.

(** [s1 | s2] *)
Definition set_union (s1 s2 : pyset) : pyset :=
  fold_left (fun s x => set_add x s) s2 s1.

(** [s1 == s2] *)
Definition set_eqb (s1 s2 : pyset) : bool :=
  (forallb (fun x => set_mem x s2) s1 && forallb (fun x => set_mem x s1) s2)%bool.

(** [l.remove(c)] on a list of sets: drops the first element equal to [c] *)
Fixpoint list_remove (c : pyset) (l : list pyset) : list pyset :=
  match l with
  | [] => []
  | x :: r => if set_eqb x c then r else x :: list_remove c r
  end.

(** ** [sorted] on strings and [','.join] *)

Fixpoint inserir (x : string) (l : list string) : list string :=
  match l with
  | [] => [x]
  | y :: r => if String.leb x y then x :: y :: r else y :: inserir x r
  end.

Definition sorted (l : list string) : list string :=
  fold_right inserir [] l.

Fixpoint join (sep : string) (l : list string) : string :=
  match l with
  | [] => ""
  | [x] => x
  | x :: r => (x ++ sep ++ join sep r)%string
  end.

(** ** Results: a value, a raised exception, or a loop out of fuel *)

Inductive excecao : Type :=
| KeyError (chave : string)
| ValueError
| IndexError.

Inductive resultado (A : Type) : Type :=
| Ok (a : A)
| Erro (e : excecao)
| SemCombustivel.
Arguments Ok {A} a.
Arguments Erro {A} e.
Arguments SemCombustivel {A}.

Definition bind {A B : Type} (m : resultado A) (f : A -> resultado B)
  : resultado B :=
  match m with
  | Ok a => f a
  | Erro e => Erro e
  | SemCombustivel => SemCombustivel
  end.

Notation "x <- m ;; k" := (bind m (fun x => k))
  (at level 61, m at next level, right associativity).

(** [d[k]], which raises [KeyError] on a missing key *)
Definition dict_index {V : Type} (d : dict string V) (k : string)
  : resultado V :=
  match dict_get d k with
  | Some v => Ok v
  | None => Erro (KeyError k)
  end.

(** ** The automaton as loaded from JSON *)

Definition transicoes_t : Type := dict string (dict string string).

Record AFD : Type := mkAFD {
  afd_estados : list string;
  afd_alfabeto : list string;
  afd_estado_inicial : string;
  afd_estados_finais : list string;
  afd_transicoes : transicoes_t
}.

(** [transicoes.get(e, {}).get(simbolo)], which is also the test
    [e in transicoes and simbolo in transicoes[e]] followed by the lookup *)
Definition delta (t : transicoes_t) (e simbolo : string) : option string :=
  match dict_get t e with
  | Some m => dict_get m simbolo
  | None => None
  end.

Definition tabela_t : Type := dict par bool.

(** ** The object state of [MinimizadorAFD] *)

Record Minimizador : Type := mkMin {
  afd : AFD;
  estados : list string;
  alfabeto : list string;
  estado_inicial : string;
  estados_finais : pyset;
  transicoes : transicoes_t;
  tabela_marcacao : tabela_t
}.

(** [__init__], after [_carregar_json] has produced the dictionary *)
Definition __init__ (a : AFD) : Minimizador :=
  {| afd := a;
     estados := afd_estados a;
     alfabeto := afd_alfabeto a;
     estado_inicial := afd_estado_inicial a;
     estados_finais := set_of_list (afd_estados_finais a);
     transicoes := afd_transicoes a;
     tabela_marcacao := [] |}.

(** *** Etapa 1: unreachable states *)

(** the [for simbolo in self.alfabeto] loop of the search *)
Fixpoint visitar (t : transicoes_t) (estado_atual : string)
  (simbolos : list string) (alcancaveis : pyset) (fila : list string)
  : pyset * list string :=
  match simbolos with
  | [] => (alcancaveis, fila)
  | simbolo :: resto =>
      match delta t estado_atual simbolo with
      | Some proximo_estado =>
          if set_mem proximo_estado alcancaveis
          then visitar t estado_atual resto alcancaveis fila
          else visitar t estado_atual resto
                 (set_add proximo_estado alcancaveis) (fila ++ [proximo_estado])
      | None => visitar t estado_atual resto alcancaveis fila
      end
  end.

(** the [while fila] loop *)
Fixpoint busca (combustivel : nat) (t : transicoes_t) (alf : list string)
  (alcancaveis : pyset) (fila : list string) : resultado pyset :=
  match fila with
  | [] => Ok alcancaveis
  | estado_atual :: fila' =>
      match combustivel with
      | O => SemCombustivel
      | S c =>
          let '(alcancaveis', fila'') :=
            visitar t estado_atual alf alcancaveis fila' in
          busca c t alf alcancaveis' fila''
      end
  end.

(** every destination written in the transition map *)
Definition destinos (t : transicoes_t) : list string :=
  map snd (List.concat (map snd t)).

Definition combustivel_busca (t : transicoes_t) : nat :=
  S (List.length (destinos t)).

Definition _encontrar_estados_alcancaveis (self : Minimizador)
  : resultado pyset :=
  busca (combustivel_busca (transicoes self)) (transicoes self) (alfabeto self)
    [estado_inicial self] [estado_inicial self].

(** the loop that rebuilds [novas_transicoes] *)
Definition podar_transicoes (t : transicoes_t) (ests : list string)
  : transicoes_t :=
  fold_left
    (fun novas estado =>
       match dict_get t estado with
       | Some m => dict_set novas estado m
       | None => novas
       end)
    ests [].

Definition _remover_estados_inalcancaveis (self : Minimizador)
  : resultado Minimizador :=
  alcancaveis <- _encontrar_estados_alcancaveis self ;;
  let ests := filter (fun e => set_mem e alcancaveis) (estados self) in
  Ok {| afd := afd self;
        estados := ests;
        alfabeto := alfabeto self;
        estado_inicial := estado_inicial self;
        estados_finais := set_inter (estados_finais self) alcancaveis;
        transicoes := podar_transicoes (transicoes self) ests;
        tabela_marcacao := tabela_marcacao self |}.

(** *** Etapa 2: the marking table *)

Definition com_tabela (self : Minimizador) (tab : tabela_t) : Minimizador :=
  {| afd := afd self;
     estados := estados self;
     alfabeto := alfabeto self;
     estado_inicial := estado_inicial self;
     estados_finais := estados_finais self;
     transicoes := transicoes self;
     tabela_marcacao := tab |}.

(** rows [i], columns [j > i] *)
Fixpoint inicializar (ests : list string) (tab : tabela_t) : tabela_t :=
  match ests with
  | [] => tab
  | ei :: resto =>
      inicializar resto
        (fold_left (fun t ej => dict_set t (ei, ej) false) resto tab)
  end.

Definition _inicializar_tabela (self : Minimizador) : Minimizador :=
  com_tabela self (inicializar (estados self) (tabela_marcacao self)).

(** [self.estados.index(e) if e in self.estados else -1] *)
Fixpoint indice (e : string) (l : list string) : Z :=
  match l with
  | [] => (-1)%Z
  | x :: r =>
      if String.eqb x e then 0%Z
      else let i := indice e r in if (i <? 0)%Z then (-1)%Z else (i + 1)%Z
  end.

Definition _obter_par_ordenado (self : Minimizador) (e1 e2 : string) : par :=
  let idx1 := indice e1 (estados self) in
  let idx2 := indice e2 (estados self) in
  if (idx1 <? idx2)%Z then (e1, e2) else (e2, e1).

Definition marcar_trivial (finais : pyset) (tab : tabela_t) (p : par)
  : tabela_t :=
  let e1_final := set_mem (fst p) finais in
  let e2_final := set_mem (snd p) finais in
  if negb (Bool.eqb e1_final e2_final) then dict_set tab p true else tab.

Definition _marcar_pares_triviais (self : Minimizador) : Minimizador :=
  com_tabela self
    (fold_left (marcar_trivial (estados_finais self))
       (dict_keys (tabela_marcacao self)) (tabela_marcacao self)).

(** the test made for one symbol: both destinations exist, differ, and
    their ordered pair is marked in the table *)
Definition simbolo_distingue (self : Minimizador) (tab : tabela_t)
  (e1 e2 simbolo : string) : bool :=
  match delta (transicoes self) e1 simbolo,
        delta (transicoes self) e2 simbolo with
  | Some destino1, Some destino2 =>
      if negb (String.eqb destino1 destino2) then
        let par_destino := _obter_par_ordenado self destino1 destino2 in
        match dict_get tab par_destino with
        | Some true => true
        | _ => false
        end
      else false
  | _, _ => false
  end.

(** the [for simbolo in self.alfabeto] loop with its [break]: the symbol
    the pair is marked for, if any *)
Fixpoint procurar_simbolo (self : Minimizador) (tab : tabela_t)
  (e1 e2 : string) (simbolos : list string) : option string :=
  match simbolos with
  | [] => None
  | simbolo :: resto =>
      if simbolo_distingue self tab e1 e2 simbolo then Some simbolo
      else procurar_simbolo self tab e1 e2 resto
  end.

(** the body of [for par in self.tabela_marcacao]; the boolean is
    [houve_mudanca] *)
Definition processar_par (self : Minimizador) (st : tabela_t * bool) (p : par)
  : tabela_t * bool :=
  let '(tab, houve_mudanca) := st in
  match dict_get tab p with
  | Some true => (tab, houve_mudanca)
  | _ =>
      match procurar_simbolo self tab (fst p) (snd p) (alfabeto self) with
      | Some _ => (dict_set tab p true, true)
      | None => (tab, houve_mudanca)
      end
  end.

(** one pass of the [while houve_mudanca] loop *)
Definition passada (self : Minimizador) (tab : tabela_t) : tabela_t * bool :=
  fold_left (processar_par self) (dict_keys tab) (tab, false).

(** the [while houve_mudanca] loop; returns the table and [iteracao] *)
Fixpoint iterar (combustivel : nat) (self : Minimizador) (tab : tabela_t)
  (iteracao : nat) : resultado (tabela_t * nat) :=
  match combustivel with
  | O => SemCombustivel
  | S c =>
      let '(tab', houve_mudanca) := passada self tab in
      if houve_mudanca then iterar c self tab' (S iteracao)
      else Ok (tab', S iteracao)
  end.

Definition combustivel_iterar (tab : tabela_t) : nat := S (List.length tab).

Definition _marcar_pares_iterativamente (self : Minimizador)
  : resultado Minimizador :=
  r <- iterar (combustivel_iterar (tabela_marcacao self)) self
         (tabela_marcacao self) 0 ;;
  Ok (com_tabela self (fst r)).

(** [exibir_tabela_marcacao]: only its [max(len(e) for e in self.estados)],
    which raises on an empty list, matters to the caller *)
Definition exibir_tabela_marcacao (self : Minimizador) : resultado unit :=
  match estados self with
  | [] => Erro ValueError
  | _ :: _ => Ok tt
  end.

(** *** Etapa 3: equivalence classes *)

(** the [for classe in classes] search for [classe1] and [classe2] *)
Definition localizar (e1 e2 : string) (classes : list pyset)
  : option pyset * option pyset :=
  fold_left
    (fun (st : option pyset * option pyset) classe =>
       ((if set_mem e1 classe then Some classe else fst st),
        (if set_mem e2 classe then Some classe else snd st)))
    classes (None, None).

(** the body of [for par, marcado in self.tabela_marcacao.items()] *)
Definition unir_par (classes : list pyset) (item : par * bool) : list pyset :=
  let '(p, marcado) := item in
  if marcado then classes
  else
    match localizar (fst p) (snd p) classes with
    | (Some classe1, Some classe2) =>
        if negb (set_eqb classe1 classe2) then
          let nova_classe := set_union classe1 classe2 in
          list_remove classe2 (list_remove classe1 classes) ++ [nova_classe]
        else classes
    | _ => classes
    end.

Definition _encontrar_classes_equivalencia (self : Minimizador)
  : list pyset :=
  fold_left unir_par (tabela_marcacao self)
    (map (fun e => [e]) (estados self)).

(** *** Etapa 4: the minimised automaton *)

Section Reducer.
(** the order in which Python iterates a set *)
Variable set_iter : pyset -> list string.

Definition nome_classe (classe : pyset) : string :=
("{" ++ join "," (sorted (set_iter classe)) ++ "}")%string.

Definition mapear_classes (classes : list pyset) : dict string string :=
fold_left
  (fun d classe =>
     let nome := nome_classe classe in
     fold_left (fun d' estado => dict_set d' estado nome)
       (set_iter classe) d)
  classes [].

(** [set(estado_para_classe[ef] for ef in self.estados_finais)] *)
Fixpoint coletar_finais (estado_para_classe : dict string string)
(finais : list string) (acc : pyset) : resultado pyset :=
match finais with
| [] => Ok acc
| ef :: resto =>
    nome <- dict_index estado_para_classe ef ;;
    coletar_finais estado_para_classe resto (set_add nome acc)
end.

(** the [for simbolo in self.alfabeto] loop for one class *)
Fixpoint transicoes_classe (t : transicoes_t)
(estado_para_classe : dict string string) (representante : string)
(simbolos : list string) (linha : dict string string)
: resultado (dict string string) :=
match simbolos with
| [] => Ok linha
| simbolo :: resto =>
    match delta t representante simbolo with
    | Some destino_antigo =>
        destino_novo <- dict_index estado_para_classe destino_antigo ;;
        transicoes_classe t estado_para_classe representante resto
          (dict_set linha simbolo destino_novo)
    | None =>
        transicoes_classe t estado_para_classe representante resto linha
    end
end.

(** [list(classe)[0]] *)
Definition representante_de (classe : pyset) : resultado string :=
match set_iter classe with
| [] => Erro IndexError
| r :: _ => Ok r
end.

(** the [for classe in classes] loop that fills [novas_transicoes];
  the inner dictionary is filled in place, which for the caller is the
  same as storing it once it is complete *)
Fixpoint novas_transicoes_de (t : transicoes_t) (alf : list string)
(estado_para_classe : dict string string) (classes : list pyset)
(novas : transicoes_t) : resultado transicoes_t :=
match classes with
| [] => Ok novas
| classe :: resto =>
    let nome_origem := nome_classe classe in
    representante <- representante_de classe ;;
    linha <- transicoes_classe t estado_para_classe representante alf [] ;;
    novas_transicoes_de t alf estado_para_classe resto
      (dict_set novas nome_origem linha)
end.

Definition _construir_afd_minimizado (self : Minimizador)
(classes : list pyset) : resultado AFD :=
let estado_para_classe := mapear_classes classes in
let novos_estados := map nome_classe classes in
novo_estado_inicial <-
  dict_index estado_para_classe (estado_inicial self) ;;
finais <-
  coletar_finais estado_para_classe (set_iter (estados_finais self)) [] ;;
let novos_estados_finais := set_iter finais in
novas_transicoes <-
  novas_transicoes_de (transicoes self) (alfabeto self)
    estado_para_classe classes [] ;;
Ok {| afd_estados := novos_estados;
      afd_alfabeto := alfabeto self;
      afd_estado_inicial := novo_estado_inicial;
      afd_estados_finais := novos_estados_finais;
      afd_transicoes := novas_transicoes |}.

(** *** [minimizar] *)

(** the table work of [minimizar], up to the final table *)
Definition preencher_tabela (self : Minimizador) : resultado Minimizador :=
self1 <- _remover_estados_inalcancaveis self ;;
let self2 := _inicializar_tabela self1 in
let self3 := _marcar_pares_triviais self2 in
_ <- exibir_tabela_marcacao self3 ;;
self4 <- _marcar_pares_iterativamente self3 ;;
_ <- exibir_tabela_marcacao self4 ;;
Ok self4.

Definition minimizar (self : Minimizador) : resultado AFD :=
self4 <- preencher_tabela self ;;
let classes := _encontrar_classes_equivalencia self4 in
_construir_afd_minimizado self4 classes.
End Reducer.

(** ** The language of a state *)

(** the state reached from [q] on the word [w], when every move exists *)
Fixpoint correr (t : transicoes_t) (q : string) (w : list string)
  : option string :=
  match w with
  | [] => Some q
  | a :: w' =>
      match delta t q a with
      | Some q' => correr t q' w'
      | None => None
      end
  end.

(** [w] is accepted from [q]: the run exists and ends in a final state *)
Definition aceita (t : transicoes_t) (finais : pyset) (q : string)
  (w : list string) : bool :=
  match correr t q w with
  | Some q' => set_mem q' finais
  | None => false
  end.

(** ** Scenario A *)

Definition cenario_A : AFD :=
  {| afd_estados := ["q0"; "q1"; "q2"; "q3"];
     afd_alfabeto := ["a"; "b"];
     afd_estado_inicial := "q0";
     afd_estados_finais := ["q2"];
     afd_transicoes :=
       [("q0", [("a", "q1"); ("b", "q0")]);
        ("q1", [("a", "q2"); ("b", "q0")]);
        ("q2", [("a", "q2"); ("b", "q2")]);
        ("q3", [("a", "q3"); ("b", "q3")])] |}.

Definition ordem_id (s : pyset) : list string := s.
Definition ordem_rev (s : pyset) : list string := rev s.

(** ** Vocabulary of the properties *)

(** the pair [p] is marked in the table *)
Definition marcado (tab : tabela_t) (p : par) : Prop :=
  dict_get tab p = Some true.

(** how many entries of the table are still unmarked *)
Definition nao_marcados (tab : tabela_t) : nat :=
  List.length (filter (fun kv => negb (snd kv)) tab).

(** exactly one of the two moves on [simbolo] exists *)
Definition so_uma_definida (t : transicoes_t) (e1 e2 simbolo : string) : Prop :=
  (delta t e1 simbolo = None /\ delta t e2 simbolo <> None) \/
  (delta t e1 simbolo <> None /\ delta t e2 simbolo = None).

(** a state with a move on ["a"], a state without, and a small table *)
Definition parcial_min : Minimizador :=
  {| afd := mkAFD [] [] "" [] [];
     estados := ["p"; "q"; "f"; "g"];
     alfabeto := ["a"];
     estado_inicial := "p";
     estados_finais := ["f"];
     transicoes := [("p", [("a", "f")])];
     tabela_marcacao := [(("p", "q"), false); (("f", "g"), true)] |}.

(** the state [x] is reached from [q0] on some word over the alphabet *)
Definition alcancavel (t : transicoes_t) (alf : list string)
  (q0 x : string) : Prop :=
  exists w, Forall (fun a => In a alf) w /\ correr t q0 w = Some x.

(** an iteration order lists the elements of the set, each once *)
Definition ordem_valida (set_iter : pyset -> list string) : Prop :=
  forall s, Permutation (set_iter s) s.

(** all pairs [(estados[i], estados[j])] with [i < j], row by row *)
Fixpoint pares (ests : list string) : list par :=
  match ests with
  | [] => []
  | e :: resto => map (pair e) resto ++ pares resto
  end.

(** [x] and [y] are members of one class of the list *)
Definition mesma_classe (classes : list pyset) (x y : string) : Prop :=
  exists c, In c classes /\ In x c /\ In y c.

(** [x] and [y], taken from [ests], are linked by a chain of pairs that the
    table holds unmarked, read in either direction *)
Inductive ligados (tab : tabela_t) (ests : list string)
  : string -> string -> Prop :=
| ligados_refl x : In x ests -> ligados tab ests x x
| ligados_par e1 e2 :
    In ((e1, e2), false) tab -> In e1 ests -> In e2 ests ->
    ligados tab ests e1 e2
| ligados_sym x y : ligados tab ests x y -> ligados tab ests y x
| ligados_trans x y z :
    ligados tab ests x y -> ligados tab ests y z -> ligados tab ests x z.

(** the classes are non-empty, and two of them that share a member are the
    same entry of the list *)
Definition classes_disjuntas (classes : list pyset) : Prop :=
  NoDup classes /\
  ~ In [] classes /\
  forall c d x, In c classes -> In d classes -> In x c -> In x d -> c = d.

(** the same closure, started from an arbitrary relation between members of
    classes instead of from the identity on [ests] *)
Inductive fecho_classes (R0 : string -> string -> Prop) (tab : tabela_t)
  : string -> string -> Prop :=
| fecho_base x y : R0 x y -> fecho_classes R0 tab x y
| fecho_par e1 e2 :
    In ((e1, e2), false) tab -> R0 e1 e1 -> R0 e2 e2 ->
    fecho_classes R0 tab e1 e2
| fecho_sym x y : fecho_classes R0 tab x y -> fecho_classes R0 tab y x
| fecho_trans x y z :
    fecho_classes R0 tab x y -> fecho_classes R0 tab y z ->
    fecho_classes R0 tab x z.

(** exactly one state of the pair is final *)
Definition um_final (finais : pyset) (p : par) : bool :=
  negb (Bool.eqb (set_mem (fst p) finais) (set_mem (snd p) finais)).

(** what the table work leaves in the object: the table has one entry for
    every pair of [pares], the pairs with exactly one final state are
    marked, and a further pass changes nothing *)
Definition tabela_final (self : Minimizador) : Prop :=
  NoDup (dict_keys (tabela_marcacao self)) /\
  (forall p, In p (dict_keys (tabela_marcacao self)) <->
             In p (pares (estados self))) /\
  (forall p, In p (dict_keys (tabela_marcacao self)) ->
             um_final (estados_finais self) p = true ->
             marcado (tabela_marcacao self) p) /\
  passada self (tabela_marcacao self) = (tabela_marcacao self, false).

(** the states listed in the object are closed under the moves on the
    symbols of its alphabet *)
Definition fechado (self : Minimizador) : Prop :=
  forall x s d,
    In x (estados self) -> In s (alfabeto self) ->
    delta (transicoes self) x s = Some d -> In d (estados self).

(** every reachable state of the automaton has, for every symbol of the
    alphabet, a move to a listed state *)
Definition completo (a : AFD) : Prop :=
  forall x s,
    alcancavel (afd_transicoes a) (afd_alfabeto a) (afd_estado_inicial a) x ->
    In s (afd_alfabeto a) ->
    exists d, delta (afd_transicoes a) x s = Some d /\ In d (afd_estados a).

(** every destination of a reachable state, on a symbol of the alphabet,
    is a listed state *)
Definition destinos_listados (a : AFD) : Prop :=
  forall x s d,
    alcancavel (afd_transicoes a) (afd_alfabeto a) (afd_estado_inicial a) x ->
    In s (afd_alfabeto a) ->
    delta (afd_transicoes a) x s = Some d -> In d (afd_estados a).

(** the two states accept the same words over the alphabet *)
Definition equivalentes (a : AFD) (e1 e2 : string) : Prop :=
  forall w, Forall (fun s => In s (afd_alfabeto a)) w ->
    aceita (afd_transicoes a) (set_of_list (afd_estados_finais a)) e1 w =
    aceita (afd_transicoes a) (set_of_list (afd_estados_finais a)) e2 w.

(** C1 as the specification words it, for one automaton: in the final
    table, the states of an unmarked pair accept the same words *)
Definition nao_marcados_equivalentes (a : AFD) : Prop :=
  forall self4 e1 e2,
    preencher_tabela (__init__ a) = Ok self4 ->
    In (e1, e2) (dict_keys (tabela_marcacao self4)) ->
    ~ marcado (tabela_marcacao self4) (e1, e2) ->
    equivalentes a e1 e2.

(** a partial automaton: [q] and [g] lack moves that [p] and [r] have *)
Definition afd_parcial : AFD :=
  {| afd_estados := ["p"; "q"; "r"; "f"; "g"];
     afd_alfabeto := ["a"; "b"];
     afd_estado_inicial := "p";
     afd_estados_finais := ["f"];
     afd_transicoes :=
       [("p", [("a", "f"); ("b", "q")]);
        ("q", [("b", "r")]);
        ("r", [("a", "g"); ("b", "r")])] |}.

(** [completo] and [destinos_listados] as checks over the states the search
    finds *)
Definition completo_b (a : AFD) : bool :=
  match _encontrar_estados_alcancaveis (__init__ a) with
  | Ok alc =>
      forallb
        (fun x =>
           forallb
             (fun s =>
                match delta (afd_transicoes a) x s with
                | Some d => set_mem d (afd_estados a)
                | None => false
                end)
             (afd_alfabeto a))
        alc
  | _ => false
  end.

Definition destinos_listados_b (a : AFD) : bool :=
  match _encontrar_estados_alcancaveis (__init__ a) with
  | Ok alc =>
      forallb
        (fun x =>
           forallb
             (fun s =>
                match delta (afd_transicoes a) x s with
                | Some d => set_mem d (afd_estados a)
                | None => true
                end)
             (afd_alfabeto a))
        alc
  | _ => false
  end.

(** two accepting states that move to each other *)
Definition afd_ciclo : AFD :=
  {| afd_estados := ["A"; "B"];
     afd_alfabeto := ["a"];
     afd_estado_inicial := "A";
     afd_estados_finais := ["A"; "B"];
     afd_transicoes := [("A", [("a", "B")]); ("B", [("a", "A")])] |}.

(** some word over the alphabet is accepted from one state of the pair and
    not from the other, in the automaton the object holds *)
Definition distinguiveis (self : Minimizador) (p : par) : Prop :=
  exists w,
    Forall (fun s => In s (alfabeto self)) w /\
    aceita (transicoes self) (estados_finais self) (fst p) w <>
    aceita (transicoes self) (estados_finais self) (snd p) w.

(** every pair the table marks is distinguishable *)
Definition tabela_fundada (self : Minimizador) (tab : tabela_t) : Prop :=
  forall p, marcado tab p -> distinguiveis self p.

(** C5 as the specification words it, for one automaton: two states of a
    pair of the final table are in one class exactly when the pair is
    unmarked *)
Definition particao_exata (a : AFD) : Prop :=
  forall self4 e1 e2,
    preencher_tabela (__init__ a) = Ok self4 ->
    In (e1, e2) (dict_keys (tabela_marcacao self4)) ->
    (mesma_classe (_encontrar_classes_equivalencia self4) e1 e2 <->
     ~ marcado (tabela_marcacao self4) (e1, e2)).

Definition mesma_classe_b (classes : list pyset) (x y : string) : bool :=
  existsb (fun c => (set_mem x c && set_mem y c)%bool) classes.

(** the object [minimizar] holds on [afd_parcial] when the table is final *)
Definition parcial_final : Minimizador :=
  Eval vm_compute in
    match preencher_tabela (__init__ afd_parcial) with
    | Ok self4 => self4
    | _ => __init__ afd_parcial
    end.

(** the minimised automaton refers only to its own states *)
Definition bem_formado (m : AFD) : Prop :=
  In (afd_estado_inicial m) (afd_estados m) /\
  incl (afd_estados_finais m) (afd_estados m) /\
  forall origem linha,
    In (origem, linha) (afd_transicoes m) ->
    In origem (afd_estados m) /\
    forall simbolo destino,
      In (simbolo, destino) linha -> In destino (afd_estados m).

(** the members of every class move, on every symbol on which they move at
    all, into one class *)
Definition consistente (self : Minimizador) (classes : list pyset) : Prop :=
  forall c r r' s d d',
    In c classes -> In r c -> In r' c -> In s (alfabeto self) ->
    delta (transicoes self) r s = Some d ->
    delta (transicoes self) r' s = Some d' ->
    mesma_classe classes d d'.

(** the classes cover [ests] with non-empty subsets of it *)
Definition classes_cobrem (ests : list string) (classes : list pyset) : Prop :=
  (forall x, In x ests -> exists c, In c classes /\ In x c) /\
  (forall c, In c classes -> c <> [] /\ forall x, In x c -> In x ests).

(** the input is not a well-formed automaton in the sense of the
    specification *)
Definition malformado (a : AFD) : Prop :=
  ~ In (afd_estado_inicial a) (afd_estados a) \/
  ~ incl (afd_estados_finais a) (afd_estados a).

(** C6 as the specification words it, for one automaton and in its weakest
    reading: a malformed input makes [minimizar] fail *)
Definition rejeita_malformado (set_iter : pyset -> list string) (a : AFD)
  : Prop :=
  malformado a -> exists e, minimizar set_iter (__init__ a) = Erro e.

(** an accepting list that names a state the automaton does not have *)
Definition afd_final_extra : AFD :=
  {| afd_estados := ["q0"];
     afd_alfabeto := ["a"];
     afd_estado_inicial := "q0";
     afd_estados_finais := ["q0"; "zz"];
     afd_transicoes := [("q0", [("a", "q0")])] |}.

(** a start state that is not in the state list *)
Definition afd_inicial_fora : AFD :=
  {| afd_estados := ["q0"];
     afd_alfabeto := ["a"];
     afd_estado_inicial := "s";
     afd_estados_finais := [];
     afd_transicoes := [("s", [("a", "q0")]); ("q0", [("a", "q0")])] |}.

(** sorted for [String.leb], every element against every later one *)
Definition ordenada (l : list string) : Prop :=
  StronglySorted (fun x y => String.leb x y = true) l.

(** C7 as the specification words it, for one call of the reducer: classes
    whose members do not move consistently make it fail *)
Definition verifica_pos_condicao (set_iter : pyset -> list string)
  (self : Minimizador) (classes : list pyset) : Prop :=
  ~ consistente self classes ->
  exists e, _construir_afd_minimizado set_iter self classes = Erro e.

(** [parcial_final] with the moves of [r], which is no representative under
    [ordem_id], replaced *)
Definition parcial_alterado : Minimizador :=
  {| afd := afd parcial_final;
     estados := estados parcial_final;
     alfabeto := alfabeto parcial_final;
     estado_inicial := estado_inicial parcial_final;
     estados_finais := estados_finais parcial_final;
     transicoes :=
       [("p", [("a", "f"); ("b", "q")]);
        ("q", [("b", "r")]);
        ("r", [("a", "p"); ("b", "f")])];
     tabela_marcacao := tabela_marcacao parcial_final |}.

(** C8 as the specification words it, for one automaton: the output does
    not depend on the order in which sets are iterated *)
Definition determinista (a : AFD) : Prop :=
  forall it1 it2,
    ordem_valida it1 -> ordem_valida it2 ->
    minimizar it1 (__init__ a) = minimizar it2 (__init__ a).

(** an iteration order that differs from [ordem_id] on sorted sets *)
Definition ordem_decrescente (s : pyset) : list string := rev (sorted s).

(** a complete automaton with two accepting classes *)
Definition afd_abc : AFD :=
  {| afd_estados := ["A"; "B"; "C"];
     afd_alfabeto := ["a"];
     afd_estado_inicial := "A";
     afd_estados_finais := ["A"; "C"];
     afd_transicoes :=
       [("A", [("a", "B")]); ("B", [("a", "C")]); ("C", [("a", "C")])] |}.


(** ** Further vocabulary *)

(** the row-major list of table entries a fresh table starts with *)
Definition tabela_inicial (ests : list string) : tabela_t :=
  map (fun p => (p, false)) (pares ests).

(** the object [minimizar] holds on scenario A when the table is final *)
Definition cenario_A_final : Minimizador :=
  Eval vm_compute in
    match preencher_tabela (__init__ cenario_A) with
    | Ok self4 => self4
    | _ => __init__ cenario_A
    end.

(** the object [minimizar] holds on [afd_ciclo] when the table is final *)
Definition ciclo_final : Minimizador :=
  Eval vm_compute in
    match preencher_tabela (__init__ afd_ciclo) with
    | Ok self4 => self4
    | _ => __init__ afd_ciclo
    end.

(** the string holds no comma *)
Fixpoint sem_virgula (s : string) : Prop :=
  match s with
  | EmptyString => True
  | String c r => c <> ","%char /\ sem_virgula r
  end.

(** the pieces of a string between its commas *)
Fixpoint separar (s : string) : list string :=
  match s with
  | EmptyString => [EmptyString]
  | String c r =>
      if Ascii.eqb c ","%char then EmptyString :: separar r
      else
        match separar r with
        | h :: t => String c h :: t
        | [] => [String c EmptyString]
        end
  end.

(** two classes whose names collide: a state called [a,b], and the states
    [a] and [b], which are equivalent *)
Definition afd_virgula : AFD :=
  {| afd_estados := ["a,b"; "a"; "b"];
     afd_alfabeto := ["x"];
     afd_estado_inicial := "a,b";
     afd_estados_finais := ["a,b"];
     afd_transicoes :=
       [("a,b", [("x", "a")]); ("a", [("x", "b")]); ("b", [("x", "a")])] |}.

(** the automaton [minimizar] returns on scenario A, sets iterated in
    insertion order *)
Definition cenario_A_min : AFD :=
  Eval vm_compute in
    match minimizar ordem_id (__init__ cenario_A) with
    | Ok m => m
    | _ => cenario_A
    end.

(** the name [nome_classe] gives to the class of one state *)
Definition chaves (x : string) : string := ("{" ++ x ++ "}")%string.

(** no two listed states of the automaton accept the same words *)
Definition sem_equivalentes (b : AFD) : Prop :=
  forall x y,
    In x (afd_estados b) -> In y (afd_estados b) ->
    equivalentes b x y -> x = y.

(** every listed state of the automaton is reached from its start state *)
Definition todos_alcancaveis (b : AFD) : Prop :=
  forall x,
    In x (afd_estados b) ->
    alcancavel (afd_transicoes b) (afd_alfabeto b) (afd_estado_inicial b) x.

(** [m2] is [b] with every state name put in braces *)
Definition renomeado (b m2 : AFD) : Prop :=
  afd_estados m2 = map chaves (afd_estados b) /\
  afd_alfabeto m2 = afd_alfabeto b /\
  afd_estado_inicial m2 = chaves (afd_estado_inicial b) /\
  (forall x, In x (afd_estados b) ->
     (In (chaves x) (afd_estados_finais m2) <->
      In x (afd_estados_finais b))) /\
  (forall x s, In x (afd_estados b) -> In s (afd_alfabeto b) ->
     delta (afd_transicoes m2) (chaves x) s =
     option_map chaves (delta (afd_transicoes b) x s)).


(** ** The drawing *)









(** ** The printed table *)

(** the cell [exibir_tabela_marcacao] prints in the row of [ei] and the
    column of [ej] *)
Definition marcador (self : Minimizador) (ei ej : string) : string :=
  let par := _obter_par_ordenado self ei ej in
  if dict_in (tabela_marcacao self) par then
    match dict_get (tabela_marcacao self) par with
    | Some true => "X"
    | _ => "-"
    end
  else "?".

(** * Properties *)

(** ** Dictionaries *)

#[export] Instance EqBLegal_string : EqBLegal string.
Proof. exact String.eqb_eq. Qed.

#[export] Instance EqBLegal_par : EqBLegal par.
Proof.
  intros [a b] [c d]; unfold eqb; simpl; unfold par_eqb; simpl.
  rewrite andb_true_iff, !String.eqb_eq.
  split; [intros [-> ->]; reflexivity | intros E; inversion E; auto].
Qed.

Section DictFacts.
Context {K V : Type} `{EqBLegal K}.
Implicit Types (d : dict K V) (k : K) (v : V).

Lemma eqb_refl k : eqb k k = true.
Proof. apply eqb_eq; reflexivity. Qed.

Lemma eqb_neq k k' : k <> k' -> eqb k k' = false.
Proof.
intros N; destruct (eqb k k') eqn:E; [|reflexivity].
apply eqb_eq in E; contradiction.
Qed.

Lemma eqb_dec k k' : {k = k'} + {k <> k'}.
Proof.
destruct (eqb k k') eqn:E.
- left; apply eqb_eq; exact E.
- right; intros ->; rewrite eqb_refl in E; discriminate.
Qed.

Lemma dict_get_set_same d k v : dict_get (dict_set d k v) k = Some v.
Proof.
induction d as [|[k' v'] r IH]; simpl.
- rewrite eqb_refl; reflexivity.
- destruct (eqb k' k) eqn:E; simpl; rewrite E; auto.
Qed.

Lemma dict_get_set_other d k k' v :
k <> k' -> dict_get (dict_set d k v) k' = dict_get d k'.
Proof.
intros N; induction d as [|[k0 v0] r IH]; simpl.
- rewrite (eqb_neq _ _ N); reflexivity.
- destruct (eqb k0 k) eqn:E; simpl.
  + apply eqb_eq in E; subst k0. rewrite (eqb_neq _ _ N); reflexivity.
  + destruct (eqb k0 k'); auto.
Qed.

Lemma dict_get_In d k v : dict_get d k = Some v -> In (k, v) d.
Proof.
induction d as [|[k0 v0] r IH]; simpl; [discriminate|].
destruct (eqb k0 k) eqn:E.
- apply eqb_eq in E; subst k0. intros [= ->]; auto.
- auto.
Qed.

Lemma dict_get_None d k : dict_get d k = None <-> ~ In k (dict_keys d).
Proof.
induction d as [|[k0 v0] r IH]; simpl; [tauto|].
destruct (eqb k0 k) eqn:E.
- apply eqb_eq in E; subst k0. split; [discriminate | tauto].
- rewrite IH. split; [|tauto].
  intros N [->|I]; [rewrite eqb_refl in E; discriminate | tauto].
Qed.

Lemma dict_get_Some_key d k v : dict_get d k = Some v -> In k (dict_keys d).
Proof.
intros G. destruct (in_dec eqb_dec k (dict_keys d)) as [I|N]; [exact I|].
apply dict_get_None in N; congruence.
Qed.

Lemma dict_in_keys d k : In k (dict_keys d) -> exists v, dict_get d k = Some v.
Proof.
intros I. destruct (dict_get d k) eqn:G; [eauto|].
apply dict_get_None in G; contradiction.
Qed.

Lemma dict_keys_set_in d k v :
In k (dict_keys d) -> dict_keys (dict_set d k v) = dict_keys d.
Proof.
induction d as [|[k0 v0] r IH]; simpl; [tauto|].
destruct (eqb k0 k) eqn:E; simpl; [reflexivity|].
intros [->|I]; [rewrite eqb_refl in E; discriminate|].
f_equal; apply IH; exact I.
Qed.

Lemma dict_keys_set_new d k v :
~ In k (dict_keys d) -> dict_set d k v = d ++ [(k, v)].
Proof.
induction d as [|[k0 v0] r IH]; simpl; [reflexivity|].
intros N. destruct (eqb k0 k) eqn:E.
- apply eqb_eq in E; subst; tauto.
- f_equal; apply IH; tauto.
Qed.

Lemma dict_keys_set d k v x :
In x (dict_keys (dict_set d k v)) <-> x = k \/ In x (dict_keys d).
Proof.
destruct (in_dec eqb_dec k (dict_keys d)) as [I|N].
- rewrite dict_keys_set_in by exact I. split; [tauto|intros [->|?]; auto].
- rewrite dict_keys_set_new by exact N. unfold dict_keys.
  rewrite map_app, in_app_iff; simpl. intuition.
Qed.

Lemma dict_set_length_in d k v :
In k (dict_keys d) -> List.length (dict_set d k v) = List.length d.
Proof.
intros I. rewrite <- (length_map fst), <- (length_map fst d).
f_equal. apply dict_keys_set_in; exact I.
Qed.
End DictFacts.

(** ** Sets *)

Lemma set_mem_In x s : set_mem x s = true <-> In x s.
Proof.
  unfold set_mem; rewrite existsb_exists; split.
  - intros (y & I & E); apply String.eqb_eq in E; subst; exact I.
  - intros I; exists x; split; [exact I | apply String.eqb_refl].
Qed.

Lemma set_mem_false x s : set_mem x s = false <-> ~ In x s.
Proof.
  rewrite <- set_mem_In; destruct (set_mem x s); split; congruence.
Qed.

Lemma set_add_In x y s : In y (set_add x s) <-> y = x \/ In y s.
Proof.
  unfold set_add; destruct (set_mem x s) eqn:E.
  - apply set_mem_In in E; split; [tauto | intros [->|?]; auto].
  - rewrite in_app_iff; simpl; intuition.
Qed.

Lemma set_add_NoDup x s : NoDup s -> NoDup (set_add x s).
Proof.
  intros N; unfold set_add; destruct (set_mem x s) eqn:E; [exact N|].
  apply set_mem_false in E.
  apply NoDup_app; [exact N | repeat constructor; simpl; tauto |].
  intros y I [<-|[]]; contradiction.
Qed.

Lemma set_union_In y s1 s2 : In y (set_union s1 s2) <-> In y s1 \/ In y s2.
Proof.
  unfold set_union; revert s1; induction s2 as [|x r IH]; intros s1; simpl.
  - tauto.
  - rewrite IH, set_add_In; intuition.
Qed.

Lemma set_union_NoDup s1 s2 : NoDup s1 -> NoDup (set_union s1 s2).
Proof.
  unfold set_union; revert s1; induction s2 as [|x r IH]; intros s1 N; simpl.
  - exact N.
  - apply IH, set_add_NoDup, N.
Qed.

Lemma set_of_list_In y l : In y (set_of_list l) <-> In y l.
Proof.
  change (set_of_list l) with (set_union [] l).
  rewrite set_union_In; simpl; tauto.
Qed.

Lemma set_of_list_NoDup l : NoDup (set_of_list l).
Proof. apply (set_union_NoDup [] l); constructor. Qed.

Lemma set_inter_In y s1 s2 : In y (set_inter s1 s2) <-> In y s1 /\ In y s2.
Proof. unfold set_inter; rewrite filter_In, set_mem_In; tauto. Qed.

Lemma set_eqb_true s1 s2 :
  set_eqb s1 s2 = true <-> (forall x, In x s1 <-> In x s2).
Proof.
  unfold set_eqb; rewrite andb_true_iff, !forallb_forall.
  split.
  - intros [A B] x; split; intros I; apply set_mem_In; auto.
  - intros E; split; intros x I; apply set_mem_In, E, I.
Qed.

(** ** The marking table only grows *)

Lemma marcado_set tab p q : marcado tab p -> marcado (dict_set tab q true) p.
Proof.
  unfold marcado; intros M. destruct (eqb_dec q p) as [->|N].
  - apply dict_get_set_same.
  - rewrite dict_get_set_other by exact N. exact M.
Qed.

Lemma marcar_trivial_mono finais tab p q :
  marcado tab p -> marcado (marcar_trivial finais tab q) p.
Proof.
  intros M; unfold marcar_trivial.
  destruct (negb _); [apply marcado_set|]; exact M.
Qed.

Lemma processar_par_mono self tab b p q :
  marcado tab p -> marcado (fst (processar_par self (tab, b) q)) p.
Proof.
  intros M; unfold processar_par.
  destruct (dict_get tab q) as [[|]|]; simpl; try exact M;
    destruct (procurar_simbolo _ _ _ _ _); simpl;
    try apply marcado_set; exact M.
Qed.

Lemma fold_marcar_trivial_mono finais l tab p :
  marcado tab p -> marcado (fold_left (marcar_trivial finais) l tab) p.
Proof.
  revert tab; induction l as [|q l IH]; intros tab M; simpl; [exact M|].
  apply IH, marcar_trivial_mono, M.
Qed.

Lemma fold_processar_par_mono self l st p :
  marcado (fst st) p -> marcado (fst (fold_left (processar_par self) l st)) p.
Proof.
  revert st; induction l as [|q l IH]; intros [tab b] M; simpl; [exact M|].
  apply IH, processar_par_mono, M.
Qed.

Lemma passada_mono self tab p :
  marcado tab p -> marcado (fst (passada self tab)) p.
Proof. intros M; apply fold_processar_par_mono; exact M. Qed.

Lemma iterar_mono c self tab n tab' n' p :
  iterar c self tab n = Ok (tab', n') -> marcado tab p -> marcado tab' p.
Proof.
  revert tab n; induction c as [|c IH]; intros tab n; simpl; [discriminate|].
  destruct (passada self tab) as [t1 b] eqn:P.
  intros R M. assert (M1 : marcado t1 p).
  { change t1 with (fst (t1, b)); rewrite <- P; apply passada_mono, M. }
  destruct b.
  - eapply IH; eauto.
  - inversion R; subst; exact M1.
Qed.

(** ** Undefined moves are skipped *)

Lemma procurar_simbolo_Some self tab e1 e2 simbolos a :
  procurar_simbolo self tab e1 e2 simbolos = Some a ->
  In a simbolos /\ simbolo_distingue self tab e1 e2 a = true.
Proof.
  induction simbolos as [|s r IH]; simpl; [discriminate|].
  destruct (simbolo_distingue self tab e1 e2 s) eqn:D.
  - intros [= <-]; auto.
  - intros E; destruct (IH E); auto.
Qed.

Lemma procurar_simbolo_None self tab e1 e2 simbolos :
  procurar_simbolo self tab e1 e2 simbolos = None <->
  (forall a, In a simbolos -> simbolo_distingue self tab e1 e2 a = false).
Proof.
  induction simbolos as [|s r IH]; simpl.
  - split; [intros _ a [] | reflexivity].
  - destruct (simbolo_distingue self tab e1 e2 s) eqn:D.
    + split; [discriminate|]. intros A. rewrite A in D by auto. discriminate.
    + rewrite IH. split.
      * intros A a [<-|I]; auto.
      * intros A a I; apply A; auto.
Qed.

Lemma simbolo_distingue_definidas self tab e1 e2 a :
  simbolo_distingue self tab e1 e2 a = true ->
  exists d1 d2,
    delta (transicoes self) e1 a = Some d1 /\
    delta (transicoes self) e2 a = Some d2 /\
    d1 <> d2 /\
    marcado tab (_obter_par_ordenado self d1 d2).
Proof.
  unfold simbolo_distingue, marcado.
  destruct (delta (transicoes self) e1 a) as [d1|]; [|discriminate].
  destruct (delta (transicoes self) e2 a) as [d2|]; [|discriminate].
  destruct (String.eqb d1 d2) eqn:E; simpl; [discriminate|].
  apply String.eqb_neq in E.
  destruct (dict_get tab _) as [[|]|] eqn:G; try discriminate.
  intros _; exists d1, d2; repeat split; auto.
Qed.

(** C3. In the closure phase, a symbol on which exactly one of the two
    states of a pair has a move never marks the pair: the test for that
    symbol is negative whatever the table holds, the symbol is never the one
    the pair is marked for, and scanning an alphabet with the symbol in it
    has the same outcome as scanning the alphabet without it. *)
Theorem simbolo_parcial_nao_marca
  (self : Minimizador) (tab : tabela_t) (e1 e2 a : string)
  (Hparcial : so_uma_definida (transicoes self) e1 e2 a) :
  simbolo_distingue self tab e1 e2 a = false /\
  (forall simbolos, procurar_simbolo self tab e1 e2 simbolos <> Some a) /\
  (forall pre pos,
     procurar_simbolo self tab e1 e2 (pre ++ a :: pos) =
     procurar_simbolo self tab e1 e2 (pre ++ pos)).
Proof.
  assert (D : simbolo_distingue self tab e1 e2 a = false).
  { unfold simbolo_distingue.
    destruct Hparcial as [[-> _]|[_ ->]]; [reflexivity|].
    destruct (delta (transicoes self) e1 a); reflexivity. }
  split; [exact D|split].
  - intros simbolos E. apply procurar_simbolo_Some in E.
    destruct E as [_ E]; congruence.
  - intros pre pos; induction pre as [|s pre IH]; simpl.
    + rewrite D; reflexivity.
    + rewrite IH; reflexivity.
Qed.

Lemma simbolo_parcial_nao_marca_witness :
  so_uma_definida (transicoes parcial_min) "q" "p" "a" /\
  simbolo_distingue parcial_min (tabela_marcacao parcial_min) "q" "p" "a"
    = false.
Proof.
  assert (H : so_uma_definida (transicoes parcial_min) "q" "p" "a").
  { left; split; [reflexivity | discriminate]. }
  split; [exact H|].
  exact (proj1 (simbolo_parcial_nao_marca parcial_min _ "q" "p" "a" H)).
Defined.

(** C4. Marking is monotonic: a pair that is marked in a table stays marked
    after the treatment of any pair by the trivial-marking phase, after the
    whole trivial-marking phase, after the treatment of any pair by a pass
    of the closure phase, after a whole pass, and in the table the closure
    phase ends with. *)
Theorem marcacao_monotona
  (self : Minimizador) (tab : tabela_t) (p : par) (Hm : marcado tab p) :
  (forall q, marcado (marcar_trivial (estados_finais self) tab q) p) /\
  marcado (tabela_marcacao (_marcar_pares_triviais (com_tabela self tab))) p /\
  (forall q b, marcado (fst (processar_par self (tab, b) q)) p) /\
  marcado (fst (passada self tab)) p /\
  (forall c n tab' n',
     iterar c self tab n = Ok (tab', n') -> marcado tab' p) /\
  (forall self',
     _marcar_pares_iterativamente (com_tabela self tab) = Ok self' ->
     marcado (tabela_marcacao self') p).
Proof.
  repeat split.
  - intros q; apply marcar_trivial_mono, Hm.
  - simpl; apply fold_marcar_trivial_mono, Hm.
  - intros q b; apply processar_par_mono, Hm.
  - apply passada_mono, Hm.
  - intros c n tab' n' R; eapply iterar_mono; eauto.
  - intros self' E; unfold _marcar_pares_iterativamente in E.
    change (tabela_marcacao (com_tabela self tab)) with tab in E.
    destruct (iterar (combustivel_iterar tab) (com_tabela self tab) tab 0)
      as [[t k]| |] eqn:R; try discriminate E.
    cbn [bind fst] in E. injection E as <-.
    eapply iterar_mono with (self := com_tabela self tab); eauto.
Qed.

Lemma marcacao_monotona_witness :
  marcado (tabela_marcacao parcial_min) ("f", "g") /\
  marcado (fst (passada parcial_min (tabela_marcacao parcial_min))) ("f", "g").
Proof.
  assert (H : marcado (tabela_marcacao parcial_min) ("f", "g"))
    by reflexivity.
  split; [exact H|].
  exact (proj1 (proj2 (proj2 (proj2
    (marcacao_monotona parcial_min _ ("f", "g") H))))).
Defined.

(** ** The closure phase terminates *)

Lemma nao_marcados_le tab : nao_marcados tab <= List.length tab.
Proof. apply filter_length_le. Qed.

Lemma nao_marcados_set tab p :
  In p (dict_keys tab) -> dict_get tab p <> Some true ->
  S (nao_marcados (dict_set tab p true)) = nao_marcados tab.
Proof.
  unfold nao_marcados.
  induction tab as [|[k v] r IH]; simpl; [tauto|].
  destruct (par_eqb k p) eqn:E; simpl.
  - intros _ G. destruct v; [congruence | reflexivity].
  - intros [->|I] G.
    + pose proof (eqb_refl (K := par) p) as R. simpl in R. congruence.
    + destruct v; simpl; rewrite <- (IH I G); reflexivity.
Qed.

Lemma processar_par_passo self tab b p :
  In p (dict_keys tab) ->
  dict_keys (fst (processar_par self (tab, b) p)) = dict_keys tab /\
  (processar_par self (tab, b) p = (tab, b) \/
   S (nao_marcados (fst (processar_par self (tab, b) p))) = nao_marcados tab /\
   snd (processar_par self (tab, b) p) = true).
Proof.
  intros I; unfold processar_par.
  destruct (dict_get tab p) as [[|]|] eqn:G; simpl; auto;
    destruct (procurar_simbolo self tab (fst p) (snd p) (alfabeto self));
    simpl; auto; (split; [apply dict_keys_set_in, I | right; split; auto]);
    apply nao_marcados_set; auto; congruence.
Qed.

Lemma fold_processar_par_passo self l : forall st,
  incl l (dict_keys (fst st)) ->
  dict_keys (fst (fold_left (processar_par self) l st)) = dict_keys (fst st) /\
  (fold_left (processar_par self) l st = st \/
   nao_marcados (fst (fold_left (processar_par self) l st))
     < nao_marcados (fst st) /\
   snd (fold_left (processar_par self) l st) = true).
Proof.
  induction l as [|p l IH]; intros [tab b] I; cbn [fold_left fst snd] in *;
    [auto|].
  assert (Ip : In p (dict_keys tab)) by (apply I; left; reflexivity).
  destruct (processar_par_passo self tab b p Ip) as [K S1].
  destruct (processar_par self (tab, b) p) as [t1 b1] eqn:P;
    cbn [fst snd] in *.
  destruct (IH (t1, b1)) as [K' S2].
  { cbn [fst]; rewrite K; intros x Ix; apply I; right; exact Ix. }
  cbn [fst snd] in *. split; [congruence|].
  destruct S1 as [E1|[N1 B1]], S2 as [E2|[N2 B2]].
  - left; congruence.
  - right; inversion E1; subst; auto.
  - right; rewrite E2; simpl; split; [lia | exact B1].
  - right; split; [lia | exact B2].
Qed.

Lemma passada_passo self tab :
  dict_keys (fst (passada self tab)) = dict_keys tab /\
  (passada self tab = (tab, false) \/
   nao_marcados (fst (passada self tab)) < nao_marcados tab /\
   snd (passada self tab) = true).
Proof.
  unfold passada.
  apply (fold_processar_par_passo self (dict_keys tab) (tab, false)).
  apply incl_refl.
Qed.

Lemma iterar_termina self : forall c tab n,
  nao_marcados tab < c ->
  exists tab' k,
    iterar c self tab n = Ok (tab', n + k) /\
    1 <= k <= S (nao_marcados tab) /\
    passada self tab' = (tab', false) /\
    dict_keys tab' = dict_keys tab.
Proof.
  induction c as [|c IH]; intros tab n L; [lia|]. simpl.
  destruct (passada_passo self tab) as [K [E|[N B]]].
  - rewrite E. exists tab, 1. rewrite Nat.add_1_r.
    repeat split; auto; lia.
  - destruct (passada self tab) as [t1 b1] eqn:P; simpl in *; subst b1.
    destruct (IH t1 (S n)) as (tab' & k & R & Bk & F & K'); [lia|].
    exists tab', (S k). rewrite R. replace (n + S k) with (S n + k) by lia.
    repeat split; auto; try lia. congruence.
Qed.

(** C9. The closure phase terminates: on every object state, the loop that
    repeats passes until one marks nothing new returns after at most one
    pass more than there are unmarked pairs, with the fuel the method gives
    it; the table it returns has the keys of the one it started from and is
    a fixpoint of the pass. *)
Theorem fecho_termina (self : Minimizador) :
  exists tab' k,
    iterar (combustivel_iterar (tabela_marcacao self)) self
      (tabela_marcacao self) 0 = Ok (tab', k) /\
    _marcar_pares_iterativamente self = Ok (com_tabela self tab') /\
    1 <= k <= S (nao_marcados (tabela_marcacao self)) /\
    k <= S (List.length (tabela_marcacao self)) /\
    passada self tab' = (tab', false) /\
    dict_keys tab' = dict_keys (tabela_marcacao self).
Proof.
  pose proof (nao_marcados_le (tabela_marcacao self)) as L.
  destruct (iterar_termina self (combustivel_iterar (tabela_marcacao self))
              (tabela_marcacao self) 0)
    as (tab' & k & R & Bk & F & K).
  { unfold combustivel_iterar; lia. }
  exists tab', k. change (0 + k) with k in R.
  unfold _marcar_pares_iterativamente. rewrite R.
  repeat split; auto; lia.
Qed.

(** ** The search for reachable states *)

Lemma correr_app t q w1 w2 :
  correr t q (w1 ++ w2) =
  match correr t q w1 with Some x => correr t x w2 | None => None end.
Proof.
  revert q; induction w1 as [|a w1 IH]; intros q; simpl; [reflexivity|].
  destruct (delta t q a); auto.
Qed.

Lemma alcancavel_inicial t alf q0 : alcancavel t alf q0 q0.
Proof. exists []; split; [constructor | reflexivity]. Qed.

Lemma alcancavel_passo t alf q0 x a d :
  alcancavel t alf q0 x -> In a alf -> delta t x a = Some d ->
  alcancavel t alf q0 d.
Proof.
  intros (w & F & R) I D. exists (w ++ [a]); split.
  - apply Forall_app; split; [exact F | repeat constructor; exact I].
  - rewrite correr_app, R; simpl; rewrite D; reflexivity.
Qed.

Lemma delta_destinos t e s d : delta t e s = Some d -> In d (destinos t).
Proof.
  unfold delta, destinos. destruct (dict_get t e) as [m|] eqn:G; [|discriminate].
  intros G'. apply dict_get_In in G, G'.
  apply in_map_iff; exists (s, d); split; [reflexivity|].
  apply in_concat; exists m; split; [|exact G'].
  apply in_map_iff; exists (e, m); auto.
Qed.

Lemma set_add_novo x s : ~ In x s -> set_add x s = s ++ [x].
Proof.
  intros N; unfold set_add. apply set_mem_false in N; rewrite N; reflexivity.
Qed.

Lemma visitar_spec t e simbolos : forall alc fila,
  exists novos,
    visitar t e simbolos alc fila = (alc ++ novos, fila ++ novos) /\
    (NoDup alc -> NoDup (alc ++ novos)) /\
    (forall x, In x novos ->
       exists s, In s simbolos /\ delta t e s = Some x) /\
    (forall s d, In s simbolos -> delta t e s = Some d ->
       In d (alc ++ novos)).
Proof.
  induction simbolos as [|s resto IH]; intros alc fila; simpl.
  - exists []; rewrite !app_nil_r; repeat split; auto.
    + intros x [].
    + intros s d [].
  - destruct (delta t e s) as [d|] eqn:D.
    + destruct (set_mem d alc) eqn:M.
      * destruct (IH alc fila) as (novos & E & N & O & C).
        exists novos; repeat split; auto.
        -- intros x Ix; destruct (O x Ix) as (s' & ? & ?); eauto.
        -- intros s' d' [<-|I] D'; [|eauto].
           rewrite D in D'; injection D' as <-.
           apply in_app_iff; left; apply set_mem_In, M.
      * apply set_mem_false in M. rewrite (set_add_novo _ _ M).
        destruct (IH (alc ++ [d]) (fila ++ [d])) as (novos & E & N & O & C).
        exists (d :: novos).
        rewrite E, <- !app_assoc; simpl. repeat split.
        -- intros ND. change (d :: novos) with ([d] ++ novos).
           rewrite app_assoc. apply N.
           apply NoDup_app; [exact ND | repeat constructor; simpl; tauto |].
           intros y I [<-|[]]; contradiction.
        -- intros x [<-|Ix]; [eauto|].
           destruct (O x Ix) as (s' & ? & ?); eauto.
        -- intros s' d' [<-|I] D'.
           ++ rewrite D in D'; injection D' as <-.
              apply in_app_iff; right; left; reflexivity.
           ++ specialize (C s' d' I D').
              rewrite <- app_assoc in C; exact C.
    + destruct (IH alc fila) as (novos & E & N & O & C).
      exists novos; repeat split; auto.
      * intros x Ix; destruct (O x Ix) as (s' & ? & ?); eauto.
      * intros s' d' [<-|I] D'; [congruence | eauto].
Qed.

Section Busca.
Variables (t : transicoes_t) (alf : list string) (q0 : string).

(** the invariant of the [while fila] loop *)
Definition inv_busca (alc : pyset) (fila : list string) : Prop :=
NoDup alc /\
In q0 alc /\
incl alc (q0 :: destinos t) /\
(forall x, In x alc -> alcancavel t alf q0 x) /\
(forall x, In x alc ->
   In x fila \/
   forall s d, In s alf -> delta t x s = Some d -> In d alc).

Lemma inv_busca_inicial : inv_busca [q0] [q0].
Proof.
repeat split.
- repeat constructor; simpl; tauto.
- left; reflexivity.
- intros x [<-|[]]; left; reflexivity.
- intros x [<-|[]]; apply alcancavel_inicial.
- intros x [<-|[]]; left; left; reflexivity.
Qed.

Lemma inv_busca_passo alc e fila alc' fila' :
inv_busca alc (e :: fila) ->
In e alc ->
visitar t e alf alc fila = (alc', fila') ->
inv_busca alc' fila' /\ incl alc alc' /\
List.length alc' + List.length fila = List.length alc + List.length fila'.
Proof.
intros (ND & I0 & B & R & C) Ie V.
destruct (visitar_spec t e alf alc fila) as (novos & E & N & O & D).
rewrite V in E; injection E as -> ->.
split; [|split].
- repeat split.
  + apply N, ND.
  + apply in_app_iff; left; exact I0.
  + intros x Ix; apply in_app_iff in Ix; destruct Ix as [Ix|Ix]; [auto|].
    destruct (O x Ix) as (s & _ & Ds). right; eapply delta_destinos; eauto.
  + intros x Ix; apply in_app_iff in Ix; destruct Ix as [Ix|Ix]; [auto|].
    destruct (O x Ix) as (s & Is & Ds).
    eapply alcancavel_passo; eauto.
  + intros x Ix; apply in_app_iff in Ix; destruct Ix as [Ix|Ix].
    * destruct (C x Ix) as [[<-|If]|F].
      -- right; exact D.
      -- left; apply in_app_iff; auto.
      -- right; intros s d Is Ds; apply in_app_iff; left; eauto.
    * left; apply in_app_iff; auto.
- intros x Ix; apply in_app_iff; auto.
- rewrite !length_app; lia.
Qed.

Lemma inv_busca_limite alc fila :
inv_busca alc fila -> List.length alc <= S (List.length (destinos t)).
Proof.
intros (ND & _ & B & _).
apply (NoDup_incl_length ND B).
Qed.

Lemma busca_termina : forall c alc fila,
inv_busca alc fila -> incl fila alc ->
S (List.length (destinos t)) - List.length alc + List.length fila <= c ->
exists r, busca c t alf alc fila = Ok r /\ inv_busca r [] /\ incl alc r.
Proof.
induction c as [|c IH]; intros alc fila Hinv Hf L.
- destruct fila; [|cbn [List.length] in L; lia].
  exists alc; simpl; repeat split; try apply Hinv. apply incl_refl.
- destruct fila as [|e fila].
  + exists alc; simpl; repeat split; try apply Hinv. apply incl_refl.
  + simpl. destruct (visitar t e alf alc fila) as [alc' fila'] eqn:V.
    assert (Ie : In e alc) by (apply Hf; left; reflexivity).
    destruct (inv_busca_passo _ _ _ _ _ Hinv Ie V) as (Hinv' & Sub & Len).
    pose proof (inv_busca_limite _ _ Hinv').
    pose proof (inv_busca_limite _ _ Hinv).
    destruct (visitar_spec t e alf alc fila) as (novos & E & _).
    rewrite V in E; injection E as -> ->.
    destruct (IH (alc ++ novos) (fila ++ novos) Hinv') as (r & R & Ir & Sr).
    * intros x Ix; apply in_app_iff in Ix; apply in_app_iff.
      destruct Ix as [Ix|Ix]; [left; apply Hf; right; exact Ix | auto].
    * cbn [List.length] in L. rewrite !length_app in *. lia.
    * exists r; repeat split; try apply Ir; auto.
      intros x Ix; apply Sr, Sub, Ix.
Qed.
End Busca.

Lemma fechado_correr t alf (r : pyset) :
  (forall x, In x r -> forall s d, In s alf -> delta t x s = Some d -> In d r) ->
  forall w q x,
    In q r -> Forall (fun a => In a alf) w -> correr t q w = Some x -> In x r.
Proof.
  intros C w; induction w as [|a w IH]; intros q x Iq F; simpl.
  - intros [= <-]; exact Iq.
  - inversion F; subst. destruct (delta t q a) as [d|] eqn:D; [|discriminate].
    apply IH; eauto.
Qed.

(** The search returns, and returns exactly the reachable states. *)
Lemma encontrar_estados_alcancaveis_spec (self : Minimizador) :
  exists alc,
    _encontrar_estados_alcancaveis self = Ok alc /\
    NoDup alc /\
    forall x, In x alc <->
      alcancavel (transicoes self) (alfabeto self) (estado_inicial self) x.
Proof.
  unfold _encontrar_estados_alcancaveis.
  destruct (busca_termina (transicoes self) (alfabeto self)
              (estado_inicial self) (combustivel_busca (transicoes self))
              [estado_inicial self] [estado_inicial self])
    as (r & R & (ND & I0 & B & Re & C) & Sub).
  - apply inv_busca_inicial.
  - apply incl_refl.
  - unfold combustivel_busca; simpl; lia.
  - exists r; split; [exact R|split; [exact ND|]].
    intros x; split; [apply Re|].
    intros (w & F & W). 
    eapply fechado_correr with (q := estado_inicial self); eauto.
    intros y Iy s d Is D. destruct (C y Iy) as [[]|Cy]. eauto.
Qed.

Lemma podar_transicoes_get (t : transicoes_t) :
  forall ests (novas : transicoes_t) x,
  dict_get (fold_left
     (fun (novas : transicoes_t) estado =>
        match dict_get t estado with
        | Some m => dict_set novas estado m
        | None => novas
        end) ests novas) x =
  if set_mem x ests then
    match dict_get t x with Some m => Some m | None => dict_get novas x end
  else dict_get novas x.
Proof.
  induction ests as [|e ests IH]; intros novas x; [reflexivity|].
  cbn [fold_left]. rewrite IH. unfold set_mem; cbn [existsb].
  fold (set_mem x ests).
  destruct (String.eqb_spec x e) as [->|N]; cbn [orb].
  - destruct (dict_get t e) as [m|] eqn:G.
    + rewrite dict_get_set_same. destruct (set_mem e ests); reflexivity.
    + destruct (set_mem e ests); reflexivity.
  - destruct (dict_get t e) as [m|] eqn:G; [|reflexivity].
    rewrite dict_get_set_other by congruence. reflexivity.
Qed.

Lemma delta_podar t ests x s :
  delta (podar_transicoes t ests) x s =
  if set_mem x ests then delta t x s else None.
Proof.
  unfold delta, podar_transicoes. rewrite podar_transicoes_get. simpl.
  destruct (set_mem x ests); [|reflexivity].
  destruct (dict_get t x); reflexivity.
Qed.

(** What [_remover_estados_inalcancaveis] leaves in the object. *)
Lemma remover_estados_inalcancaveis_spec (self : Minimizador) :
  exists self1,
    _remover_estados_inalcancaveis self = Ok self1 /\
    afd self1 = afd self /\
    alfabeto self1 = alfabeto self /\
    estado_inicial self1 = estado_inicial self /\
    tabela_marcacao self1 = tabela_marcacao self /\
    (forall x, In x (estados self1) <->
       In x (estados self) /\
       alcancavel (transicoes self) (alfabeto self) (estado_inicial self) x) /\
    (NoDup (estados self) -> NoDup (estados self1)) /\
    (forall x, In x (estados_finais self1) <->
       In x (estados_finais self) /\
       alcancavel (transicoes self) (alfabeto self) (estado_inicial self) x) /\
    (forall x s, delta (transicoes self1) x s =
       if set_mem x (estados self1)
       then delta (transicoes self) x s else None).
Proof.
  destruct (encontrar_estados_alcancaveis_spec self) as (alc & E & ND & A).
  unfold _remover_estados_inalcancaveis; rewrite E; cbn [bind].
  eexists; split; [reflexivity|]; cbn.
  repeat split; try tauto.
  - apply filter_In in H; tauto.
  - apply A. apply filter_In in H. apply set_mem_In; tauto.
  - intros [I R]; apply filter_In; split; [exact I|]. apply set_mem_In, A, R.
  - apply NoDup_filter.
  - apply set_inter_In in H; tauto.
  - apply A. apply set_inter_In in H; tauto.
  - intros [I R]; apply set_inter_In; split; [exact I | apply A, R].
  - intros x s; apply delta_podar.
Qed.

(** ** Scenario A *)

Lemma ordem_valida_unitario set_iter x :
  ordem_valida set_iter -> set_iter [x] = [x].
Proof.
  intros V. apply Permutation_length_1_inv, Permutation_sym, V.
Qed.

Lemma ordem_valida_id : ordem_valida ordem_id.
Proof. intros s; apply Permutation_refl. Qed.

Lemma ordem_valida_rev : ordem_valida ordem_rev.
Proof. intros s; apply Permutation_sym, Permutation_rev. Qed.

(** C2. On the automaton of scenario A, whatever the iteration order of
    sets: the table is filled over the states q0, q1, q2 only (q3 is pruned)
    and every pair is marked; the classes are the three singletons, so q0
    and q1 are not merged and q2 is alone; the minimised automaton has
    exactly the three states [{q0}], [{q1}], [{q2}], of which [{q2}] is the
    only accepting one and loops to itself on both symbols. *)
Theorem cenario_A_minimizado
  (set_iter : pyset -> list string) (Hiter : ordem_valida set_iter) :
  (exists self4,
     preencher_tabela (__init__ cenario_A) = Ok self4 /\
     estados self4 = ["q0"; "q1"; "q2"] /\
     tabela_marcacao self4 =
       [(("q0", "q1"), true); (("q0", "q2"), true); (("q1", "q2"), true)] /\
     _encontrar_classes_equivalencia self4 = [["q0"]; ["q1"]; ["q2"]]) /\
  minimizar set_iter (__init__ cenario_A) =
    Ok {| afd_estados := ["{q0}"; "{q1}"; "{q2}"];
          afd_alfabeto := ["a"; "b"];
          afd_estado_inicial := "{q0}";
          afd_estados_finais := ["{q2}"];
          afd_transicoes :=
            [("{q0}", [("a", "{q1}"); ("b", "{q0}")]);
             ("{q1}", [("a", "{q2}"); ("b", "{q0}")]);
             ("{q2}", [("a", "{q2}"); ("b", "{q2}")])] |} /\
  (forall m, minimizar set_iter (__init__ cenario_A) = Ok m ->
     List.length (afd_estados m) = 3 /\
     ~ In "{q3}" (afd_estados m) /\
     In "{q2}" (afd_estados_finais m) /\
     delta (afd_transicoes m) "{q2}" "a" = Some "{q2}" /\
     delta (afd_transicoes m) "{q2}" "b" = Some "{q2}").
Proof.
  assert (P : exists self4,
     preencher_tabela (__init__ cenario_A) = Ok self4 /\
     estados self4 = ["q0"; "q1"; "q2"] /\
     tabela_marcacao self4 =
       [(("q0", "q1"), true); (("q0", "q2"), true); (("q1", "q2"), true)] /\
     _encontrar_classes_equivalencia self4 = [["q0"]; ["q1"]; ["q2"]]).
  { eexists; split; [vm_compute; reflexivity|].
    repeat split; vm_compute; reflexivity. }
  assert (M : minimizar set_iter (__init__ cenario_A) =
    Ok {| afd_estados := ["{q0}"; "{q1}"; "{q2}"];
          afd_alfabeto := ["a"; "b"];
          afd_estado_inicial := "{q0}";
          afd_estados_finais := ["{q2}"];
          afd_transicoes :=
            [("{q0}", [("a", "{q1}"); ("b", "{q0}")]);
             ("{q1}", [("a", "{q2}"); ("b", "{q0}")]);
             ("{q2}", [("a", "{q2}"); ("b", "{q2}")])] |}).
  { unfold minimizar.
    set (r := preencher_tabela (__init__ cenario_A)). vm_compute in r. subst r.
    cbn [bind].
    set (c := _encontrar_classes_equivalencia _). vm_compute in c. subst c.
    unfold _construir_afd_minimizado, mapear_classes, nome_classe.
    cbn [fold_left map estados_finais estado_inicial transicoes alfabeto].
    rewrite !(ordem_valida_unitario set_iter _ Hiter).
    cbn. unfold representante_de, nome_classe.
    rewrite ?(ordem_valida_unitario set_iter _ Hiter).
    unfold bind; cbn. rewrite ?(ordem_valida_unitario set_iter _ Hiter).
    reflexivity. }
  split; [exact P|split; [exact M|]].
  intros m E; rewrite M in E; injection E as <-.
  split; [reflexivity|].
  split; [cbn; intros [H|[H|[H|[]]]]; discriminate|].
  split; [left; reflexivity|].
  split; reflexivity.
Qed.

Lemma cenario_A_minimizado_witness :
  ordem_valida ordem_rev /\
  minimizar ordem_rev (__init__ cenario_A) =
    Ok {| afd_estados := ["{q0}"; "{q1}"; "{q2}"];
          afd_alfabeto := ["a"; "b"];
          afd_estado_inicial := "{q0}";
          afd_estados_finais := ["{q2}"];
          afd_transicoes :=
            [("{q0}", [("a", "{q1}"); ("b", "{q0}")]);
             ("{q1}", [("a", "{q2}"); ("b", "{q0}")]);
             ("{q2}", [("a", "{q2}"); ("b", "{q2}")])] |}.
Proof.
  split; [exact ordem_valida_rev|].
  exact (proj1 (proj2 (cenario_A_minimizado ordem_rev ordem_valida_rev))).
Defined.

(** ** The partition builder *)

Lemma set_eqb_refl c : set_eqb c c = true.
Proof. apply set_eqb_true; tauto. Qed.

Lemma classes_disjuntas_eqb classes c d :
  classes_disjuntas classes -> In c classes -> In d classes ->
  set_eqb c d = true -> c = d.
Proof.
  intros (_ & NE & U) Ic Id E.
  destruct c as [|x c]; [contradiction|].
  apply (U _ _ x Ic Id); [left; reflexivity|].
  apply (proj1 (set_eqb_true _ _) E); left; reflexivity.
Qed.

Lemma list_remove_In classes c d :
  classes_disjuntas classes -> In c classes ->
  (In d (list_remove c classes) <-> In d classes /\ d <> c).
Proof.
  intros Hd Ic. revert Hd Ic.
  induction classes as [|x l IH]; intros Hd Ic; [destruct Ic|].
  assert (Hl : classes_disjuntas l).
  { destruct Hd as (ND & NE & U). inversion ND; subst.
    repeat split; auto.
    - intros I; apply NE; right; exact I.
    - intros c' d' y Ic' Id'; apply U; right; assumption. }
  cbn [list_remove]. destruct (set_eqb x c) eqn:E.
  - assert (x = c).
    { apply (classes_disjuntas_eqb (x :: l)); auto. left; reflexivity. }
    subst x. destruct Hd as (ND & _). inversion ND; subst.
    split.
    + intros I; split; [right; exact I | intros ->; contradiction].
    + intros [[->|I] N]; [contradiction | exact I].
  - assert (N : x <> c) by (intros ->; rewrite set_eqb_refl in E; discriminate).
    destruct Ic as [->|Ic]; [contradiction|].
    cbn [In]. rewrite (IH Hl Ic). split.
    + intros [->|[I D]]; auto.
    + intros [[->|I] D]; auto.
Qed.

Lemma list_remove_NoDup classes c : NoDup classes -> NoDup (list_remove c classes).
Proof.
  induction classes as [|x l IH]; intros ND; cbn [list_remove]; [exact ND|].
  inversion ND; subst. destruct (set_eqb x c); [assumption|].
  constructor; [|auto].
  intros I. assert (S : forall d, In d (list_remove c l) -> In d l).
  { clear. induction l as [|y l IH]; cbn [list_remove]; [tauto|].
    destruct (set_eqb y c); intros d; [right; assumption|].
    intros [->|I]; [left; reflexivity | right; apply IH, I]. }
  apply S in I; contradiction.
Qed.

Lemma find_snoc {A : Type} (f : A -> bool) (l : list A) (x : A) :
  find f (l ++ [x]) =
  match find f l with
  | Some y => Some y
  | None => if f x then Some x else None
  end.
Proof.
  induction l as [|y l IH]; cbn [find app]; [reflexivity|].
  destruct (f y); [reflexivity | exact IH].
Qed.

Lemma localizar_fold e1 e2 classes : forall st,
  fold_left
    (fun (st : option pyset * option pyset) classe =>
       ((if set_mem e1 classe then Some classe else fst st),
        (if set_mem e2 classe then Some classe else snd st)))
    classes st =
  (match find (set_mem e1) (rev classes) with
   | Some c => Some c | None => fst st end,
   match find (set_mem e2) (rev classes) with
   | Some c => Some c | None => snd st end).
Proof.
  induction classes as [|c l IH]; intros [a b]; cbn [fold_left rev].
  - reflexivity.
  - rewrite IH. cbn [fst snd]. rewrite !find_snoc.
    destruct (find (set_mem e1) (rev l)), (find (set_mem e2) (rev l));
      destruct (set_mem e1 c), (set_mem e2 c); reflexivity.
Qed.

Lemma localizar_spec e1 e2 classes :
  localizar e1 e2 classes =
  (find (set_mem e1) (rev classes), find (set_mem e2) (rev classes)).
Proof.
  unfold localizar. rewrite localizar_fold. cbn [fst snd].
  destruct (find (set_mem e1) (rev classes)),
    (find (set_mem e2) (rev classes)); reflexivity.
Qed.

Lemma find_rev_Some e classes c :
  find (set_mem e) (rev classes) = Some c -> In c classes /\ In e c.
Proof.
  intros F. apply find_some in F. destruct F as [I M].
  split; [apply in_rev, I | apply set_mem_In, M].
Qed.

Lemma find_rev_None e classes :
  find (set_mem e) (rev classes) = None -> forall c, In c classes -> ~ In e c.
Proof.
  intros F c I M. apply in_rev in I.
  pose proof (find_none _ _ F c I) as N.
  apply set_mem_In in M; congruence.
Qed.

Lemma mesma_classe_em classes c e x :
  classes_disjuntas classes -> In c classes -> In e c ->
  (mesma_classe classes x e <-> In x c).
Proof.
  intros (_ & _ & U) Ic Ie; split.
  - intros (d & Id & Ix & Ie'). rewrite (U c d e Ic Id Ie Ie'). exact Ix.
  - intros Ix; exists c; auto.
Qed.

Lemma mesma_classe_sym classes x y :
  mesma_classe classes x y -> mesma_classe classes y x.
Proof. intros (c & ? & ? & ?); exists c; auto. Qed.

Lemma mesma_classe_trans classes x y z :
  classes_disjuntas classes ->
  mesma_classe classes x y -> mesma_classe classes y z ->
  mesma_classe classes x z.
Proof.
  intros (_ & _ & U) (c & Ic & Ix & Iy) (d & Id & Iy' & Iz).
  rewrite <- (U c d y Ic Id Iy Iy') in Iz. exists c; auto.
Qed.

Lemma classes_disjuntas_sub classes l :
  classes_disjuntas classes -> NoDup l -> incl l classes ->
  classes_disjuntas l.
Proof.
  intros (_ & NE & U) ND S. repeat split; auto.
  intros c d x Ic Id; apply U; apply S; assumption.
Qed.

Lemma unir_par_marcado classes p : unir_par classes (p, true) = classes.
Proof. reflexivity. Qed.

Lemma unir_par_spec classes e1 e2 :
  classes_disjuntas classes ->
  classes_disjuntas (unir_par classes ((e1, e2), false)) /\
  forall x y,
    mesma_classe (unir_par classes ((e1, e2), false)) x y <->
    mesma_classe classes x y \/
    (mesma_classe classes x e1 /\ mesma_classe classes e2 y) \/
    (mesma_classe classes x e2 /\ mesma_classe classes e1 y).
Proof.
  intros Hd. unfold unir_par. cbn [fst snd]. rewrite localizar_spec.
  destruct (find (set_mem e1) (rev classes)) as [c1|] eqn:F1.
  2:{ pose proof (find_rev_None _ _ F1) as N1.
      split; [exact Hd|]. intros x y; split; [auto|].
      intros [M|[[(c & Ic & _ & Ie) _]|[_ (c & Ic & Ie & _)]]];
        [exact M | |]; destruct (N1 c Ic Ie). }
  destruct (find (set_mem e2) (rev classes)) as [c2|] eqn:F2.
  2:{ pose proof (find_rev_None _ _ F2) as N2.
      split; [exact Hd|]. intros x y; split; [auto|].
      intros [M|[[_ (c & Ic & Ie & _)]|[(c & Ic & _ & Ie) _]]];
        [exact M | |]; destruct (N2 c Ic Ie). }
  apply find_rev_Some in F1, F2.
  destruct F1 as [I1 E1], F2 as [I2 E2].
  pose proof (mesma_classe_em classes c1 e1) as Q1.
  pose proof (mesma_classe_em classes c2 e2) as Q2.
  destruct (set_eqb c1 c2) eqn:E; cbn [negb].
  - assert (c1 = c2) by (eapply classes_disjuntas_eqb; eauto). subst c2.
    split; [exact Hd|]. intros x y; split; [auto|].
    intros [M|[[A B]|[A B]]]; [exact M| |].
    + apply Q1 in A; auto. apply mesma_classe_sym, Q2 in B; auto.
      exists c1; auto.
    + apply Q2 in A; auto. apply mesma_classe_sym, Q1 in B; auto.
      exists c1; auto.
  - assert (N12 : c1 <> c2)
      by (intros ->; rewrite set_eqb_refl in E; discriminate).
    set (l1 := list_remove c1 classes).
    assert (Hl1 : classes_disjuntas l1).
    { apply (classes_disjuntas_sub classes); auto.
      - apply list_remove_NoDup, Hd.
      - intros d Id; apply (list_remove_In classes c1 d Hd I1) in Id; tauto. }
    assert (I2' : In c2 l1).
    { apply (list_remove_In classes c1 c2 Hd I1); auto. }
    assert (R : forall d, In d (list_remove c2 l1) <->
                          In d classes /\ d <> c1 /\ d <> c2).
    { intros d. rewrite (list_remove_In l1 c2 d Hl1 I2').
      unfold l1. rewrite (list_remove_In classes c1 d Hd I1). tauto. }
    assert (Iu : forall d, In d (list_remove c2 l1 ++ [set_union c1 c2]) <->
                 (In d classes /\ d <> c1 /\ d <> c2) \/ d = set_union c1 c2).
    { intros d. rewrite in_app_iff, R. cbn [In]. intuition. }
    destruct Hd as (ND & NE & U).
    assert (Hu : forall d x, In d classes -> In x d ->
                 In x (set_union c1 c2) -> d = c1 \/ d = c2).
    { intros d x Id Ix Iux. apply set_union_In in Iux.
      destruct Iux; [left | right]; eapply U; eauto. }
    split; [repeat split|].
    + apply NoDup_app; [apply list_remove_NoDup, list_remove_NoDup, ND | |].
      * repeat constructor; cbn; tauto.
      * intros d Id [<-|[]]. apply R in Id. destruct Id as (Id & D1 & D2).
        destruct (Hu _ e1 Id) as [?|?]; auto; apply set_union_In; auto.
    + intros I. apply Iu in I. destruct I as [[I _]|I]; [auto|].
      assert (In e1 (set_union c1 c2)) by (apply set_union_In; auto).
      rewrite <- I in *. contradiction.
    + intros c d x Ic Id Ixc Ixd. apply Iu in Ic, Id.
      destruct Ic as [(Ic & C1 & C2)| ->], Id as [(Id & D1 & D2)| ->].
      * eapply U; eauto.
      * destruct (Hu _ _ Ic Ixc Ixd); contradiction.
      * destruct (Hu _ _ Id Ixd Ixc); contradiction.
      * reflexivity.
    + intros x y; split.
      * intros (d & Id & Ix & Iy). apply Iu in Id.
        destruct Id as [(Id & _)| ->]; [left; exists d; auto|].
        apply set_union_In in Ix, Iy.
        destruct Ix as [Ix|Ix], Iy as [Iy|Iy].
        -- left; exists c1; auto.
        -- right; left; split; [exists c1 | exists c2]; auto.
        -- right; right; split; [exists c2 | exists c1]; auto.
        -- left; exists c2; auto.
      * assert (Q1' : forall z, mesma_classe classes z e1 <-> In z c1)
          by (intros z; apply Q1; repeat split; auto).
        assert (Q2' : forall z, mesma_classe classes z e2 <-> In z c2)
          by (intros z; apply Q2; repeat split; auto).
        intros [(d & Id & Ix & Iy)|[[A B]|[A B]]].
        -- destruct (list_eq_dec string_dec d c1) as [->|D1];
             [|destruct (list_eq_dec string_dec d c2) as [->|D2]].
           ++ exists (set_union c1 c2); rewrite Iu, !set_union_In; auto.
           ++ exists (set_union c1 c2); rewrite Iu, !set_union_In; auto.
           ++ exists d; rewrite Iu; auto.
        -- apply Q1' in A. apply mesma_classe_sym, Q2' in B.
           exists (set_union c1 c2); rewrite Iu, !set_union_In; auto.
        -- apply Q2' in A. apply mesma_classe_sym, Q1' in B.
           exists (set_union c1 c2); rewrite Iu, !set_union_In; auto.
Qed.

Lemma mesma_classe_refl_l classes x y :
  mesma_classe classes x y -> mesma_classe classes x x.
Proof. intros (c & ? & ? & ?); exists c; auto. Qed.

Lemma mesma_classe_refl_r classes x y :
  mesma_classe classes x y -> mesma_classe classes y y.
Proof. intros (c & ? & ? & ?); exists c; auto. Qed.

Lemma unir_par_refl classes e1 e2 a :
  classes_disjuntas classes ->
  (mesma_classe (unir_par classes ((e1, e2), false)) a a <->
   mesma_classe classes a a).
Proof.
  intros Hd. rewrite (proj2 (unir_par_spec classes e1 e2 Hd)). split.
  - intros [M|[[M _]|[M _]]]; eauto using mesma_classe_refl_l.
  - auto.
Qed.

Lemma fold_unir_par_spec : forall tab classes,
  classes_disjuntas classes ->
  classes_disjuntas (fold_left unir_par tab classes) /\
  forall x y,
    mesma_classe (fold_left unir_par tab classes) x y <->
    fecho_classes (mesma_classe classes) tab x y.
Proof.
  induction tab as [|[[e1 e2] m] rest IH]; intros classes Hd; cbn [fold_left].
  - split; [exact Hd|]. intros x y; split; [apply fecho_base|].
    induction 1 as [x y M|? ? []| |]; auto using mesma_classe_sym.
    eapply mesma_classe_trans; eauto.
  - destruct m.
    + rewrite unir_par_marcado. destruct (IH classes Hd) as [D E].
      split; [exact D|]. intros x y; rewrite E; split.
      * induction 1 as [x y M|a b I Ra Rb| |];
          [apply fecho_base; auto | apply fecho_par; auto; right; auto
          | apply fecho_sym; auto | eapply fecho_trans; eauto].
      * induction 1 as [x y M|a b [I|I] Ra Rb| |];
          [apply fecho_base; auto | discriminate I | apply fecho_par; auto
          | apply fecho_sym; auto | eapply fecho_trans; eauto].
    + destruct (unir_par_spec classes e1 e2 Hd) as [D1 E1].
      destruct (IH _ D1) as [D E].
      split; [exact D|]. intros x y; rewrite E; split.
      * induction 1 as [x y M|a b I Ra Rb| |].
        -- apply E1 in M. destruct M as [M|[[A B]|[A B]]].
           ++ apply fecho_base, M.
           ++ apply fecho_trans with e1; [apply fecho_base, A|].
              apply fecho_trans with e2; [|apply fecho_base, B].
              apply fecho_par; [left; reflexivity | |];
                eauto using mesma_classe_refl_l, mesma_classe_refl_r.
           ++ apply fecho_trans with e2; [apply fecho_base, A|].
              apply fecho_trans with e1; [|apply fecho_base, B].
              apply fecho_sym, fecho_par; [left; reflexivity | |];
                eauto using mesma_classe_refl_l, mesma_classe_refl_r.
        -- apply fecho_par; [right; exact I | |];
             eapply unir_par_refl; eauto.
        -- apply fecho_sym; auto.
        -- eapply fecho_trans; eauto.
      * induction 1 as [x y M|a b [I|I] Ra Rb| |].
        -- apply fecho_base, E1; auto.
        -- injection I as <- <-. apply fecho_base, E1; auto.
        -- apply fecho_par; [exact I | |]; apply unir_par_refl; auto.
        -- apply fecho_sym; auto.
        -- eapply fecho_trans; eauto.
Qed.

Lemma classes_iniciais_disjuntas ests :
  NoDup ests -> classes_disjuntas (map (fun e => [e]) ests).
Proof.
  intros ND. repeat split.
  - apply Finite.Injective_map_NoDup; [|exact ND].
    intros a b E; injection E; auto.
  - intros I; apply in_map_iff in I; destruct I as (e & E & _); discriminate.
  - intros c d x Ic Id Ixc Ixd. apply in_map_iff in Ic, Id.
    destruct Ic as (a & <- & _), Id as (b & <- & _).
    destruct Ixc as [<-|[]], Ixd as [<-|[]]; reflexivity.
Qed.

Lemma mesma_classe_inicial ests x y :
  mesma_classe (map (fun e => [e]) ests) x y <-> x = y /\ In x ests.
Proof.
  split.
  - intros (c & Ic & Ix & Iy). apply in_map_iff in Ic.
    destruct Ic as (e & <- & Ie). destruct Ix as [<-|[]], Iy as [<-|[]]; auto.
  - intros [<- I]. exists [x]; repeat split; [|left; auto|left; auto].
    apply in_map_iff; eauto.
Qed.

Lemma fecho_classes_ligados tab ests x y :
  fecho_classes (mesma_classe (map (fun e => [e]) ests)) tab x y <->
  ligados tab ests x y.
Proof.
  split.
  - induction 1 as [x y M|a b I Ra Rb| |].
    + apply mesma_classe_inicial in M. destruct M as [<- I].
      apply ligados_refl, I.
    + apply mesma_classe_inicial in Ra, Rb. apply ligados_par; tauto.
    + apply ligados_sym; auto.
    + eapply ligados_trans; eauto.
  - induction 1 as [x I|a b I Ia Ib| |].
    + apply fecho_base, mesma_classe_inicial; auto.
    + apply fecho_par; [exact I | |]; apply mesma_classe_inicial; auto.
    + apply fecho_sym; auto.
    + eapply fecho_trans; eauto.
Qed.

(** The classes are the connected components of the unmarked pairs. *)
Lemma encontrar_classes_equivalencia_spec (self : Minimizador) :
  NoDup (estados self) ->
  classes_disjuntas (_encontrar_classes_equivalencia self) /\
  forall x y,
    mesma_classe (_encontrar_classes_equivalencia self) x y <->
    ligados (tabela_marcacao self) (estados self) x y.
Proof.
  intros ND. unfold _encontrar_classes_equivalencia.
  destruct (fold_unir_par_spec (tabela_marcacao self)
              (map (fun e => [e]) (estados self))
              (classes_iniciais_disjuntas _ ND)) as [D E].
  split; [exact D|]. intros x y. rewrite E. apply fecho_classes_ligados.
Qed.

(** ** The table: its keys and its fixpoint *)

Lemma par_eqb_eq (p q : par) : par_eqb p q = true <-> p = q.
Proof. exact (eqb_eq (K := par) p q). Qed.

Lemma dict_set_keys_NoDup {V : Type} (d : dict par V) k v :
  NoDup (dict_keys d) -> NoDup (dict_keys (dict_set d k v)).
Proof.
  intros ND. destruct (in_dec eqb_dec k (dict_keys d)) as [I|N].
  - rewrite dict_keys_set_in by exact I. exact ND.
  - rewrite dict_keys_set_new by exact N. unfold dict_keys.
    rewrite map_app. apply NoDup_app; [exact ND | repeat constructor; cbn; tauto|].
    intros y Iy [<-|[]]; contradiction.
Qed.

Lemma dict_get_In_NoDup {V : Type} (d : dict par V) k v :
  NoDup (dict_keys d) -> In (k, v) d -> dict_get d k = Some v.
Proof.
  induction d as [|[k0 v0] r IH]; cbn; [tauto|].
  intros ND [E|I]; inversion ND; subst.
  - injection E as -> ->. pose proof (eqb_refl (K := par) k) as R.
    cbn in R; rewrite R; reflexivity.
  - destruct (par_eqb k0 k) eqn:E.
    + apply par_eqb_eq in E; subst k0.
      exfalso; apply H1. apply in_map_iff; exists (k, v); auto.
    + auto.
Qed.

Lemma inicializar_linha_keys ei : forall resto (tab : tabela_t) p,
  In p (dict_keys (fold_left (fun t ej => dict_set t (ei, ej) false) resto tab))
  <-> In p (dict_keys tab) \/ In p (map (pair ei) resto).
Proof.
  induction resto as [|ej resto IH]; intros tab p; cbn [fold_left map In].
  - tauto.
  - rewrite IH, dict_keys_set. intuition.
Qed.

Lemma inicializar_linha_NoDup ei : forall resto (tab : tabela_t),
  NoDup (dict_keys tab) ->
  NoDup (dict_keys (fold_left (fun t ej => dict_set t (ei, ej) false) resto tab)).
Proof.
  induction resto as [|ej resto IH]; intros tab ND; cbn [fold_left]; [exact ND|].
  apply IH, dict_set_keys_NoDup, ND.
Qed.

Lemma inicializar_linha_false ei : forall resto (tab : tabela_t),
  (forall p v, In (p, v) tab -> v = false) ->
  forall p v,
    In (p, v) (fold_left (fun t ej => dict_set t (ei, ej) false) resto tab) ->
    v = false.
Proof.
  induction resto as [|ej resto IH]; intros tab F; cbn [fold_left]; [exact F|].
  apply IH. clear IH. induction tab as [|[k0 v0] r IHr]; cbn.
  - intros p v [E|[]]; congruence.
  - destruct (par_eqb k0 (ei, ej)); intros p v [E|I].
    + congruence.
    + apply (F p v); right; exact I.
    + apply (F p v); left; exact E.
    + revert I; apply IHr. intros q w Iq; apply (F q w); right; exact Iq.
Qed.

Lemma inicializar_keys : forall ests (tab : tabela_t) p,
  In p (dict_keys (inicializar ests tab)) <->
  In p (dict_keys tab) \/ In p (pares ests).
Proof.
  induction ests as [|e r IH]; intros tab p; cbn [inicializar pares]; [cbn; tauto|].
  rewrite IH, inicializar_linha_keys, in_app_iff. tauto.
Qed.

Lemma inicializar_NoDup : forall ests (tab : tabela_t),
  NoDup (dict_keys tab) -> NoDup (dict_keys (inicializar ests tab)).
Proof.
  induction ests as [|e r IH]; intros tab ND; cbn [inicializar]; [exact ND|].
  apply IH, inicializar_linha_NoDup, ND.
Qed.

Lemma inicializar_false : forall ests (tab : tabela_t),
  (forall p v, In (p, v) tab -> v = false) ->
  forall p v, In (p, v) (inicializar ests tab) -> v = false.
Proof.
  induction ests as [|e r IH]; intros tab F; cbn [inicializar]; [exact F|].
  apply IH, inicializar_linha_false, F.
Qed.

Lemma pares_In ests x y : In (x, y) (pares ests) -> In x ests /\ In y ests.
Proof.
  induction ests as [|e r IH]; cbn [pares]; [intros []|].
  rewrite in_app_iff, in_map_iff. intros [(z & E & I)|I].
  - injection E as -> ->. split; [left | right]; auto.
  - destruct (IH I); split; right; auto.
Qed.

Lemma pares_distintos ests x y :
  NoDup ests -> In (x, y) (pares ests) -> x <> y.
Proof.
  induction ests as [|e r IH]; cbn [pares]; [intros _ []|].
  intros ND. inversion ND; subst.
  rewrite in_app_iff, in_map_iff. intros [(z & E & I)|I].
  - injection E as -> ->. intros ->; contradiction.
  - auto.
Qed.

Lemma indice_In e l : In e l -> (0 <= indice e l)%Z.
Proof.
  induction l as [|x r IH]; cbn [indice]; [intros []|].
  destruct (String.eqb_spec x e) as [->|N]; [lia|].
  intros [->|I]; [contradiction|]. specialize (IH I).
  destruct (indice e r <? 0)%Z eqn:L; lia.
Qed.

Lemma indice_nao_In e l : ~ In e l -> indice e l = (-1)%Z.
Proof.
  induction l as [|x r IH]; cbn [indice In]; [reflexivity|].
  intros N. destruct (String.eqb_spec x e) as [->|D]; [tauto|].
  rewrite IH by tauto. reflexivity.
Qed.

Lemma obter_par_ordenado_ou self d1 d2 :
  _obter_par_ordenado self d1 d2 = (d1, d2) \/
  _obter_par_ordenado self d1 d2 = (d2, d1).
Proof. unfold _obter_par_ordenado; destruct (_ <? _)%Z; auto. Qed.

Lemma par_ordenado_em_pares ests d1 d2 :
  NoDup ests -> d1 <> d2 -> In d1 ests -> In d2 ests ->
  In (if (indice d1 ests <? indice d2 ests)%Z then (d1, d2) else (d2, d1))
     (pares ests).
Proof.
  induction ests as [|e r IH]; [intros _ _ []|].
  intros ND D I1 I2. inversion ND; subst. cbn [indice pares].
  rewrite in_app_iff, in_map_iff.
  destruct (String.eqb_spec e d1) as [E1|N1];
    destruct (String.eqb_spec e d2) as [E2|N2].
  - congruence.
  - subst e. destruct I2 as [E|I2]; [congruence|].
    pose proof (indice_In _ _ I2).
    destruct (indice d2 r <? 0)%Z eqn:L; [lia|].
    destruct (0 <? indice d2 r + 1)%Z eqn:L'; [|lia]. left; eauto.
  - subst e. destruct I1 as [E|I1]; [congruence|].
    pose proof (indice_In _ _ I1).
    destruct (indice d1 r <? 0)%Z eqn:L; [lia|].
    destruct (indice d1 r + 1 <? 0)%Z eqn:L'; [lia|]. left; eauto.
  - destruct I1 as [E|I1]; [congruence|].
    destruct I2 as [E|I2]; [congruence|].
    pose proof (indice_In _ _ I1). pose proof (indice_In _ _ I2).
    destruct (indice d1 r <? 0)%Z eqn:L1; [lia|].
    destruct (indice d2 r <? 0)%Z eqn:L2; [lia|].
    specialize (IH H2 D I1 I2). right.
    destruct (indice d1 r <? indice d2 r)%Z eqn:L;
      destruct (indice d1 r + 1 <? indice d2 r + 1)%Z eqn:L'; auto; lia.
Qed.

Lemma obter_par_ordenado_em_pares self d1 d2 :
  NoDup (estados self) -> d1 <> d2 ->
  In d1 (estados self) -> In d2 (estados self) ->
  In (_obter_par_ordenado self d1 d2) (pares (estados self)).
Proof. intros; unfold _obter_par_ordenado; apply par_ordenado_em_pares; auto. Qed.

Lemma marcar_trivial_keys finais (tab : tabela_t) p :
  In p (dict_keys tab) ->
  dict_keys (marcar_trivial finais tab p) = dict_keys tab.
Proof.
  intros I; unfold marcar_trivial.
  destruct (negb _); [apply dict_keys_set_in, I | reflexivity].
Qed.

Lemma fold_marcar_trivial_keys finais l : forall (tab : tabela_t),
  incl l (dict_keys tab) ->
  dict_keys (fold_left (marcar_trivial finais) l tab) = dict_keys tab.
Proof.
  induction l as [|q l IH]; intros tab I; cbn [fold_left]; [reflexivity|].
  assert (Iq : In q (dict_keys tab)) by (apply I; left; reflexivity).
  rewrite IH; [apply marcar_trivial_keys, Iq|].
  rewrite marcar_trivial_keys by exact Iq.
  intros x Ix; apply I; right; exact Ix.
Qed.

Lemma fold_marcar_trivial_marca finais l : forall (tab : tabela_t) p,
  In p l -> um_final finais p = true ->
  marcado (fold_left (marcar_trivial finais) l tab) p.
Proof.
  induction l as [|q l IH]; intros tab p; cbn [fold_left]; [intros []|].
  intros [->|I] U; [|auto].
  apply fold_marcar_trivial_mono. unfold marcar_trivial.
  unfold um_final in U. rewrite U. apply dict_get_set_same.
Qed.

Lemma fold_marcar_trivial_origem finais l : forall (tab : tabela_t) p,
  marcado (fold_left (marcar_trivial finais) l tab) p ->
  marcado tab p \/ um_final finais p = true.
Proof.
  induction l as [|q l IH]; intros tab p; cbn [fold_left]; [auto|].
  intros M. apply IH in M. destruct M as [M|U]; [|auto].
  unfold marcar_trivial in M. fold (um_final finais q) in M.
  destruct (um_final finais q) eqn:Uq; [|auto].
  destruct (eqb_dec q p) as [->|N]; [auto|].
  unfold marcado in M. rewrite dict_get_set_other in M by exact N. auto.
Qed.

(** a pass that reports no change has left every pair as it was *)
Lemma fold_processar_par_fixo self l : forall tab b tab',
  incl l (dict_keys tab) ->
  fold_left (processar_par self) l (tab, b) = (tab', false) ->
  tab' = tab /\ b = false /\
  forall p, In p l -> processar_par self (tab, false) p = (tab, false).
Proof.
  induction l as [|q l IH]; intros tab b tab' I; cbn [fold_left].
  - intros [= <- ->]; repeat split. intros p [].
  - intros F.
    assert (Iq : In q (dict_keys tab)) by (apply I; left; reflexivity).
    destruct (processar_par_passo self tab b q Iq) as [K S1].
    destruct (processar_par self (tab, b) q) as [t1 b1] eqn:P;
      cbn [fst snd] in *.
    assert (I1 : incl l (dict_keys t1)).
    { rewrite K; intros x Ix; apply I; right; exact Ix. }
    destruct (IH t1 b1 tab' I1 F) as (-> & -> & A).
    destruct S1 as [E|[_ B]]; [|discriminate].
    injection E as E1 E2. subst tab b. repeat split.
    intros p [<-|Ip]; [exact P | apply A, Ip].
Qed.

Lemma passada_fixa self tab p a :
  passada self tab = (tab, false) ->
  In p (dict_keys tab) -> ~ marcado tab p -> In a (alfabeto self) ->
  simbolo_distingue self tab (fst p) (snd p) a = false.
Proof.
  intros F Ip NM Ia. unfold passada in F.
  destruct (fold_processar_par_fixo self (dict_keys tab) tab false tab
              (incl_refl _) F) as (_ & _ & A).
  specialize (A p Ip). unfold processar_par in A.
  destruct (dict_get tab p) as [[|]|] eqn:G; [contradiction| |];
    destruct (procurar_simbolo self tab (fst p) (snd p) (alfabeto self))
      eqn:Q; try discriminate;
    eapply procurar_simbolo_None; eauto.
Qed.

(** the closure phase reads the object only through its state list, its
    alphabet and its transitions *)
Lemma simbolo_distingue_ext self self' tab e1 e2 a :
  estados self = estados self' -> transicoes self = transicoes self' ->
  simbolo_distingue self tab e1 e2 a = simbolo_distingue self' tab e1 e2 a.
Proof.
  intros E T. unfold simbolo_distingue, _obter_par_ordenado.
  rewrite E, T. reflexivity.
Qed.

Lemma procurar_simbolo_ext self self' tab e1 e2 simbolos :
  estados self = estados self' -> transicoes self = transicoes self' ->
  procurar_simbolo self tab e1 e2 simbolos =
  procurar_simbolo self' tab e1 e2 simbolos.
Proof.
  intros E T. induction simbolos as [|s r IH]; cbn [procurar_simbolo].
  - reflexivity.
  - rewrite IH, (simbolo_distingue_ext self self') by assumption. reflexivity.
Qed.

Lemma processar_par_ext self self' st p :
  estados self = estados self' -> alfabeto self = alfabeto self' ->
  transicoes self = transicoes self' ->
  processar_par self st p = processar_par self' st p.
Proof.
  intros E A T. unfold processar_par. destruct st as [tab b].
  rewrite A, (procurar_simbolo_ext self self') by assumption. reflexivity.
Qed.

Lemma passada_ext self self' tab :
  estados self = estados self' -> alfabeto self = alfabeto self' ->
  transicoes self = transicoes self' ->
  passada self tab = passada self' tab.
Proof.
  intros E A T. unfold passada.
  generalize (tab, false). induction (dict_keys tab) as [|p l IH]; intros st.
  - reflexivity.
  - cbn [fold_left]. rewrite IH, (processar_par_ext self self') by assumption.
    reflexivity.
Qed.

(** *** Marked pairs are distinguishable *)

Lemma tabela_fundada_set self tab q :
  tabela_fundada self tab -> distinguiveis self q ->
  tabela_fundada self (dict_set tab q true).
Proof.
  intros Fu Dq p M. destruct (eqb_dec q p) as [<-|N]; [exact Dq|].
  apply Fu. unfold marcado in *.
  rewrite dict_get_set_other in M by exact N. exact M.
Qed.

Lemma marcar_trivial_fundada self tab q :
  tabela_fundada self tab ->
  tabela_fundada self (marcar_trivial (estados_finais self) tab q).
Proof.
  intros Fu. unfold marcar_trivial.
  destruct (negb _) eqn:U; [|exact Fu].
  apply tabela_fundada_set; [exact Fu|].
  exists []; split; [constructor|]. cbn.
  apply negb_true_iff, eqb_false_iff in U. exact U.
Qed.

Lemma distinguiveis_sym self e1 e2 :
  distinguiveis self (e1, e2) -> distinguiveis self (e2, e1).
Proof. intros (w & F & N); exists w; split; [exact F | cbn in *; congruence]. Qed.

Lemma processar_par_fundada self tab b q :
  tabela_fundada self tab ->
  tabela_fundada self (fst (processar_par self (tab, b) q)).
Proof.
  intros Fu. unfold processar_par.
  assert (Q : forall a,
    procurar_simbolo self tab (fst q) (snd q) (alfabeto self) = Some a ->
    tabela_fundada self (dict_set tab q true)).
  { intros a Pa. apply procurar_simbolo_Some in Pa. destruct Pa as [Ia Sd].
    apply simbolo_distingue_definidas in Sd.
    destruct Sd as (d1 & d2 & D1 & D2 & _ & M).
    apply tabela_fundada_set; [exact Fu|].
    assert (Dd : distinguiveis self (d1, d2)).
    { destruct (obter_par_ordenado_ou self d1 d2) as [E|E];
        rewrite E in M; [|apply distinguiveis_sym]; apply Fu, M. }
    destruct Dd as (w & Fw & N). exists (a :: w); split.
    - constructor; assumption.
    - unfold aceita in *. cbn [correr fst snd] in *. rewrite D1, D2. exact N. }
  destruct (dict_get tab q) as [[|]|]; cbn [fst]; try exact Fu;
    destruct (procurar_simbolo self tab (fst q) (snd q) (alfabeto self))
      eqn:Pa; cbn [fst]; eauto.
Qed.

Lemma fold_marcar_trivial_fundada self l : forall tab,
  tabela_fundada self tab ->
  tabela_fundada self (fold_left (marcar_trivial (estados_finais self)) l tab).
Proof.
  induction l as [|q l IH]; intros tab Fu; cbn [fold_left]; [exact Fu|].
  apply IH, marcar_trivial_fundada, Fu.
Qed.

Lemma fold_processar_par_fundada self l : forall st,
  tabela_fundada self (fst st) ->
  tabela_fundada self (fst (fold_left (processar_par self) l st)).
Proof.
  induction l as [|q l IH]; intros [tab b] Fu; cbn [fold_left]; [exact Fu|].
  apply IH, processar_par_fundada, Fu.
Qed.

Lemma iterar_fundada self : forall c tab n tab' n',
  iterar c self tab n = Ok (tab', n') ->
  tabela_fundada self tab -> tabela_fundada self tab'.
Proof.
  induction c as [|c IH]; intros tab n tab' n'; cbn [iterar]; [discriminate|].
  destruct (passada self tab) as [t1 b] eqn:P. intros R Fu.
  assert (F1 : tabela_fundada self t1).
  { change t1 with (fst (t1, b)). rewrite <- P.
    apply fold_processar_par_fundada, Fu. }
  destruct b; [eapply IH; eauto|]. injection R as <- _. exact F1.
Qed.

Lemma tabela_fundada_false self tab :
  (forall p v, In (p, v) tab -> v = false) -> tabela_fundada self tab.
Proof.
  intros F p M. apply dict_get_In in M. apply F in M. discriminate.
Qed.

(** The table work of [minimizar]: it never runs out of fuel, it fails only
    when no listed state is reachable (the table printer then raises), and
    otherwise it ends with the pruned object and a final table. *)
Lemma preencher_tabela_spec (self : Minimizador) :
  tabela_marcacao self = [] ->
  exists self1,
    _remover_estados_inalcancaveis self = Ok self1 /\
    ((estados self1 = [] /\ preencher_tabela self = Erro ValueError) \/
     (estados self1 <> [] /\
      exists tab,
        preencher_tabela self = Ok (com_tabela self1 tab) /\
        tabela_final (com_tabela self1 tab) /\
        tabela_fundada (com_tabela self1 tab) tab)).
Proof.
  intros T0.
  destruct (remover_estados_inalcancaveis_spec self)
    as (self1 & R & _ & _ & _ & T1 & _).
  exists self1; split; [exact R|].
  unfold preencher_tabela. rewrite R. cbn [bind].
  destruct (estados self1) as [|e0 ests0] eqn:Es.
  - left; split; [reflexivity|]. unfold exibir_tabela_marcacao.
    cbn. rewrite Es. reflexivity.
  - right; split; [discriminate|].
    set (self3 := _marcar_pares_triviais (_inicializar_tabela self1)).
    assert (X3 : exibir_tabela_marcacao self3 = Ok tt).
    { unfold exibir_tabela_marcacao. cbn. rewrite Es. reflexivity. }
    rewrite X3. cbn [bind].
    destruct (fecho_termina self3) as (tab & k & It & M & _ & _ & F & K).
    rewrite M. cbn [bind].
    assert (X4 : exibir_tabela_marcacao (com_tabela self3 tab) = Ok tt).
    { unfold exibir_tabela_marcacao. cbn. rewrite Es. reflexivity. }
    rewrite X4. cbn [bind].
    exists tab. split; [reflexivity|].
    set (tab0 := inicializar (estados self1) (tabela_marcacao self1)).
    assert (K0 : forall p, In p (dict_keys tab0) <-> In p (pares (estados self1))).
    { intros p. unfold tab0. rewrite inicializar_keys, T1, T0. cbn. tauto. }
    assert (N0 : NoDup (dict_keys tab0)).
    { apply inicializar_NoDup. rewrite T1, T0. constructor. }
    assert (K3 : dict_keys (tabela_marcacao self3) = dict_keys tab0).
    { apply fold_marcar_trivial_keys, incl_refl. }
    split.
    + unfold tabela_final.
      cbn [tabela_marcacao com_tabela estados estados_finais].
      rewrite K, K3. repeat split; auto; try apply K0.
      * intros p Ip U. eapply iterar_mono; [exact It|].
        apply fold_marcar_trivial_marca; assumption.
      * rewrite <- F. apply passada_ext; reflexivity.
    + assert (F3 : tabela_fundada self3 tab).
      { eapply iterar_fundada; [exact It|].
        apply (fold_marcar_trivial_fundada self3).
        apply tabela_fundada_false, inicializar_false.
        rewrite T1, T0. intros p v []. }
      exact F3.
Qed.

(** ** Unmarked pairs and the language of the states *)

Lemma nao_marcado_mesmo_resultado (self : Minimizador) :
  NoDup (estados self) -> tabela_final self -> fechado self ->
  forall w, Forall (fun s => In s (alfabeto self)) w ->
  forall e1 e2 f1 f2,
    In (e1, e2) (dict_keys (tabela_marcacao self)) ->
    ~ marcado (tabela_marcacao self) (e1, e2) ->
    correr (transicoes self) e1 w = Some f1 ->
    correr (transicoes self) e2 w = Some f2 ->
    set_mem f1 (estados_finais self) = set_mem f2 (estados_finais self).
Proof.
  intros ND (NK & K & Tr & Fx) Cl.
  induction w as [|a w IH]; intros Fw e1 e2 f1 f2 Ik NM R1 R2.
  - cbn in R1, R2. injection R1 as <-. injection R2 as <-.
    destruct (um_final (estados_finais self) (e1, e2)) eqn:U.
    + destruct (NM (Tr _ Ik U)).
    + unfold um_final in U. cbn [fst snd] in U.
      apply negb_false_iff, Bool.eqb_prop in U. exact U.
  - inversion Fw as [|? ? Ia Fw']; subst. cbn [correr] in R1, R2.
    destruct (delta (transicoes self) e1 a) as [d1|] eqn:D1; [|discriminate].
    destruct (delta (transicoes self) e2 a) as [d2|] eqn:D2; [|discriminate].
    destruct (string_dec d1 d2) as [->|N]; [congruence|].
    pose proof (passada_fixa self _ (e1, e2) a Fx Ik NM Ia) as SD.
    unfold simbolo_distingue in SD. cbn [fst snd] in SD.
    rewrite D1, D2 in SD.
    rewrite (proj2 (String.eqb_neq d1 d2) N) in SD. cbn [negb] in SD.
    destruct (pares_In _ _ _ (proj1 (K _) Ik)) as [I1 I2].
    pose proof (Cl _ _ _ I1 Ia D1) as Id1.
    pose proof (Cl _ _ _ I2 Ia D2) as Id2.
    pose proof (obter_par_ordenado_em_pares self d1 d2 ND N Id1 Id2) as Ip.
    apply K in Ip.
    assert (NMd : ~ marcado (tabela_marcacao self) (_obter_par_ordenado self d1 d2)).
    { unfold marcado. intros G. rewrite G in SD. discriminate. }
    destruct (obter_par_ordenado_ou self d1 d2) as [E|E]; rewrite E in *.
    + eapply IH; eauto.
    + symmetry. eapply IH; eauto.
Qed.

(** What [minimizar] holds when the table work is over, in terms of the
    automaton it was given. *)
Lemma preencher_tabela_init (a : AFD) (self4 : Minimizador) :
  preencher_tabela (__init__ a) = Ok self4 ->
  tabela_final self4 /\
  alfabeto self4 = afd_alfabeto a /\
  estado_inicial self4 = afd_estado_inicial a /\
  estados self4 <> [] /\
  (forall x, In x (estados self4) <->
     In x (afd_estados a) /\
     alcancavel (afd_transicoes a) (afd_alfabeto a) (afd_estado_inicial a) x) /\
  (NoDup (afd_estados a) -> NoDup (estados self4)) /\
  (forall x, In x (estados_finais self4) <->
     In x (afd_estados_finais a) /\
     alcancavel (afd_transicoes a) (afd_alfabeto a) (afd_estado_inicial a) x) /\
  (forall x s, delta (transicoes self4) x s =
     if set_mem x (estados self4)
     then delta (afd_transicoes a) x s else None).
Proof.
  intros P.
  destruct (preencher_tabela_spec (__init__ a) eq_refl) as (self1 & R & Cases).
  destruct (remover_estados_inalcancaveis_spec (__init__ a))
    as (self1' & R' & _ & A & Q & _ & E & N & F & D).
  rewrite R in R'. injection R' as <-.
  destruct Cases as [[_ X]|[NE (tab & X & TF & TS)]]; rewrite X in P;
    [discriminate|]. injection P as <-.
  cbn [com_tabela alfabeto estado_inicial estados estados_finais transicoes].
  split; [exact TF|]. split; [exact A|]. split; [exact Q|].
  split; [exact NE|]. split; [exact E|]. split; [exact N|].
  split; [|exact D].
  intros x; rewrite F. cbn [__init__ estados_finais transicoes alfabeto
                            estado_inicial].
  rewrite set_of_list_In. apply iff_refl.
Qed.

Lemma preencher_tabela_sucesso (a : AFD) :
  In (afd_estado_inicial a) (afd_estados a) ->
  exists self4, preencher_tabela (__init__ a) = Ok self4.
Proof.
  intros I0.
  destruct (preencher_tabela_spec (__init__ a) eq_refl) as (self1 & R & Cases).
  destruct (remover_estados_inalcancaveis_spec (__init__ a))
    as (self1' & R' & _ & _ & _ & _ & E & _).
  rewrite R in R'. injection R' as <-.
  destruct Cases as [[Es _]|[_ (tab & X & _)]]; [|eauto].
  assert (I : In (afd_estado_inicial a) (estados self1)).
  { apply E. split; [exact I0 | apply alcancavel_inicial]. }
  rewrite Es in I. destruct I.
Qed.

Lemma poda_fechada (a : AFD) (self4 : Minimizador) :
  destinos_listados a -> preencher_tabela (__init__ a) = Ok self4 ->
  fechado self4.
Proof.
  intros H P. destruct (preencher_tabela_init a self4 P)
    as (_ & A & _ & _ & E & _ & _ & D).
  intros x s d Ix Is Dx. rewrite A in Is. rewrite D in Dx.
  rewrite (proj2 (set_mem_In _ _) Ix) in Dx.
  apply E in Ix. destruct Ix as [_ Rx].
  apply E. split; [eapply H; eauto | eapply alcancavel_passo; eauto].
Qed.

Lemma completo_destinos_listados a : completo a -> destinos_listados a.
Proof.
  intros C x s d R I D. destruct (C x s R I) as (d' & D' & Id). congruence.
Qed.

Lemma correr_poda (a : AFD) (self4 : Minimizador) :
  completo a -> preencher_tabela (__init__ a) = Ok self4 ->
  forall w, Forall (fun s => In s (afd_alfabeto a)) w ->
  forall x, In x (estados self4) ->
  exists f,
    correr (transicoes self4) x w = Some f /\
    correr (afd_transicoes a) x w = Some f /\
    In f (estados self4).
Proof.
  intros C P. destruct (preencher_tabela_init a self4 P)
    as (_ & A & _ & _ & E & _ & _ & D).
  induction w as [|s w IH]; intros Fw x Ix.
  - exists x; cbn; auto.
  - inversion Fw as [|? ? Is Fw']; subst. cbn [correr].
    rewrite D, (proj2 (set_mem_In _ _) Ix).
    pose proof (proj1 (E x) Ix) as [_ Rx].
    destruct (C x s Rx Is) as (d & Dd & Id). rewrite Dd.
    apply IH; [exact Fw'|].
    apply E; split; [exact Id | eapply alcancavel_passo; eauto].
Qed.

Lemma completo_b_correto a : completo_b a = true -> completo a.
Proof.
  unfold completo_b.
  destruct (encontrar_estados_alcancaveis_spec (__init__ a)) as (alc & E & _ & A).
  rewrite E. intros B x s R Is.
  rewrite forallb_forall in B. apply A in R. specialize (B x R).
  rewrite forallb_forall in B. specialize (B s Is).
  destruct (delta (afd_transicoes a) x s) as [d|]; [|discriminate].
  exists d; split; [reflexivity | apply set_mem_In, B].
Qed.

Lemma destinos_listados_b_correto a :
  destinos_listados_b a = true -> destinos_listados a.
Proof.
  unfold destinos_listados_b.
  destruct (encontrar_estados_alcancaveis_spec (__init__ a)) as (alc & E & _ & A).
  rewrite E. intros B x s d R Is D.
  rewrite forallb_forall in B. apply A in R. specialize (B x R).
  rewrite forallb_forall in B. specialize (B s Is).
  cbn [__init__ transicoes] in D. rewrite D in B. apply set_mem_In, B.
Qed.

Ltac nodup_concreto :=
  repeat (constructor; [cbn; intuition discriminate|]); constructor.

(** ** Classes of the final table *)

Lemma preencher_tabela_fundada (a : AFD) (self4 : Minimizador) :
  preencher_tabela (__init__ a) = Ok self4 ->
  tabela_fundada self4 (tabela_marcacao self4).
Proof.
  intros P.
  destruct (preencher_tabela_spec (__init__ a) eq_refl) as (self1 & R & Cases).
  destruct Cases as [[_ X]|[NE (tab & X & TF & TS)]]; rewrite X in P;
    [discriminate|]. injection P as <-. exact TS.
Qed.

Lemma aceita_poda (a : AFD) (self4 : Minimizador) :
  completo a -> preencher_tabela (__init__ a) = Ok self4 ->
  forall w x, Forall (fun s => In s (afd_alfabeto a)) w ->
  In x (estados self4) ->
  aceita (transicoes self4) (estados_finais self4) x w =
  aceita (afd_transicoes a) (set_of_list (afd_estados_finais a)) x w.
Proof.
  intros C P w x Fw Ix.
  destruct (correr_poda a self4 C P w Fw x Ix) as (f & R & R' & If).
  pose proof (preencher_tabela_init a self4 P)
    as (_ & _ & _ & _ & E & _ & F & _).
  unfold aceita. rewrite R, R'.
  apply E in If. destruct If as [_ Rf].
  destruct (set_mem f (estados_finais self4)) eqn:M; symmetry.
  - apply set_mem_In in M. apply F in M. destruct M as [M _].
    apply set_mem_In. apply set_of_list_In. exact M.
  - apply set_mem_false. apply set_mem_false in M.
    intros I. apply M. apply F.
    split; [rewrite set_of_list_In in I; exact I | exact Rf].
Qed.

Lemma marcado_nao_equivalente (a : AFD) (self4 : Minimizador) e1 e2 :
  completo a -> preencher_tabela (__init__ a) = Ok self4 ->
  In (e1, e2) (dict_keys (tabela_marcacao self4)) ->
  marcado (tabela_marcacao self4) (e1, e2) -> ~ equivalentes a e1 e2.
Proof.
  intros C P Ik M Eq.
  pose proof (preencher_tabela_init a self4 P) as (TF & A & _).
  destruct (pares_In _ _ _ (proj1 (proj1 (proj2 TF) _) Ik)) as [I1 I2].
  destruct (preencher_tabela_fundada a self4 P _ M) as (w & Fw & N).
  rewrite A in Fw. cbn [fst snd] in N.
  rewrite !(aceita_poda a self4 C P w) in N by assumption.
  apply N, Eq, Fw.
Qed.

Lemma ligados_estados tab ests x y :
  ligados tab ests x y -> In x ests /\ In y ests.
Proof. induction 1; tauto. Qed.

Lemma nao_marcado_item (tab : tabela_t) p :
  NoDup (dict_keys tab) ->
  (In (p, false) tab <-> In p (dict_keys tab) /\ ~ marcado tab p).
Proof.
  intros ND; split.
  - intros I. pose proof (dict_get_In_NoDup tab p false ND I) as G.
    split; [eapply dict_get_Some_key; eauto | unfold marcado; congruence].
  - intros [Ik NM]. destruct (dict_in_keys _ _ Ik) as ([|] & G).
    + contradiction.
    + apply dict_get_In, G.
Qed.

Lemma completo_nao_marcados_equivalentes (a : AFD) :
  NoDup (afd_estados a) -> completo a -> nao_marcados_equivalentes a.
Proof.
  intros Hnd Hc self4 e1 e2 P Ik NM w Fw.
  pose proof (preencher_tabela_init a self4 P)
    as (TF & A & _ & _ & _ & ND & _).
  pose proof (poda_fechada a self4 (completo_destinos_listados a Hc) P) as Cl.
  destruct (pares_In _ _ _ (proj1 (proj1 (proj2 TF) _) Ik)) as [I1 I2].
  rewrite <- !(aceita_poda a self4 Hc P w) by assumption.
  destruct (correr_poda a self4 Hc P w Fw e1 I1) as (f1 & R1 & _).
  destruct (correr_poda a self4 Hc P w Fw e2 I2) as (f2 & R2 & _).
  unfold aceita. rewrite R1, R2.
  assert (Fw4 : Forall (fun s => In s (alfabeto self4)) w)
    by (rewrite A; exact Fw).
  exact (nao_marcado_mesmo_resultado self4 (ND Hnd) TF Cl w Fw4
           e1 e2 f1 f2 Ik NM R1 R2).
Qed.

(** C1, amended. On an automaton with distinct states that is complete
    (every reachable state has, for every symbol, a move to a listed
    state), the states of a pair that the final table leaves unmarked accept
    the same words; the table has such a pair for any two distinct listed
    reachable states, and it is produced whenever the start state is
    listed. *)
Theorem nao_marcados_equivalentes_se_completo
  (a : AFD) (Hnd : NoDup (afd_estados a)) (Hc : completo a) :
  nao_marcados_equivalentes a /\
  (forall self4 e1 e2,
     preencher_tabela (__init__ a) = Ok self4 ->
     e1 <> e2 ->
     In e1 (afd_estados a) -> In e2 (afd_estados a) ->
     alcancavel (afd_transicoes a) (afd_alfabeto a) (afd_estado_inicial a) e1 ->
     alcancavel (afd_transicoes a) (afd_alfabeto a) (afd_estado_inicial a) e2 ->
     In (_obter_par_ordenado self4 e1 e2) (dict_keys (tabela_marcacao self4)) /\
     (~ marcado (tabela_marcacao self4) (_obter_par_ordenado self4 e1 e2) ->
      equivalentes a e1 e2)) /\
  (In (afd_estado_inicial a) (afd_estados a) ->
   exists self4, preencher_tabela (__init__ a) = Ok self4).
Proof.
  pose proof (completo_nao_marcados_equivalentes a Hnd Hc) as Main.
  split; [exact Main|split].
  - intros self4 e1 e2 P N I1 I2 R1 R2.
    pose proof (preencher_tabela_init a self4 P)
      as (TF & _ & _ & _ & E & ND & _).
    assert (Ik : In (_obter_par_ordenado self4 e1 e2)
                   (dict_keys (tabela_marcacao self4))).
    { apply (proj1 (proj2 TF)).
      apply obter_par_ordenado_em_pares; auto; apply E; auto. }
    split; [exact Ik|]. intros NM.
    destruct (obter_par_ordenado_ou self4 e1 e2) as [Q|Q]; rewrite Q in *.
    + eapply Main; eauto.
    + intros w Fw. symmetry. eapply Main; eauto.
  - apply preencher_tabela_sucesso.
Qed.

Lemma nao_marcados_equivalentes_se_completo_witness :
  NoDup (afd_estados afd_ciclo) /\ completo afd_ciclo /\
  equivalentes afd_ciclo "A" "B".
Proof.
  assert (Hnd : NoDup (afd_estados afd_ciclo)) by nodup_concreto.
  assert (Hc : completo afd_ciclo)
    by (apply completo_b_correto; vm_compute; reflexivity).
  split; [exact Hnd|split; [exact Hc|]].
  destruct (preencher_tabela (__init__ afd_ciclo)) as [self4| |] eqn:P;
    try (vm_compute in P; discriminate P).
  apply (proj1 (nao_marcados_equivalentes_se_completo afd_ciclo Hnd Hc)
           self4 "A" "B" P);
    vm_compute in P; injection P as <-.
  - left; reflexivity.
  - discriminate.
Defined.

(** C1 as worded fails on a partial automaton: [("p", "q")] stays unmarked
    although the word [a] is accepted from [p] and not from [q]. *)
Lemma nao_marcados_equivalentes_contra :
  ~ nao_marcados_equivalentes afd_parcial.
Proof.
  intros H.
  destruct (preencher_tabela (__init__ afd_parcial)) as [self4| |] eqn:P;
    try (vm_compute in P; discriminate P).
  assert (E : equivalentes afd_parcial "p" "q").
  { apply (H self4 "p" "q" P); vm_compute in P; injection P as <-.
    - left; reflexivity.
    - discriminate. }
  specialize (E ["a"]). vm_compute in E.
  assert (F : Forall (fun s => In s ["a"; "b"]) ["a"])
    by (repeat constructor).
  specialize (E F). discriminate E.
Qed.

(** C5, amended. On an automaton with distinct states, the partition
    builder puts two states in one class exactly when a chain of unmarked
    pairs of the final table links them; the classes are non-empty, disjoint
    and cover the listed reachable states; the two states of an unmarked
    pair are always in one class.  When the automaton is moreover complete,
    two states of a pair of the table are in one class exactly when the pair
    is unmarked. *)
Theorem classes_da_tabela_final (a : AFD) (Hnd : NoDup (afd_estados a)) :
  (forall self4,
     preencher_tabela (__init__ a) = Ok self4 ->
     classes_disjuntas (_encontrar_classes_equivalencia self4) /\
     (forall x, mesma_classe (_encontrar_classes_equivalencia self4) x x <->
                In x (estados self4)) /\
     (forall x y,
        mesma_classe (_encontrar_classes_equivalencia self4) x y <->
        ligados (tabela_marcacao self4) (estados self4) x y) /\
     (forall e1 e2,
        In (e1, e2) (dict_keys (tabela_marcacao self4)) ->
        ~ marcado (tabela_marcacao self4) (e1, e2) ->
        mesma_classe (_encontrar_classes_equivalencia self4) e1 e2)) /\
  (completo a -> particao_exata a).
Proof.
  assert (G : forall self4,
     preencher_tabela (__init__ a) = Ok self4 ->
     classes_disjuntas (_encontrar_classes_equivalencia self4) /\
     (forall x, mesma_classe (_encontrar_classes_equivalencia self4) x x <->
                In x (estados self4)) /\
     (forall x y,
        mesma_classe (_encontrar_classes_equivalencia self4) x y <->
        ligados (tabela_marcacao self4) (estados self4) x y) /\
     (forall e1 e2,
        In (e1, e2) (dict_keys (tabela_marcacao self4)) ->
        ~ marcado (tabela_marcacao self4) (e1, e2) ->
        mesma_classe (_encontrar_classes_equivalencia self4) e1 e2)).
  { intros self4 P.
    pose proof (preencher_tabela_init a self4 P)
      as ((NK & K & _) & _ & _ & _ & _ & ND & _).
    destruct (encontrar_classes_equivalencia_spec self4 (ND Hnd)) as [D L].
    split; [exact D|split; [|split; [exact L|]]].
    - intros x; rewrite L; split.
      + intros H; apply (ligados_estados _ _ _ _ H).
      + apply ligados_refl.
    - intros e1 e2 Ik NM. apply L.
      destruct (pares_In _ _ _ (proj1 (K _) Ik)) as [I1 I2].
      apply ligados_par; auto. apply nao_marcado_item; auto. }
  split; [exact G|].
  intros Hc self4 e1 e2 P Ik.
  destruct (G self4 P) as (_ & _ & L & U).
  pose proof (preencher_tabela_init a self4 P) as ((NK & _) & _).
  split; [|apply U, Ik].
  intros M NM. apply L in M.
  assert (Eq : equivalentes a e1 e2).
  { clear Ik NM. induction M as [x I|x y I Ix Iy|x y M IH|x y z M1 IH1 M2 IH2].
    - intros w _; reflexivity.
    - apply nao_marcado_item in I; [|exact NK]. destruct I as [Ik NM].
      apply (completo_nao_marcados_equivalentes a Hnd Hc self4 x y P Ik NM).
    - intros w Fw; symmetry; apply IH, Fw.
    - intros w Fw; rewrite (IH1 w Fw); apply IH2, Fw. }
  eapply marcado_nao_equivalente; eauto.
Qed.

Lemma classes_da_tabela_final_witness :
  NoDup (afd_estados afd_ciclo) /\ completo afd_ciclo /\
  particao_exata afd_ciclo.
Proof.
  assert (Hnd : NoDup (afd_estados afd_ciclo)) by nodup_concreto.
  assert (Hc : completo afd_ciclo)
    by (apply completo_b_correto; vm_compute; reflexivity).
  split; [exact Hnd|split; [exact Hc|]].
  exact (proj2 (classes_da_tabela_final afd_ciclo Hnd) Hc).
Defined.

Lemma mesma_classe_b_correto classes x y :
  mesma_classe_b classes x y = true <-> mesma_classe classes x y.
Proof.
  unfold mesma_classe_b, mesma_classe. rewrite existsb_exists.
  split; intros (c & I & M); exists c; split; auto.
  - apply andb_true_iff in M. rewrite !set_mem_In in M. exact M.
  - apply andb_true_iff. rewrite !set_mem_In. exact M.
Qed.

Lemma preencher_tabela_parcial :
  preencher_tabela (__init__ afd_parcial) = Ok parcial_final.
Proof. vm_compute. reflexivity. Qed.

(** C5 as worded fails on a partial automaton: [p] and [r] end in one class
    (through [q], which is unmarked against both) although the pair
    [("p", "r")] is marked. *)
Lemma particao_exata_contra : ~ particao_exata afd_parcial.
Proof.
  intros H.
  assert (Ik : In ("p", "r") (dict_keys (tabela_marcacao parcial_final)))
    by (vm_compute; tauto).
  assert (M : marcado (tabela_marcacao parcial_final) ("p", "r"))
    by (vm_compute; reflexivity).
  assert (S : mesma_classe (_encontrar_classes_equivalencia parcial_final)
                "p" "r")
    by (apply mesma_classe_b_correto; vm_compute; reflexivity).
  exact (proj1 (H parcial_final "p" "r" preencher_tabela_parcial Ik) S M).
Qed.

(** ** The classes cover the states, whatever the state list *)

Lemma list_remove_incl c l d : In d (list_remove c l) -> In d l.
Proof.
  induction l as [|y l IH]; cbn [list_remove]; [tauto|].
  destruct (set_eqb y c); intros I; [right; exact I|].
  destruct I as [->|I]; [left; reflexivity | right; apply IH, I].
Qed.

Lemma list_remove_resto c l d :
  In d l -> In d (list_remove c l) \/ set_eqb d c = true.
Proof.
  induction l as [|y l IH]; cbn [list_remove]; [intros []|].
  destruct (set_eqb y c) eqn:E; intros [->|I]; auto.
  - left; left; reflexivity.
  - destruct (IH I); [left; right; assumption | right; assumption].
Qed.

Lemma unir_par_cobrem ests classes item :
  classes_cobrem ests classes -> classes_cobrem ests (unir_par classes item).
Proof.
  intros [Co Su]. destruct item as [[e1 e2] m]. unfold unir_par.
  destruct m; [split; assumption|]. cbn [fst snd]. rewrite localizar_spec.
  destruct (find (set_mem e1) (rev classes)) as [c1|] eqn:F1;
    [|split; assumption].
  destruct (find (set_mem e2) (rev classes)) as [c2|] eqn:F2;
    [|split; assumption].
  destruct (set_eqb c1 c2) eqn:E; cbn [negb]; [split; assumption|].
  apply find_rev_Some in F1, F2. destruct F1 as [I1 E1], F2 as [I2 E2].
  split.
  - intros x Ix. destruct (Co x Ix) as (c & Ic & Ixc).
    destruct (list_remove_resto c1 classes c Ic) as [R1|Q1].
    + destruct (list_remove_resto c2 _ c R1) as [R2|Q2].
      * exists c; split; [apply in_app_iff; left; exact R2 | exact Ixc].
      * exists (set_union c1 c2); split;
          [apply in_app_iff; right; left; reflexivity|].
        apply set_union_In; right.
        apply (proj1 (set_eqb_true _ _) Q2), Ixc.
    + exists (set_union c1 c2); split;
        [apply in_app_iff; right; left; reflexivity|].
      apply set_union_In; left.
      apply (proj1 (set_eqb_true _ _) Q1), Ixc.
  - intros c Ic. apply in_app_iff in Ic. destruct Ic as [Ic|[<-|[]]].
    + apply Su. eapply list_remove_incl, list_remove_incl, Ic.
    + split.
      * intros Z. assert (I : In e1 (set_union c1 c2))
          by (apply set_union_In; auto).
        rewrite Z in I; destruct I.
      * intros x Ix. apply set_union_In in Ix.
        destruct Ix; [apply (Su c1) | apply (Su c2)]; assumption.
Qed.

Lemma encontrar_classes_cobrem (self : Minimizador) :
  classes_cobrem (estados self) (_encontrar_classes_equivalencia self).
Proof.
  unfold _encontrar_classes_equivalencia.
  assert (C0 : classes_cobrem (estados self)
                 (map (fun e => [e]) (estados self))).
  { split.
    - intros x Ix; exists [x]; split; [|left; reflexivity].
      apply in_map_iff; eauto.
    - intros c Ic. apply in_map_iff in Ic. destruct Ic as (e & <- & Ie).
      split; [discriminate|]. intros x [<-|[]]; exact Ie. }
  revert C0. generalize (map (fun e => [e]) (estados self)).
  induction (tabela_marcacao self) as [|item tab IH]; intros classes C;
    cbn [fold_left]; [exact C|].
  apply IH, unir_par_cobrem, C.
Qed.

(** ** The reducer *)

Lemma dict_set_In {K V : Type} `{EqBLegal K} (d : dict K V) k v k' v' :
  In (k', v') (dict_set d k v) -> In (k', v') d \/ (k', v') = (k, v).
Proof.
  induction d as [|[k0 v0] r IH]; cbn [dict_set].
  - intros [E|[]]; right; congruence.
  - destruct (eqb k0 k) eqn:E.
    + apply eqb_eq in E; subst k0. intros [Q|I].
      * right; congruence.
      * left; right; exact I.
    + intros [Q|I]; [left; left; exact Q|].
      destruct (IH I); [left; right; assumption | right; assumption].
Qed.

Section ReducerFacts.
Variable set_iter : pyset -> list string.
Hypothesis Hiter : ordem_valida set_iter.

Lemma set_iter_In c x : In x (set_iter c) <-> In x c.
Proof.
split; apply Permutation_in; [apply Hiter | apply Permutation_sym, Hiter].
Qed.

Lemma set_iter_mem c x : set_mem x (set_iter c) = set_mem x c.
Proof.
destruct (set_mem x c) eqn:M.
- apply set_mem_In, set_iter_In, set_mem_In, M.
- apply set_mem_false. rewrite set_iter_In. apply set_mem_false, M.
Qed.

Lemma set_iter_NoDup c : NoDup c -> NoDup (set_iter c).
Proof.
intros ND. eapply Permutation_NoDup; [apply Permutation_sym, Hiter | exact ND].
Qed.

Lemma mapear_linha_get (n : string) : forall l (d : dict string string) x,
dict_get (fold_left (fun d' estado => dict_set d' estado n) l d) x =
if set_mem x l then Some n else dict_get d x.
Proof.
induction l as [|e l IH]; intros d x; cbn [fold_left]; [reflexivity|].
rewrite IH. unfold set_mem; cbn [existsb]. fold (set_mem x l).
destruct (set_mem x l); [rewrite orb_true_r; reflexivity|].
rewrite orb_false_r. destruct (String.eqb_spec x e) as [->|N].
- apply dict_get_set_same.
- apply dict_get_set_other; congruence.
Qed.

Lemma mapear_classes_fold : forall classes (d : dict string string) x,
dict_get
  (fold_left
     (fun d classe =>
        fold_left
          (fun d' estado => dict_set d' estado (nome_classe set_iter classe))
          (set_iter classe) d)
     classes d) x =
match find (set_mem x) (rev classes) with
| Some c => Some (nome_classe set_iter c)
| None => dict_get d x
end.
Proof.
induction classes as [|c l IH]; intros d x; cbn [fold_left rev];
  [reflexivity|].
rewrite IH, find_snoc.
destruct (find (set_mem x) (rev l)); [reflexivity|].
rewrite mapear_linha_get, set_iter_mem.
destruct (set_mem x c); reflexivity.
Qed.

(** [estado_para_classe] maps a state to the name of the last class that
  holds it *)
Lemma mapear_classes_get classes x :
dict_get (mapear_classes set_iter classes) x =
match find (set_mem x) (rev classes) with
| Some c => Some (nome_classe set_iter c)
| None => None
end.
Proof. unfold mapear_classes. rewrite mapear_classes_fold. reflexivity. Qed.

Lemma mapear_classes_Some classes x n :
dict_get (mapear_classes set_iter classes) x = Some n ->
exists c, In c classes /\ In x c /\ n = nome_classe set_iter c.
Proof.
rewrite mapear_classes_get.
destruct (find (set_mem x) (rev classes)) as [c|] eqn:F; [|discriminate].
intros [= <-]. apply find_rev_Some in F. exists c; tauto.
Qed.

Lemma mapear_classes_None classes x :
dict_get (mapear_classes set_iter classes) x = None <->
forall c, In c classes -> ~ In x c.
Proof.
rewrite mapear_classes_get.
destruct (find (set_mem x) (rev classes)) as [c|] eqn:F.
- apply find_rev_Some in F. split; [discriminate|].
  intros N; destruct (N c); tauto.
- split; [intros _; apply find_rev_None, F | reflexivity].
Qed.

Lemma mapear_classes_nome classes x n :
dict_get (mapear_classes set_iter classes) x = Some n ->
In n (map (nome_classe set_iter) classes).
Proof.
intros G. apply mapear_classes_Some in G. destruct G as (c & I & _ & ->).
apply in_map, I.
Qed.

Lemma mapear_classes_disjuntas classes c x :
classes_disjuntas classes -> In c classes -> In x c ->
dict_get (mapear_classes set_iter classes) x = Some (nome_classe set_iter c).
Proof.
intros (_ & _ & U) Ic Ix.
destruct (dict_get (mapear_classes set_iter classes) x) as [n|] eqn:G.
- apply mapear_classes_Some in G. destruct G as (c' & Ic' & Ix' & ->).
  rewrite (U c c' x Ic Ic' Ix Ix'). reflexivity.
- destruct (proj1 (mapear_classes_None _ _) G c Ic Ix).
Qed.
End ReducerFacts.

Section ReducerLoops.
Variable set_iter : pyset -> list string.

Lemma coletar_finais_spec (d : dict string string) : forall l acc,
  (exists s,
     coletar_finais d l acc = Ok s /\
     (forall ef, In ef l -> dict_get d ef <> None) /\
     (forall n, In n s <->
        In n acc \/ exists ef, In ef l /\ dict_get d ef = Some n) /\
     (NoDup acc -> NoDup s)) \/
  (exists k,
     coletar_finais d l acc = Erro (KeyError k) /\
     In k l /\ dict_get d k = None).
Proof.
  induction l as [|ef l IH]; intros acc; cbn [coletar_finais].
  - left; exists acc. split; [reflexivity|]. split; [intros ef []|].
    split; [|auto]. intros n; split; [auto|].
    intros [I|(ef & [] & _)]; exact I.
  - unfold dict_index. destruct (dict_get d ef) as [n|] eqn:G; cbn [bind].
    + destruct (IH (set_add n acc)) as [(s & E & A & B & C)|(k & E & I & N)].
      * left; exists s; split; [exact E|split; [|split]].
        -- intros x [<-|I]; [congruence | apply A, I].
        -- intros m; rewrite B, set_add_In. split.
           ++ intros [[->|I]|(x & I & Gx)].
              ** right; exists ef; split; [left; reflexivity | exact G].
              ** left; exact I.
              ** right; exists x; split; [right; exact I | exact Gx].
           ++ intros [I|(x & [<-|I] & Gx)].
              ** left; right; exact I.
              ** left; left; congruence.
              ** right; exists x; split; assumption.
        -- intros ND; apply C, set_add_NoDup, ND.
      * right; exists k; split; [exact E|split; [right; exact I | exact N]].
    + right; exists ef; split; [reflexivity|split; [left; reflexivity|exact G]].
Qed.

Lemma transicoes_classe_valores (t : transicoes_t) (d : dict string string)
  (r : string) : forall simbolos linha linha',
  transicoes_classe t d r simbolos linha = Ok linha' ->
  forall s v, In (s, v) linha' ->
    In (s, v) linha \/ exists dest, dict_get d dest = Some v.
Proof.
  induction simbolos as [|a simbolos IH]; intros linha linha';
    cbn [transicoes_classe].
  - intros [= <-]; auto.
  - destruct (delta t r a) as [dest|]; [|apply IH].
    unfold dict_index. destruct (dict_get d dest) as [n|] eqn:G;
      cbn [bind]; [|discriminate].
    intros E s v I. destruct (IH _ _ E s v I) as [J|J]; [|auto].
    apply dict_set_In in J. destruct J as [J|J]; [auto|].
    injection J as -> ->. eauto.
Qed.

Lemma transicoes_classe_sucesso (t : transicoes_t) (d : dict string string)
  (r : string) : forall simbolos linha,
  (forall s dest, In s simbolos -> delta t r s = Some dest ->
     dict_get d dest <> None) ->
  exists linha', transicoes_classe t d r simbolos linha = Ok linha'.
Proof.
  induction simbolos as [|a simbolos IH]; intros linha A;
    cbn [transicoes_classe]; [eauto|].
  assert (A' : forall s dest, In s simbolos -> delta t r s = Some dest ->
                 dict_get d dest <> None)
    by (intros s dest I; apply A; right; exact I).
  destruct (delta t r a) as [dest|] eqn:D; [|apply IH, A'].
  unfold dict_index. destruct (dict_get d dest) as [n|] eqn:G; cbn [bind].
  - apply IH, A'.
  - destruct (A a dest (or_introl eq_refl) D G).
Qed.

(** the line of a class is the same for two representatives, two maps of
    states to names and two transition maps that agree symbol by symbol *)
Lemma transicoes_classe_ext (t1 t2 : transicoes_t)
  (d1 d2 : dict string string) (r1 r2 : string) : forall simbolos linha,
  (forall s, In s simbolos ->
     (delta t1 r1 s = None /\ delta t2 r2 s = None) \/
     (exists dest1 dest2 n,
        delta t1 r1 s = Some dest1 /\ delta t2 r2 s = Some dest2 /\
        dict_get d1 dest1 = Some n /\ dict_get d2 dest2 = Some n)) ->
  transicoes_classe t1 d1 r1 simbolos linha =
  transicoes_classe t2 d2 r2 simbolos linha.
Proof.
  induction simbolos as [|a simbolos IH]; intros linha A;
    cbn [transicoes_classe]; [reflexivity|].
  assert (A' : forall s, In s simbolos ->
     (delta t1 r1 s = None /\ delta t2 r2 s = None) \/
     (exists dest1 dest2 n,
        delta t1 r1 s = Some dest1 /\ delta t2 r2 s = Some dest2 /\
        dict_get d1 dest1 = Some n /\ dict_get d2 dest2 = Some n))
    by (intros s I; apply A; right; exact I).
  destruct (A a (or_introl eq_refl))
    as [[-> ->]|(dest1 & dest2 & n & -> & -> & G1 & G2)].
  - apply IH, A'.
  - unfold dict_index. rewrite G1, G2. cbn [bind]. apply IH, A'.
Qed.

Lemma novas_transicoes_de_spec (t : transicoes_t) (alf : list string)
  (d : dict string string) : forall classes novas novas',
  novas_transicoes_de set_iter t alf d classes novas = Ok novas' ->
  dict_keys novas' =
    dict_keys (fold_left
      (fun (n : transicoes_t) c => dict_set n (nome_classe set_iter c) [])
      classes novas) /\
  forall origem linha, In (origem, linha) novas' ->
    In (origem, linha) novas \/
    (In origem (map (nome_classe set_iter) classes) /\
     forall s v, In (s, v) linha -> exists dest, dict_get d dest = Some v).
Proof.
  induction classes as [|c classes IH]; intros novas novas';
    cbn [novas_transicoes_de fold_left map].
  - intros [= <-]; auto.
  - unfold representante_de. destruct (set_iter c) as [|r rest];
      cbn [bind]; [discriminate|].
    destruct (transicoes_classe t d r alf []) as [linha| |] eqn:L;
      cbn [bind]; try discriminate.
    intros E. destruct (IH _ _ E) as [K V]. split.
    + rewrite K. clear. 
      set (n := nome_classe set_iter c).
      assert (Q : forall (a b : transicoes_t), dict_keys a = dict_keys b ->
        dict_keys (fold_left
          (fun (n : transicoes_t) c => dict_set n (nome_classe set_iter c) [])
          classes a) =
        dict_keys (fold_left
          (fun (n : transicoes_t) c => dict_set n (nome_classe set_iter c) [])
          classes b)).
      { induction classes as [|c' classes IH]; intros a b E; cbn [fold_left];
          [exact E|].
        apply IH. clear IH. revert b E.
        induction a as [|[k v] a IHa]; intros [|[k' v'] b] E;
          try discriminate E; cbn [dict_set]; [reflexivity|].
        cbn in E. injection E as -> E.
        destruct (eqb k' (nome_classe set_iter c')); cbn; f_equal; auto.
        apply IHa, E. }
      apply Q. clear Q. induction novas as [|[k v] a IHa]; cbn [dict_set].
      * reflexivity.
      * destruct (eqb k n); cbn; f_equal; auto.
    + intros origem linha' I. destruct (V _ _ I) as [J|[J W]].
      * apply dict_set_In in J. destruct J as [J|J]; [auto|].
        injection J as -> ->. right; split; [left; reflexivity|].
        intros s v Iv.
        destruct (transicoes_classe_valores _ _ _ _ _ _ L s v Iv) as [[]|X].
        exact X.
      * right; split; [right; exact J | exact W].
Qed.

Lemma novas_transicoes_de_sucesso (t : transicoes_t) (alf : list string)
  (d : dict string string) : forall classes novas,
  (forall c, In c classes ->
     exists r, representante_de set_iter c = Ok r /\
       forall s dest, In s alf -> delta t r s = Some dest ->
         dict_get d dest <> None) ->
  exists novas', novas_transicoes_de set_iter t alf d classes novas = Ok novas'.
Proof.
  induction classes as [|c classes IH]; intros novas A;
    cbn [novas_transicoes_de]; [eauto|].
  destruct (A c (or_introl eq_refl)) as (r & R & B). rewrite R. cbn [bind].
  destruct (transicoes_classe_sucesso t d r alf [] B) as (linha & L).
  rewrite L. cbn [bind]. apply IH. intros c' I; apply A; right; exact I.
Qed.
End ReducerLoops.

Section ReducerResults.
Variable set_iter : pyset -> list string.
Hypothesis Hiter : ordem_valida set_iter.

Lemma construir_bem_formado (self : Minimizador) classes m :
  _construir_afd_minimizado set_iter self classes = Ok m -> bem_formado m.
Proof.
  unfold _construir_afd_minimizado.
  set (d := mapear_classes set_iter classes).
  unfold dict_index at 1.
  destruct (dict_get d (estado_inicial self)) as [n0|] eqn:G0;
    cbn [bind]; [|discriminate].
  destruct (coletar_finais_spec d (set_iter (estados_finais self)) [])
    as [(s & E & _ & B & _)|(k & E & _)]; rewrite E; cbn [bind];
    [|discriminate].
  destruct (novas_transicoes_de set_iter (transicoes self) (alfabeto self) d
              classes []) as [novas| |] eqn:N; cbn [bind]; try discriminate.
  intros [= <-]. unfold bem_formado.
  cbn [afd_estados afd_estado_inicial afd_estados_finais afd_transicoes].
  split; [eapply mapear_classes_nome; eauto|split].
  - intros n I. apply (proj1 (set_iter_In set_iter Hiter _ _)) in I.
    apply (proj1 (B n)) in I.
    destruct I as [[]|(ef & _ & G)]. eapply mapear_classes_nome; eauto.
  - intros origem linha I.
    destruct (proj2 (novas_transicoes_de_spec _ _ _ _ _ _ _ N) _ _ I)
      as [[]|[J V]].
    split; [exact J|]. intros a v Iv. destruct (V a v Iv) as (dest & G).
    eapply mapear_classes_nome; eauto.
Qed.

Lemma representante_de_em (c : pyset) :
  c <> [] -> exists r, representante_de set_iter c = Ok r /\ In r c.
Proof.
  intros NE. unfold representante_de.
  destruct (set_iter c) as [|r rest] eqn:S.
  - destruct c as [|x c]; [contradiction|].
    assert (I : In x (set_iter (x :: c)))
      by (apply (proj2 (set_iter_In set_iter Hiter _ _)); left; reflexivity).
    rewrite S in I; destruct I.
  - exists r; split; [reflexivity|].
    apply (proj1 (set_iter_In set_iter Hiter _ _)).
    rewrite S; left; reflexivity.
Qed.

Lemma construir_sucesso (self : Minimizador) classes :
  classes_cobrem (estados self) classes ->
  In (estado_inicial self) (estados self) ->
  incl (estados_finais self) (estados self) ->
  fechado self ->
  exists m, _construir_afd_minimizado set_iter self classes = Ok m.
Proof.
  intros [Co Su] I0 IF Cl. unfold _construir_afd_minimizado.
  set (d := mapear_classes set_iter classes).
  assert (Def : forall x, In x (estados self) -> dict_get d x <> None).
  { intros x Ix G. destruct (Co x Ix) as (c & Ic & Ixc).
    apply (proj1 (mapear_classes_None set_iter Hiter classes x) G c Ic Ixc). }
  unfold dict_index at 1.
  destruct (dict_get d (estado_inicial self)) as [n0|] eqn:G0;
    [|destruct (Def _ I0 G0)].
  cbn [bind].
  destruct (coletar_finais_spec d (set_iter (estados_finais self)) [])
    as [(s & E & _)|(k & E & Ik & G)].
  2:{ apply (proj1 (set_iter_In set_iter Hiter _ _)) in Ik.
      destruct (Def k (IF k Ik) G). }
  rewrite E; cbn [bind].
  destruct (novas_transicoes_de_sucesso set_iter (transicoes self)
              (alfabeto self) d classes []) as (novas & N).
  { intros c Ic. destruct (Su c Ic) as [NE Sub].
    destruct (representante_de_em c NE) as (r & R & Ir).
    exists r; split; [exact R|]. intros a dest Ia D.
    apply Def. apply (Cl r a dest); auto. }
  rewrite N; cbn [bind]. eauto.
Qed.

Lemma alcancavel_listado (a : AFD) x :
  In (afd_estado_inicial a) (afd_estados a) -> destinos_listados a ->
  alcancavel (afd_transicoes a) (afd_alfabeto a) (afd_estado_inicial a) x ->
  In x (afd_estados a).
Proof.
  intros I0 Hd (w & Fw & R). revert x Fw R.
  induction w as [|s w IH] using rev_ind; intros x Fw R.
  - cbn in R. injection R as <-. exact I0.
  - apply Forall_app in Fw. destruct Fw as [Fw Fs].
    inversion Fs as [|? ? Is _]; subst.
    rewrite correr_app in R.
    destruct (correr (afd_transicoes a) (afd_estado_inicial a) w) as [y|] eqn:Y;
      [|discriminate].
    cbn [correr] in R.
    destruct (delta (afd_transicoes a) y s) as [d|] eqn:D; [|discriminate].
    injection R as <-. apply (Hd y s d); auto. exists w; auto.
Qed.

(** With a listed start state and listed destinations, [minimizar]
    returns an automaton, whatever the accepting list holds. *)
Lemma minimizar_sucesso (a : AFD) :
  In (afd_estado_inicial a) (afd_estados a) -> destinos_listados a ->
  exists m, minimizar set_iter (__init__ a) = Ok m.
Proof.
  intros I0 Hd. destruct (preencher_tabela_sucesso a I0) as (self4 & P).
  unfold minimizar. rewrite P. cbn [bind].
  pose proof (preencher_tabela_init a self4 P)
    as (_ & _ & Q & _ & E & _ & F & _).
  apply construir_sucesso.
  - apply encontrar_classes_cobrem.
  - rewrite Q. apply (proj2 (E _)).
    split; [exact I0 | apply alcancavel_inicial].
  - intros ef I. apply (proj1 (F _)) in I. destruct I as [_ R].
    apply (proj2 (E _)). split; [|exact R].
    apply alcancavel_listado; assumption.
  - eapply poda_fechada; eauto.
Qed.

Lemma minimizar_bem_formado (a : AFD) m :
  minimizar set_iter (__init__ a) = Ok m -> bem_formado m.
Proof.
  unfold minimizar.
  destruct (preencher_tabela (__init__ a)) as [self4| |]; cbn [bind];
    try discriminate.
  apply construir_bem_formado.
Qed.

(** Without a listed start state, [minimizar] fails, and only once the
    table work is over (or has been stopped by the table printer). *)
Lemma minimizar_inicial_nao_listado (a : AFD) :
  ~ In (afd_estado_inicial a) (afd_estados a) ->
  (preencher_tabela (__init__ a) = Erro ValueError /\
   minimizar set_iter (__init__ a) = Erro ValueError) \/
  (exists self4,
     preencher_tabela (__init__ a) = Ok self4 /\
     minimizar set_iter (__init__ a) = Erro (KeyError (afd_estado_inicial a))).
Proof.
  intros N0. unfold minimizar.
  destruct (preencher_tabela_spec (__init__ a) eq_refl) as (self1 & R & Cases).
  destruct Cases as [[_ X]|[_ (tab & X & _)]].
  - left. rewrite X. split; reflexivity.
  - right. exists (com_tabela self1 tab). split; [exact X|].
    rewrite X. cbn [bind].
    pose proof (preencher_tabela_init a _ X) as (_ & _ & Q & _ & E & _).
    unfold _construir_afd_minimizado, dict_index.
    rewrite Q.
    rewrite (proj2 (mapear_classes_None set_iter Hiter _ _)); [reflexivity|].
    intros c Ic Ix.
    destruct (encontrar_classes_cobrem (com_tabela self1 tab)) as [_ Su].
    apply (proj2 (Su c Ic)) in Ix. apply (proj1 (E _)) in Ix. tauto.
Qed.
End ReducerResults.

(** ** Well-formed output, malformed input *)

(** C10. For every automaton in which the destinations of the reachable
    states are listed, and every iteration order of sets, an automaton that
    [minimizar] returns is well formed: its start state and its accepting
    states are among its states, and so are every source and every
    destination of its transition map.  It does return one when the start
    state is listed. *)
Theorem minimizado_bem_formado
  (set_iter : pyset -> list string) (Hiter : ordem_valida set_iter)
  (a : AFD) (Hd : destinos_listados a) :
  (forall m, minimizar set_iter (__init__ a) = Ok m -> bem_formado m) /\
  (In (afd_estado_inicial a) (afd_estados a) ->
   exists m, minimizar set_iter (__init__ a) = Ok m).
Proof.
  split.
  - intros m. apply minimizar_bem_formado, Hiter.
  - intros I0. apply minimizar_sucesso; assumption.
Qed.

Lemma minimizado_bem_formado_witness :
  ordem_valida ordem_rev /\ destinos_listados cenario_A /\
  ((forall m, minimizar ordem_rev (__init__ cenario_A) = Ok m -> bem_formado m) /\
   (In (afd_estado_inicial cenario_A) (afd_estados cenario_A) ->
    exists m, minimizar ordem_rev (__init__ cenario_A) = Ok m)).
Proof.
  assert (Hd : destinos_listados cenario_A)
    by (apply destinos_listados_b_correto; vm_compute; reflexivity).
  split; [exact ordem_valida_rev|split; [exact Hd|]].
  exact (minimizado_bem_formado ordem_rev ordem_valida_rev cenario_A Hd).
Defined.

(** C6, amended. Construction checks nothing: it copies the state list,
    the start state and the accepting list as they are, and cannot fail.
    When the start state is not in the state list, [minimizar] fails, but
    only after the search for reachable states and the table work: with the
    [ValueError] of the table printer when no listed state is reachable, and
    otherwise with a [KeyError] for the start state in the reducer.  The
    accepting list is never checked: with a listed start state and listed
    destinations, [minimizar] returns an automaton whatever the accepting
    list holds. *)
Theorem entrada_malformada
  (set_iter : pyset -> list string) (Hiter : ordem_valida set_iter)
  (a : AFD) :
  (estados (__init__ a) = afd_estados a /\
   estado_inicial (__init__ a) = afd_estado_inicial a /\
   estados_finais (__init__ a) = set_of_list (afd_estados_finais a)) /\
  (~ In (afd_estado_inicial a) (afd_estados a) ->
   (preencher_tabela (__init__ a) = Erro ValueError /\
    minimizar set_iter (__init__ a) = Erro ValueError) \/
   (exists self4,
      preencher_tabela (__init__ a) = Ok self4 /\
      minimizar set_iter (__init__ a) =
        Erro (KeyError (afd_estado_inicial a)))) /\
  (In (afd_estado_inicial a) (afd_estados a) -> destinos_listados a ->
   exists m, minimizar set_iter (__init__ a) = Ok m).
Proof.
  split; [repeat split|split].
  - apply minimizar_inicial_nao_listado, Hiter.
  - apply minimizar_sucesso, Hiter.
Qed.

Lemma entrada_malformada_witness :
  ordem_valida ordem_id /\
  (preencher_tabela (__init__ afd_inicial_fora) = Erro ValueError /\
   minimizar ordem_id (__init__ afd_inicial_fora) = Erro ValueError \/
   exists self4,
     preencher_tabela (__init__ afd_inicial_fora) = Ok self4 /\
     minimizar ordem_id (__init__ afd_inicial_fora) = Erro (KeyError "s")).
Proof.
  split; [exact ordem_valida_id|].
  apply (proj1 (proj2
    (entrada_malformada ordem_id ordem_valida_id afd_inicial_fora))).
  cbn. intros [H|[]]; discriminate H.
Defined.

(** C6 as worded fails: an accepting list that names an unlisted state is
    accepted and minimised. *)
Lemma rejeita_malformado_contra :
  ~ rejeita_malformado ordem_id afd_final_extra.
Proof.
  intros H. destruct H as (e & E).
  - right. intros I. specialize (I "zz" (or_intror (or_introl eq_refl))).
    cbn in I. destruct I as [I|[]]; discriminate I.
  - vm_compute in E. discriminate E.
Qed.

(** ** [sorted] does not depend on the order it reads its argument in *)

Lemma leb_trans (x y z : string) :
  String.leb x y = true -> String.leb y z = true -> String.leb x z = true.
Proof.
  unfold String.leb. intros H1 H2.
  destruct (String.compare x y) eqn:C1;
    [apply String.compare_eq_iff in C1; subst; exact H2 | | discriminate].
  destruct (String.compare y z) eqn:C2;
    [apply String.compare_eq_iff in C2; subst; rewrite C1; reflexivity
    | | discriminate].
  assert (L : String.compare x z = Lt).
  { pose proof String_as_OT.lt_strorder as [_ T]. apply (T x y z C1 C2). }
  rewrite L; reflexivity.
Qed.

Lemma inserir_Permutation x l : Permutation (x :: l) (inserir x l).
Proof.
  induction l as [|y l IH]; cbn [inserir]; [apply Permutation_refl|].
  destruct (String.leb x y); [apply Permutation_refl|].
  eapply Permutation_trans; [apply perm_swap|]. apply perm_skip, IH.
Qed.

Lemma inserir_ordenada x l : ordenada l -> ordenada (inserir x l).
Proof.
  unfold ordenada. induction l as [|y l IH]; intros S; cbn [inserir].
  - repeat constructor.
  - apply StronglySorted_inv in S. destruct S as [S F].
    destruct (String.leb x y) eqn:L.
    + constructor; [constructor; assumption|].
      constructor; [exact L|].
      eapply Forall_impl; [|exact F]. intros z Lz; eapply leb_trans; eauto.
    + constructor; [apply IH, S|].
      assert (Lyx : String.leb y x = true)
        by (destruct (String.leb_total x y); congruence).
      eapply Permutation_Forall; [apply inserir_Permutation|].
      constructor; assumption.
Qed.

Lemma sorted_Permutation l : Permutation l (sorted l).
Proof.
  induction l as [|x l IH]; cbn; [constructor|].
  eapply Permutation_trans; [apply perm_skip, IH | apply inserir_Permutation].
Qed.

Lemma sorted_ordenada l : ordenada (sorted l).
Proof.
  induction l as [|x l IH]; cbn; [constructor | apply inserir_ordenada, IH].
Qed.

Lemma ordenada_unica l1 : forall l2,
  ordenada l1 -> ordenada l2 -> Permutation l1 l2 -> l1 = l2.
Proof.
  unfold ordenada. induction l1 as [|a r1 IH]; intros l2 S1 S2 P.
  - apply Permutation_nil in P; subst; reflexivity.
  - destruct l2 as [|b r2];
      [apply Permutation_sym, Permutation_nil in P; discriminate|].
    apply StronglySorted_inv in S1, S2.
    destruct S1 as [S1 F1], S2 as [S2 F2].
    assert (a = b).
    { assert (Ia : In a (b :: r2))
        by (eapply Permutation_in; [exact P | left; reflexivity]).
      assert (Ib : In b (a :: r1))
        by (eapply Permutation_in;
            [apply Permutation_sym, P | left; reflexivity]).
      rewrite Forall_forall in F1, F2.
      destruct Ia as [->|Ia]; [reflexivity|].
      destruct Ib as [->|Ib]; [reflexivity|].
      apply String.leb_antisym; auto. }
    subst b. f_equal. apply IH; auto.
    eapply Permutation_cons_inv; eauto.
Qed.

Lemma sorted_perm l1 l2 : Permutation l1 l2 -> sorted l1 = sorted l2.
Proof.
  intros P. apply ordenada_unica; try apply sorted_ordenada.
  eapply Permutation_trans; [apply Permutation_sym, sorted_Permutation|].
  eapply Permutation_trans; [exact P | apply sorted_Permutation].
Qed.

Lemma nome_classe_ordem it1 it2 c :
  ordem_valida it1 -> ordem_valida it2 ->
  nome_classe it1 c = nome_classe it2 c.
Proof.
  intros H1 H2. unfold nome_classe. f_equal. f_equal. f_equal.
  apply sorted_perm.
  eapply Permutation_trans; [apply H1 | apply Permutation_sym, H2].
Qed.

(** ** The post-condition of the reducer on complete automata *)

Lemma poda_completa (a : AFD) (self4 : Minimizador) :
  completo a -> preencher_tabela (__init__ a) = Ok self4 ->
  forall x s, In x (estados self4) -> In s (alfabeto self4) ->
  exists d, delta (transicoes self4) x s = Some d /\ In d (estados self4).
Proof.
  intros C P x s Ix Is.
  pose proof (preencher_tabela_init a self4 P)
    as (_ & A & _ & _ & E & _ & _ & D).
  rewrite A in Is. pose proof (proj1 (E x) Ix) as [_ Rx].
  destruct (C x s Rx Is) as (d & Dd & Id).
  exists d. rewrite D, (proj2 (set_mem_In _ _) Ix). split; [exact Dd|].
  apply (proj2 (E d)). split; [exact Id | eapply alcancavel_passo; eauto].
Qed.

(** On a complete automaton with distinct states, the members of a class
    move into one class on every symbol. *)
Lemma classes_consistentes (a : AFD) (self4 : Minimizador) :
  NoDup (afd_estados a) -> completo a ->
  preencher_tabela (__init__ a) = Ok self4 ->
  consistente self4 (_encontrar_classes_equivalencia self4).
Proof.
  intros Hnd Hc P.
  pose proof (preencher_tabela_init a self4 P)
    as ((NK & K & Tr & Fx) & _ & _ & _ & _ & ND & _).
  specialize (ND Hnd).
  destruct (encontrar_classes_equivalencia_spec self4 ND) as [Dj L].
  pose proof (poda_completa a self4 Hc P) as Tot.
  set (classes := _encontrar_classes_equivalencia self4) in *.
  assert (Refl : forall d, In d (estados self4) -> mesma_classe classes d d).
  { intros d Id. apply L, ligados_refl, Id. }
  assert (Lig : forall x y,
    ligados (tabela_marcacao self4) (estados self4) x y ->
    forall s d d', In s (alfabeto self4) ->
      delta (transicoes self4) x s = Some d ->
      delta (transicoes self4) y s = Some d' ->
      mesma_classe classes d d').
  { induction 1 as [x Ix|e1 e2 I I1 I2|x y M IH|x y z M1 IH1 M2 IH2];
      intros s d d' Is D1 D2.
    - assert (d = d') by congruence. subst d'.
      destruct (Tot x s Ix Is) as (d0 & D0 & Id). apply Refl. congruence.
    - destruct (Tot e1 s I1 Is) as (d0 & D0 & Id).
      destruct (Tot e2 s I2 Is) as (d0' & D0' & Id').
      assert (d0 = d) by congruence. assert (d0' = d') by congruence.
      subst d0 d0'.
      destruct (string_dec d d') as [->|N]; [apply Refl, Id'|].
      apply nao_marcado_item in I; [|exact NK]. destruct I as [Ik NM].
      pose proof (passada_fixa self4 _ (e1, e2) s Fx Ik NM Is) as SD.
      unfold simbolo_distingue in SD. cbn [fst snd] in SD.
      rewrite D1, D2 in SD.
      rewrite (proj2 (String.eqb_neq d d') N) in SD. cbn [negb] in SD.
      pose proof (obter_par_ordenado_em_pares self4 d d' ND N Id Id') as Ip.
      apply K in Ip.
      assert (NMd : ~ marcado (tabela_marcacao self4)
                      (_obter_par_ordenado self4 d d')).
      { unfold marcado. intros G. rewrite G in SD. discriminate. }
      assert (Ld : ligados (tabela_marcacao self4) (estados self4)
                     (fst (_obter_par_ordenado self4 d d'))
                     (snd (_obter_par_ordenado self4 d d'))).
      { destruct (_obter_par_ordenado self4 d d') as [u v] eqn:Q.
        cbn [fst snd]. destruct (pares_In _ _ _ (proj1 (K _) Ip)).
        apply ligados_par; auto. apply nao_marcado_item; auto. }
      apply L.
      destruct (obter_par_ordenado_ou self4 d d') as [Q|Q]; rewrite Q in Ld;
        cbn [fst snd] in Ld; [exact Ld | apply ligados_sym, Ld].
    - apply mesma_classe_sym. eapply IH; eauto.
    - destruct (ligados_estados _ _ _ _ M1) as [_ Iy].
      destruct (Tot y s Iy Is) as (dy & Dy & _).
      eapply mesma_classe_trans; [exact Dj | eapply IH1 | eapply IH2]; eauto. }
  intros c r r' s d d' Ic Ir Ir' Is D1 D2.
  apply (Lig r r') with (s := s); auto. apply L. exists c; auto.
Qed.

(** ** The reducer looks at one representative per class *)

Section ReducerRepresentante.
Variable set_iter : pyset -> list string.

Lemma transicoes_classe_mesmo_delta (t1 t2 : transicoes_t)
  (d : dict string string) (r : string) : forall simbolos linha,
  (forall s, In s simbolos -> delta t1 r s = delta t2 r s) ->
  transicoes_classe t1 d r simbolos linha =
  transicoes_classe t2 d r simbolos linha.
Proof.
  induction simbolos as [|a simbolos IH]; intros linha A;
    cbn [transicoes_classe]; [reflexivity|].
  rewrite <- (A a (or_introl eq_refl)).
  assert (A' : forall s, In s simbolos -> delta t1 r s = delta t2 r s)
    by (intros s I; apply A; right; exact I).
  destruct (delta t1 r a) as [dest|]; [|apply IH, A'].
  destruct (dict_index d dest); cbn [bind]; [apply IH, A' | |]; reflexivity.
Qed.

Lemma novas_transicoes_de_mesmo_delta (t1 t2 : transicoes_t)
  (alf : list string) (d : dict string string) : forall classes novas,
  (forall c r s, In c classes -> representante_de set_iter c = Ok r ->
     In s alf -> delta t1 r s = delta t2 r s) ->
  novas_transicoes_de set_iter t1 alf d classes novas =
  novas_transicoes_de set_iter t2 alf d classes novas.
Proof.
  induction classes as [|c classes IH]; intros novas A;
    cbn [novas_transicoes_de]; [reflexivity|].
  destruct (representante_de set_iter c) as [r| |] eqn:R; cbn [bind];
    try reflexivity.
  rewrite (transicoes_classe_mesmo_delta t1 t2 d r alf [])
    by (intros s Is; apply (A c r s); auto; left; reflexivity).
  destruct (transicoes_classe t2 d r alf []); cbn [bind]; try reflexivity.
  apply IH. intros c' r' x' Ic; apply A; right; exact Ic.
Qed.

Lemma transicoes_classe_erros (t : transicoes_t) (d : dict string string)
  (r : string) : forall simbolos linha,
  match transicoes_classe t d r simbolos linha with
  | Ok _ | Erro (KeyError _) => True
  | _ => False
  end.
Proof.
  induction simbolos as [|a simbolos IH]; intros linha;
    cbn [transicoes_classe]; [exact I|].
  destruct (delta t r a) as [dest|]; [|apply IH].
  unfold dict_index. destruct (dict_get d dest); cbn [bind]; [apply IH|exact I].
Qed.

Lemma novas_transicoes_de_erros (t : transicoes_t) (alf : list string)
  (d : dict string string) : forall classes novas,
  match novas_transicoes_de set_iter t alf d classes novas with
  | Ok _ | Erro (KeyError _) | Erro IndexError => True
  | _ => False
  end.
Proof.
  induction classes as [|c classes IH]; intros novas;
    cbn [novas_transicoes_de]; [exact I|].
  unfold representante_de. destruct (set_iter c) as [|r rest]; cbn [bind];
    [exact I|].
  pose proof (transicoes_classe_erros t d r alf []) as E.
  destruct (transicoes_classe t d r alf []) as [linha|[k| |]|]; cbn [bind];
    try contradiction; [apply IH | exact I].
Qed.

Lemma construir_erros (self : Minimizador) classes :
  match _construir_afd_minimizado set_iter self classes with
  | Ok _ | Erro (KeyError _) | Erro IndexError => True
  | _ => False
  end.
Proof.
  unfold _construir_afd_minimizado.
  set (d := mapear_classes set_iter classes).
  unfold dict_index at 1.
  destruct (dict_get d (estado_inicial self)); cbn [bind]; [|exact I].
  destruct (coletar_finais_spec d (set_iter (estados_finais self)) [])
    as [(fs & E & _)|(k & E & _)]; rewrite E; cbn [bind]; [|exact I].
  pose proof (novas_transicoes_de_erros (transicoes self) (alfabeto self) d
                classes []) as N.
  destruct (novas_transicoes_de set_iter (transicoes self) (alfabeto self) d
              classes []) as [novas|[k| |]|]; cbn [bind];
    try contradiction; exact I.
Qed.
End ReducerRepresentante.


(** C7, amended. The reducer takes the transitions of a class from one
    representative, the first member in the iteration order of the class,
    and checks nothing about the other members: two objects that differ
    only in their transition maps, and agree on the moves of the
    representatives, give the same result, automaton or error.  Its only
    errors are failed lookups ([KeyError], or [IndexError] on an empty
    class); no error reports an inconsistent class. *)
Theorem reducer_so_representante
  (set_iter : pyset -> list string) (self self' : Minimizador)
  (classes : list pyset)
  (Half : alfabeto self = alfabeto self')
  (Hini : estado_inicial self = estado_inicial self')
  (Hfin : estados_finais self = estados_finais self')
  (Hrep : forall c r s,
     In c classes -> representante_de set_iter c = Ok r ->
     In s (alfabeto self) ->
     delta (transicoes self) r s = delta (transicoes self') r s) :
  _construir_afd_minimizado set_iter self classes =
  _construir_afd_minimizado set_iter self' classes /\
  (forall e, _construir_afd_minimizado set_iter self classes = Erro e ->
     e = IndexError \/ exists k, e = KeyError k).
Proof.
  split.
  - unfold _construir_afd_minimizado.
    rewrite <- Half, <- Hini, <- Hfin.
    rewrite (novas_transicoes_de_mesmo_delta set_iter
               (transicoes self) (transicoes self') (alfabeto self)
               (mapear_classes set_iter classes) classes [] Hrep).
    reflexivity.
  - intros e E. pose proof (construir_erros set_iter self classes) as K.
    rewrite E in K. destruct e as [k| |]; [eauto | contradiction | auto].
Qed.

Lemma reducer_so_representante_witness :
  (forall c r s,
     In c (_encontrar_classes_equivalencia parcial_final) ->
     representante_de ordem_id c = Ok r ->
     In s (alfabeto parcial_final) ->
     delta (transicoes parcial_final) r s =
     delta (transicoes parcial_alterado) r s) /\
  _construir_afd_minimizado ordem_id parcial_final
    (_encontrar_classes_equivalencia parcial_final) =
  _construir_afd_minimizado ordem_id parcial_alterado
    (_encontrar_classes_equivalencia parcial_final).
Proof.
  assert (Hrep : forall c r s,
     In c (_encontrar_classes_equivalencia parcial_final) ->
     representante_de ordem_id c = Ok r ->
     In s (alfabeto parcial_final) ->
     delta (transicoes parcial_final) r s =
     delta (transicoes parcial_alterado) r s).
  { intros c r s Ic R Is. vm_compute in Ic.
    destruct Ic as [<-|[<-|[]]]; vm_compute in R; injection R as <-;
      cbn in Is; destruct Is as [<-|[<-|[]]]; reflexivity. }
  split; [exact Hrep|].
  exact (proj1 (reducer_so_representante ordem_id parcial_final
                  parcial_alterado _ eq_refl eq_refl eq_refl Hrep)).
Defined.

(** C7 as worded fails: in the classes of the partial automaton, [p] moves
    on [a] into the class of [f] and [r] into its own class, and the
    reducer returns an automaton all the same. *)
Lemma verifica_pos_condicao_contra :
  ~ verifica_pos_condicao ordem_id parcial_final
      (_encontrar_classes_equivalencia parcial_final).
Proof.
  intros H. destruct H as (e & E).
  - intros C.
    assert (M : mesma_classe (_encontrar_classes_equivalencia parcial_final)
                  "f" "g").
    { apply (C ["p"; "q"; "g"; "r"] "p" "r" "a" "f" "g");
        try reflexivity; vm_compute; tauto. }
    apply mesma_classe_b_correto in M. vm_compute in M. discriminate M.
  - vm_compute in E. discriminate E.
Qed.

(** ** What the iteration order of sets can and cannot change *)

Lemma ordem_valida_decrescente : ordem_valida ordem_decrescente.
Proof.
  intros s. unfold ordem_decrescente.
  eapply Permutation_trans; [apply Permutation_sym, Permutation_rev|].
  apply Permutation_sym, sorted_Permutation.
Qed.

Lemma construir_Ok_inv set_iter (self : Minimizador) classes m :
  _construir_afd_minimizado set_iter self classes = Ok m ->
  exists n0 fs novas,
    dict_get (mapear_classes set_iter classes) (estado_inicial self)
      = Some n0 /\
    coletar_finais (mapear_classes set_iter classes)
      (set_iter (estados_finais self)) [] = Ok fs /\
    novas_transicoes_de set_iter (transicoes self) (alfabeto self)
      (mapear_classes set_iter classes) classes [] = Ok novas /\
    m = {| afd_estados := map (nome_classe set_iter) classes;
           afd_alfabeto := alfabeto self;
           afd_estado_inicial := n0;
           afd_estados_finais := set_iter fs;
           afd_transicoes := novas |}.
Proof.
  unfold _construir_afd_minimizado, dict_index.
  destruct (dict_get (mapear_classes set_iter classes) (estado_inicial self))
    as [n0|]; cbn [bind]; [|discriminate].
  destruct (coletar_finais _ _ _) as [fs| |]; cbn [bind]; try discriminate.
  destruct (novas_transicoes_de _ _ _ _ _ _) as [novas| |]; cbn [bind];
    try discriminate.
  intros [= <-]. exists n0, fs, novas. auto.
Qed.

Section DuasOrdens.
Variables it1 it2 : pyset -> list string.
Hypothesis H1 : ordem_valida it1.
Hypothesis H2 : ordem_valida it2.

Lemma mapear_classes_ordem classes x :
  dict_get (mapear_classes it1 classes) x =
  dict_get (mapear_classes it2 classes) x.
Proof.
  rewrite (mapear_classes_get it1 H1), (mapear_classes_get it2 H2).
  destruct (find (set_mem x) (rev classes)); [|reflexivity].
  f_equal. apply nome_classe_ordem; assumption.
Qed.

Lemma nomes_ordem classes :
  map (nome_classe it1) classes = map (nome_classe it2) classes.
Proof. apply map_ext. intros c. apply nome_classe_ordem; assumption. Qed.

Lemma coletar_finais_ordem classes finais fs1 fs2 :
  coletar_finais (mapear_classes it1 classes) (it1 finais) [] = Ok fs1 ->
  coletar_finais (mapear_classes it2 classes) (it2 finais) [] = Ok fs2 ->
  Permutation (it1 fs1) (it2 fs2).
Proof.
  intros E1 E2.
  destruct (coletar_finais_spec (mapear_classes it1 classes) (it1 finais) [])
    as [(s1 & Q1 & _ & B1 & N1)|(k & Q1 & _)]; rewrite Q1 in E1;
    [|discriminate]. injection E1 as ->.
  destruct (coletar_finais_spec (mapear_classes it2 classes) (it2 finais) [])
    as [(s2 & Q2 & _ & B2 & N2)|(k & Q2 & _)]; rewrite Q2 in E2;
    [|discriminate]. injection E2 as ->.
  eapply Permutation_trans; [apply H1|].
  eapply Permutation_trans; [|apply Permutation_sym, H2].
  apply NoDup_Permutation; [apply N1; constructor | apply N2; constructor|].
  intros n. rewrite B1, B2. split.
  - intros [[]|(ef & I & G)]. right. exists ef. split.
    + apply (proj2 (set_iter_In it2 H2 _ _)).
      apply (proj1 (set_iter_In it1 H1 _ _)), I.
    + rewrite <- mapear_classes_ordem. exact G.
  - intros [[]|(ef & I & G)]. right. exists ef. split.
    + apply (proj2 (set_iter_In it1 H1 _ _)).
      apply (proj1 (set_iter_In it2 H2 _ _)), I.
    + rewrite mapear_classes_ordem. exact G.
Qed.

Lemma chaves_novas_ordem classes : forall (novas : transicoes_t),
  dict_keys (fold_left
    (fun (n : transicoes_t) c => dict_set n (nome_classe it1 c) [])
    classes novas) =
  dict_keys (fold_left
    (fun (n : transicoes_t) c => dict_set n (nome_classe it2 c) [])
    classes novas).
Proof.
  induction classes as [|c classes IH]; intros novas; cbn [fold_left];
    [reflexivity|].
  rewrite (nome_classe_ordem it1 it2 c H1 H2). apply IH.
Qed.

Lemma novas_transicoes_de_ordem (t : transicoes_t) (alf : list string)
  classes0 : forall classes novas,
  (forall c, In c classes ->
     exists r1 r2,
       representante_de it1 c = Ok r1 /\ representante_de it2 c = Ok r2 /\
       transicoes_classe t (mapear_classes it1 classes0) r1 alf [] =
       transicoes_classe t (mapear_classes it2 classes0) r2 alf []) ->
  novas_transicoes_de it1 t alf (mapear_classes it1 classes0) classes novas =
  novas_transicoes_de it2 t alf (mapear_classes it2 classes0) classes novas.
Proof.
  induction classes as [|c classes IH]; intros novas A;
    cbn [novas_transicoes_de]; [reflexivity|].
  destruct (A c (or_introl eq_refl)) as (r1 & r2 & R1 & R2 & L).
  rewrite R1, R2. cbn [bind]. rewrite L.
  destruct (transicoes_classe t (mapear_classes it2 classes0) r2 alf []);
    cbn [bind]; try reflexivity.
  rewrite (nome_classe_ordem it1 it2 c H1 H2).
  apply IH. intros c' Ic; apply A; right; exact Ic.
Qed.
End DuasOrdens.

Lemma transicoes_ordem_completo it1 it2 (a : AFD) (self4 : Minimizador) :
  ordem_valida it1 -> ordem_valida it2 ->
  NoDup (afd_estados a) -> completo a ->
  preencher_tabela (__init__ a) = Ok self4 ->
  novas_transicoes_de it1 (transicoes self4) (alfabeto self4)
    (mapear_classes it1 (_encontrar_classes_equivalencia self4))
    (_encontrar_classes_equivalencia self4) [] =
  novas_transicoes_de it2 (transicoes self4) (alfabeto self4)
    (mapear_classes it2 (_encontrar_classes_equivalencia self4))
    (_encontrar_classes_equivalencia self4) [].
Proof.
  intros H1 H2 Hnd Hc P.
  pose proof (classes_consistentes a self4 Hnd Hc P) as Cons.
  pose proof (poda_completa a self4 Hc P) as Tot.
  pose proof (preencher_tabela_init a self4 P)
    as (_ & _ & _ & _ & _ & ND & _).
  destruct (encontrar_classes_equivalencia_spec self4 (ND Hnd)) as [Dj _].
  destruct (encontrar_classes_cobrem self4) as [_ Su].
  set (classes := _encontrar_classes_equivalencia self4) in *.
  apply novas_transicoes_de_ordem; try assumption.
  intros c Ic. destruct (Su c Ic) as [NE Sub].
  destruct (representante_de_em it1 H1 c NE) as (r1 & R1 & I1).
  destruct (representante_de_em it2 H2 c NE) as (r2 & R2 & I2).
  exists r1, r2. split; [exact R1|split; [exact R2|]].
  apply transicoes_classe_ext. intros s Is. right.
  destruct (Tot r1 s (Sub r1 I1) Is) as (d1 & D1 & _).
  destruct (Tot r2 s (Sub r2 I2) Is) as (d2 & D2 & _).
  destruct (Cons c r1 r2 s d1 d2 Ic I1 I2 Is D1 D2) as (c' & Ic' & J1 & J2).
  exists d1, d2, (nome_classe it1 c'). repeat split; auto.
  - apply mapear_classes_disjuntas; assumption.
  - rewrite (nome_classe_ordem it1 it2 c' H1 H2).
    apply mapear_classes_disjuntas; assumption.
Qed.

(** C8, amended. Two runs of [minimizar] on one input that iterate sets in
    different orders, and both return an automaton, return the same list of
    states (same class names, same order), the same alphabet, the same
    start state, the same accepting states up to the order of the list, and
    transition maps with the same sources in the same order; when the input
    has distinct states and is complete, the transition maps are equal. *)
Theorem minimizar_duas_ordens
  (it1 it2 : pyset -> list string)
  (H1 : ordem_valida it1) (H2 : ordem_valida it2)
  (a : AFD) (m1 m2 : AFD)
  (E1 : minimizar it1 (__init__ a) = Ok m1)
  (E2 : minimizar it2 (__init__ a) = Ok m2) :
  afd_estados m1 = afd_estados m2 /\
  afd_alfabeto m1 = afd_alfabeto m2 /\
  afd_estado_inicial m1 = afd_estado_inicial m2 /\
  Permutation (afd_estados_finais m1) (afd_estados_finais m2) /\
  dict_keys (afd_transicoes m1) = dict_keys (afd_transicoes m2) /\
  (NoDup (afd_estados a) -> completo a ->
   afd_transicoes m1 = afd_transicoes m2).
Proof.
  unfold minimizar in E1, E2.
  destruct (preencher_tabela (__init__ a)) as [self4| |] eqn:P;
    cbn [bind] in E1, E2; try discriminate.
  apply construir_Ok_inv in E1, E2.
  destruct E1 as (n1 & fs1 & novas1 & G1 & F1 & N1 & ->).
  destruct E2 as (n2 & fs2 & novas2 & G2 & F2 & N2 & ->).
  cbn [afd_estados afd_alfabeto afd_estado_inicial afd_estados_finais
       afd_transicoes].
  split; [apply nomes_ordem; assumption|].
  split; [reflexivity|].
  split.
  { rewrite (mapear_classes_ordem it1 it2 H1 H2) in G1. congruence. }
  split; [eapply coletar_finais_ordem; eauto|].
  split.
  - rewrite (proj1 (novas_transicoes_de_spec _ _ _ _ _ _ _ N1)).
    rewrite (proj1 (novas_transicoes_de_spec _ _ _ _ _ _ _ N2)).
    apply chaves_novas_ordem; assumption.
  - intros Hnd Hc.
    rewrite (transicoes_ordem_completo it1 it2 a self4 H1 H2 Hnd Hc P) in N1.
    congruence.
Qed.

Lemma minimizar_duas_ordens_witness :
  ordem_valida ordem_id /\ ordem_valida ordem_decrescente /\
  Permutation ["{A}"; "{C}"] ["{C}"; "{A}"].
Proof.
  split; [exact ordem_valida_id|split; [exact ordem_valida_decrescente|]].
  assert (E1 : minimizar ordem_id (__init__ afd_abc) =
    Ok {| afd_estados := ["{A}"; "{B}"; "{C}"];
          afd_alfabeto := ["a"];
          afd_estado_inicial := "{A}";
          afd_estados_finais := ["{A}"; "{C}"];
          afd_transicoes :=
            [("{A}", [("a", "{B}")]); ("{B}", [("a", "{C}")]);
             ("{C}", [("a", "{C}")])] |}) by (vm_compute; reflexivity).
  assert (E2 : minimizar ordem_decrescente (__init__ afd_abc) =
    Ok {| afd_estados := ["{A}"; "{B}"; "{C}"];
          afd_alfabeto := ["a"];
          afd_estado_inicial := "{A}";
          afd_estados_finais := ["{C}"; "{A}"];
          afd_transicoes :=
            [("{A}", [("a", "{B}")]); ("{B}", [("a", "{C}")]);
             ("{C}", [("a", "{C}")])] |}) by (vm_compute; reflexivity).
  exact (proj1 (proj2 (proj2 (proj2
    (minimizar_duas_ordens ordem_id ordem_decrescente ordem_valida_id
       ordem_valida_decrescente afd_abc _ _ E1 E2))))).
Defined.

(** C8 as worded fails, even on a complete automaton: the list of accepting
    states comes out in the iteration order of a set. *)
Lemma determinista_contra : ~ determinista afd_abc.
Proof.
  intros H.
  specialize (H ordem_id ordem_decrescente ordem_valida_id
                ordem_valida_decrescente).
  vm_compute in H. discriminate H.
Qed.


(** * Further properties of the methods *)

(** ** The search and the pruning *)



(** runs from a kept state are the same before and after the pruning, when
    the destinations of reachable states are listed *)
Lemma correr_poda_listados (a : AFD) (ests1 : list string) (t1 : transicoes_t) :
  destinos_listados a ->
  (forall x, In x ests1 <->
     In x (afd_estados a) /\
     alcancavel (afd_transicoes a) (afd_alfabeto a) (afd_estado_inicial a) x) ->
  (forall x s, delta t1 x s =
     if set_mem x ests1 then delta (afd_transicoes a) x s else None) ->
  forall w x, Forall (fun s => In s (afd_alfabeto a)) w -> In x ests1 ->
    correr t1 x w = correr (afd_transicoes a) x w /\
    forall y, correr (afd_transicoes a) x w = Some y -> In y ests1.
Proof.
  intros Hd E D. induction w as [|s w IH]; intros x Fw Ix.
  - split; [reflexivity|]. cbn. intros y [= <-]. exact Ix.
  - inversion Fw as [|? ? Is Fw']; subst. cbn [correr].
    rewrite D, (proj2 (set_mem_In _ _) Ix).
    destruct (delta (afd_transicoes a) x s) as [d|] eqn:Dx.
    + apply IH; [exact Fw'|]. apply (proj2 (E d)).
      pose proof (proj1 (E x) Ix) as [_ Rx].
      split; [eapply Hd; eauto | eapply alcancavel_passo; eauto].
    + split; [reflexivity | discriminate].
Qed.

Lemma aceita_poda_listados (a : AFD) (ests1 : list string) (t1 : transicoes_t)
  (finais1 : pyset) :
  destinos_listados a ->
  (forall x, In x ests1 <->
     In x (afd_estados a) /\
     alcancavel (afd_transicoes a) (afd_alfabeto a) (afd_estado_inicial a) x) ->
  (forall x, In x finais1 <->
     In x (afd_estados_finais a) /\
     alcancavel (afd_transicoes a) (afd_alfabeto a) (afd_estado_inicial a) x) ->
  (forall x s, delta t1 x s =
     if set_mem x ests1 then delta (afd_transicoes a) x s else None) ->
  forall w x, Forall (fun s => In s (afd_alfabeto a)) w -> In x ests1 ->
    aceita t1 finais1 x w =
    aceita (afd_transicoes a) (set_of_list (afd_estados_finais a)) x w.
Proof.
  intros Hd E F D w x Fw Ix.
  destruct (correr_poda_listados a ests1 t1 Hd E D w x Fw Ix) as [C In1].
  unfold aceita. rewrite C.
  destruct (correr (afd_transicoes a) x w) as [y|]; [|reflexivity].
  pose proof (proj1 (E y) (In1 y eq_refl)) as [_ Ry].
  destruct (set_mem y finais1) eqn:M; symmetry.
  - apply set_mem_In. apply set_of_list_In.
    apply (proj1 (set_mem_In _ _)) in M. apply (proj1 (F y)) in M. tauto.
  - apply set_mem_false. intros I. rewrite set_of_list_In in I.
    apply (proj1 (set_mem_false _ _)) in M. apply M.
    apply (proj2 (F y)). tauto.
Qed.

Lemma filter_sublista {A : Type} (f : A -> bool) (l : list A) :
  forall i j x y,
    i < j -> nth_error (filter f l) i = Some x ->
    nth_error (filter f l) j = Some y ->
    exists i' j', i' < j' /\ nth_error l i' = Some x /\ nth_error l j' = Some y.
Proof.
  induction l as [|z l IH]; intros i j x y L Nx Ny; cbn [filter] in *.
  - destruct i; discriminate.
  - destruct (f z).
    + destruct i as [|i]; destruct j as [|j]; try lia; cbn in Nx, Ny.
      * injection Nx as <-. apply nth_error_In in Ny.
        apply filter_In in Ny. destruct Ny as [Iy _].
        apply In_nth_error in Iy. destruct Iy as (k & Ky).
        exists 0, (S k). repeat split; [lia | exact Ky].
      * destruct (IH i j x y) as (i' & j' & L' & P1 & P2); auto; [lia|].
        exists (S i'), (S j'). repeat split; auto; lia.
    + destruct (IH i j x y) as (i' & j' & L' & P1 & P2); auto.
      exists (S i'), (S j'). repeat split; auto; lia.
Qed.

(** X2. Pruning always returns.  It keeps, in their original order, exactly
    the listed states that are reachable, keeps the accepting states that
    are reachable, keeps the moves of the kept states only, and leaves the
    alphabet, the start state and the table alone.  When the start state is
    listed and the destinations of reachable states are listed, the pruned
    automaton accepts from the start state exactly the words the given one
    accepts, and each of its states is still reachable in it. *)
Theorem poda_preserva_linguagem (a : AFD) :
  exists self1,
    _remover_estados_inalcancaveis (__init__ a) = Ok self1 /\
    alfabeto self1 = afd_alfabeto a /\
    estado_inicial self1 = afd_estado_inicial a /\
    tabela_marcacao self1 = [] /\
    (forall x, In x (estados self1) <->
       In x (afd_estados a) /\
       alcancavel (afd_transicoes a) (afd_alfabeto a)
         (afd_estado_inicial a) x) /\
    (forall i j x y,
       i < j -> nth_error (estados self1) i = Some x ->
       nth_error (estados self1) j = Some y ->
       exists i' j', i' < j' /\ nth_error (afd_estados a) i' = Some x /\
                     nth_error (afd_estados a) j' = Some y) /\
    (forall x, In x (estados_finais self1) <->
       In x (afd_estados_finais a) /\
       alcancavel (afd_transicoes a) (afd_alfabeto a)
         (afd_estado_inicial a) x) /\
    (forall x s, delta (transicoes self1) x s =
       if set_mem x (estados self1)
       then delta (afd_transicoes a) x s else None) /\
    (In (afd_estado_inicial a) (afd_estados a) -> destinos_listados a ->
     (forall w, Forall (fun s => In s (afd_alfabeto a)) w ->
        aceita (transicoes self1) (estados_finais self1)
          (estado_inicial self1) w =
        aceita (afd_transicoes a) (set_of_list (afd_estados_finais a))
          (afd_estado_inicial a) w) /\
     (forall x, In x (estados self1) ->
        alcancavel (transicoes self1) (alfabeto self1)
          (estado_inicial self1) x)).
Proof.
  destruct (remover_estados_inalcancaveis_spec (__init__ a))
    as (self1 & R & _ & A & Q & T & E & _ & F & D).
  cbn [__init__ estados alfabeto estado_inicial estados_finais transicoes
       tabela_marcacao] in A, Q, T, E, F, D.
  exists self1. split; [exact R|]. split; [exact A|]. split; [exact Q|].
  split; [exact T|]. split; [exact E|]. split.
  { unfold _remover_estados_inalcancaveis in R.
    destruct (_encontrar_estados_alcancaveis (__init__ a)) as [alc| |];
      cbn [bind] in R; try discriminate. injection R as <-.
    cbn [estados]. apply filter_sublista. }
  assert (F' : forall x, In x (estados_finais self1) <->
       In x (afd_estados_finais a) /\
       alcancavel (afd_transicoes a) (afd_alfabeto a)
         (afd_estado_inicial a) x).
  { intros x. rewrite F, set_of_list_In. apply iff_refl. }
  split; [exact F'|]. split; [exact D|].
  intros I0 Hd.
  assert (I1 : In (afd_estado_inicial a) (estados self1)).
  { apply (proj2 (E _)). split; [exact I0 | apply alcancavel_inicial]. }
  split.
  - intros w Fw. rewrite Q.
    apply (aceita_poda_listados a (estados self1)); assumption.
  - intros x Ix. apply (proj1 (E x)) in Ix. destruct Ix as [_ (w & Fw & Rx)].
    cbn [__init__ alfabeto estado_inicial transicoes] in Fw, Rx.
    exists w. rewrite A, Q. split; [exact Fw|].
    rewrite (proj1 (correr_poda_listados a (estados self1) (transicoes self1)
                      Hd E D w _ Fw I1)).
    exact Rx.
Qed.

Lemma poda_preserva_linguagem_witness :
  In (afd_estado_inicial cenario_A) (afd_estados cenario_A) /\
  destinos_listados cenario_A /\
  exists self1,
    _remover_estados_inalcancaveis (__init__ cenario_A) = Ok self1 /\
    estados self1 = ["q0"; "q1"; "q2"] /\
    forall w, Forall (fun s => In s (afd_alfabeto cenario_A)) w ->
      aceita (transicoes self1) (estados_finais self1)
        (estado_inicial self1) w =
      aceita (afd_transicoes cenario_A)
        (set_of_list (afd_estados_finais cenario_A))
        (afd_estado_inicial cenario_A) w.
Proof.
  assert (I0 : In (afd_estado_inicial cenario_A) (afd_estados cenario_A))
    by (left; reflexivity).
  assert (Hd : destinos_listados cenario_A)
    by (apply destinos_listados_b_correto; vm_compute; reflexivity).
  split; [exact I0|split; [exact Hd|]].
  destruct (poda_preserva_linguagem cenario_A)
    as (self1 & R & _ & _ & _ & _ & _ & _ & _ & L).
  exists self1. split; [exact R|].
  split; [vm_compute in R; injection R as <-; reflexivity|].
  exact (proj1 (L I0 Hd)).
Defined.

(** ** The table: initialisation, canonical pairs, trivial marks *)

Lemma pares_NoDup ests : NoDup ests -> NoDup (pares ests).
Proof.
  induction ests as [|e r IH]; intros ND; cbn [pares]; [constructor|].
  inversion ND as [|? ? Ne NDr]; subst.
  apply NoDup_app.
  - apply Finite.Injective_map_NoDup; [|exact NDr].
    intros x y E; injection E; auto.
  - apply IH, NDr.
  - intros [x y] I1 I2. apply in_map_iff in I1. destruct I1 as (z & E & _).
    injection E as <- <-. apply pares_In in I2. tauto.
Qed.

Lemma pares_length ests :
  2 * List.length (pares ests) = List.length ests * (List.length ests - 1).
Proof.
  induction ests as [|e r IH]; cbn [pares List.length]; [reflexivity|].
  rewrite length_app, length_map.
  unfold par in *.
  set (m := List.length (pares r)) in *. set (n := List.length r) in *.
  clearbody m n.
  replace (S n - 1) with n by lia. destruct n; [simpl in *; lia|].
  replace (S n - 1) with n in IH by lia. nia.
Qed.

Lemma NoDup_app_disjuntas {A : Type} (l l' : list A) x :
  NoDup (l ++ l') -> In x l -> In x l' -> False.
Proof.
  induction l as [|y l IH]; cbn; [tauto|].
  intros ND [->|I] I'; inversion ND; subst.
  - apply H1. apply in_app_iff; auto.
  - auto.
Qed.

Lemma inicializar_linha_nova ei : forall resto (tab : tabela_t),
  NoDup (dict_keys tab ++ map (pair ei) resto) ->
  fold_left (fun t ej => dict_set t (ei, ej) false) resto tab =
  tab ++ map (fun ej => ((ei, ej), false)) resto.
Proof.
  induction resto as [|ej resto IH]; intros tab ND; cbn [fold_left map].
  - symmetry; apply app_nil_r.
  - cbn [map] in ND.
    assert (N : ~ In (ei, ej) (dict_keys tab)).
    { intros I. apply (NoDup_app_disjuntas _ _ (ei, ej) ND I).
      left; reflexivity. }
    rewrite dict_keys_set_new by exact N.
    rewrite IH.
    + rewrite <- app_assoc. reflexivity.
    + unfold dict_keys in *. rewrite map_app. cbn [map fst].
      rewrite <- app_assoc. exact ND.
Qed.

Lemma inicializar_nova : forall ests (tab : tabela_t),
  NoDup (dict_keys tab ++ pares ests) ->
  inicializar ests tab = tab ++ tabela_inicial ests.
Proof.
  unfold tabela_inicial.
  induction ests as [|e r IH]; intros tab ND; cbn [inicializar pares map].
  - symmetry; apply app_nil_r.
  - cbn [pares] in ND. rewrite app_assoc in ND.
    rewrite inicializar_linha_nova by (eapply NoDup_app_remove_r; exact ND).
    rewrite IH.
    + rewrite map_app, map_map, <- app_assoc. reflexivity.
    + unfold dict_keys in *. rewrite map_app, map_map. cbn [fst].
      exact ND.
Qed.

Lemma inicializar_linha_mantem_false ei : forall resto (tab : tabela_t) p,
  dict_get tab p = Some false ->
  dict_get (fold_left (fun t ej => dict_set t (ei, ej) false) resto tab) p
    = Some false.
Proof.
  induction resto as [|ej resto IH]; intros tab p G; cbn [fold_left];
    [exact G|].
  apply IH. destruct (eqb_dec (ei, ej) p) as [<-|N].
  - apply dict_get_set_same.
  - rewrite dict_get_set_other by exact N. exact G.
Qed.

Lemma inicializar_mantem_false : forall ests (tab : tabela_t) p,
  dict_get tab p = Some false ->
  dict_get (inicializar ests tab) p = Some false.
Proof.
  induction ests as [|e r IH]; intros tab p G; cbn [inicializar]; [exact G|].
  apply IH, inicializar_linha_mantem_false, G.
Qed.

Lemma inicializar_linha_poe_false ei : forall resto (tab : tabela_t) ej,
  In ej resto ->
  dict_get (fold_left (fun t ej => dict_set t (ei, ej) false) resto tab)
    (ei, ej) = Some false.
Proof.
  induction resto as [|x resto IH]; intros tab ej; cbn [fold_left];
    [intros []|].
  intros [->|I]; [|apply IH, I].
  apply inicializar_linha_mantem_false, dict_get_set_same.
Qed.

(** X3. Table initialisation.  On a state list without duplicates and an
    empty table it produces exactly one unmarked entry for every pair
    [(estados[i], estados[j])] with [i < j], in row order: n(n-1)/2 entries
    for n states.  On any table it keeps the entries that are there, and it
    sets every pair of the state list to unmarked, erasing marks a former
    run may have left. *)
Theorem inicializar_tabela_pares (self : Minimizador) :
  (NoDup (estados self) -> tabela_marcacao self = [] ->
   tabela_marcacao (_inicializar_tabela self) =
     tabela_inicial (estados self) /\
   2 * List.length (tabela_marcacao (_inicializar_tabela self)) =
     List.length (estados self) * (List.length (estados self) - 1)) /\
  (forall p, In p (dict_keys (tabela_marcacao (_inicializar_tabela self))) <->
     In p (dict_keys (tabela_marcacao self)) \/ In p (pares (estados self))) /\
  (forall p, In p (pares (estados self)) ->
     dict_get (tabela_marcacao (_inicializar_tabela self)) p = Some false).
Proof.
  split; [|split].
  - intros ND T0. cbn [_inicializar_tabela com_tabela tabela_marcacao].
    rewrite T0, inicializar_nova by (apply pares_NoDup, ND).
    split; [reflexivity|].
    cbn [app]. unfold tabela_inicial. rewrite length_map. apply pares_length.
  - intros p. apply inicializar_keys.
  - intros [x y] I. cbn [_inicializar_tabela com_tabela tabela_marcacao].
    generalize (tabela_marcacao self).
    induction (estados self) as [|e r IH]; intros tab; [destruct I|].
    cbn [pares] in I. cbn [inicializar]. apply in_app_iff in I.
    destruct I as [I|I]; [|apply IH, I].
    apply in_map_iff in I. destruct I as (z & E & Iz). injection E as <- <-.
    apply inicializar_mantem_false, inicializar_linha_poe_false, Iz.
Qed.

Lemma inicializar_tabela_pares_witness :
  NoDup (estados (__init__ cenario_A)) /\
  tabela_marcacao (__init__ cenario_A) = [] /\
  2 * List.length (tabela_marcacao (_inicializar_tabela (__init__ cenario_A)))
    = 4 * 3.
Proof.
  assert (ND : NoDup (estados (__init__ cenario_A))) by nodup_concreto.
  split; [exact ND|split; [reflexivity|]].
  exact (proj2 (proj1 (inicializar_tabela_pares (__init__ cenario_A))
                  ND eq_refl)).
Defined.

Lemma indice_minimo e l : (-1 <= indice e l)%Z.
Proof.
  induction l as [|x r IH]; cbn [indice]; [lia|].
  destruct (String.eqb x e); [lia|].
  destruct (indice e r <? 0)%Z eqn:L; lia.
Qed.

Lemma indice_injetivo l : forall e1 e2,
  In e1 l -> indice e1 l = indice e2 l -> e1 = e2.
Proof.
  induction l as [|x r IH]; intros e1 e2; [intros []|]. cbn [indice].
  destruct (String.eqb_spec x e1) as [E1|N1];
    destruct (String.eqb_spec x e2) as [E2|N2]; intros I Q.
  - congruence.
  - pose proof (indice_minimo e2 r).
    destruct (indice e2 r <? 0)%Z eqn:L; lia.
  - pose proof (indice_minimo e1 r).
    destruct (indice e1 r <? 0)%Z eqn:L; lia.
  - destruct I as [I|I]; [contradiction|].
    pose proof (indice_In _ _ I).
    destruct (indice e1 r <? 0)%Z eqn:L1; [lia|].
    destruct (indice e2 r <? 0)%Z eqn:L2; [lia|].
    apply IH; [exact I | lia].
Qed.

(** X4. The ordered pair of two states.  It is one of the two orderings of
    its arguments, the state with the smaller index in the state list first.
    As soon as one of two different states is listed, both argument orders
    give the same pair, and with distinct listed states of a duplicate-free
    list this pair is a key of the table.  For two states that are both
    missing from the list (index -1 for both) the arguments come back
    swapped, so the two argument orders give different pairs. *)
Theorem obter_par_ordenado_canonico (self : Minimizador) (e1 e2 : string) :
  (_obter_par_ordenado self e1 e2 = (e1, e2) /\
     (indice e1 (estados self) < indice e2 (estados self))%Z \/
   _obter_par_ordenado self e1 e2 = (e2, e1) /\
     (indice e2 (estados self) <= indice e1 (estados self))%Z) /\
  (e1 <> e2 -> In e1 (estados self) \/ In e2 (estados self) ->
   _obter_par_ordenado self e1 e2 = _obter_par_ordenado self e2 e1) /\
  (NoDup (estados self) -> e1 <> e2 ->
   In e1 (estados self) -> In e2 (estados self) ->
   In (_obter_par_ordenado self e1 e2) (pares (estados self))) /\
  (~ In e1 (estados self) -> ~ In e2 (estados self) ->
   _obter_par_ordenado self e1 e2 = (e2, e1) /\
   _obter_par_ordenado self e2 e1 = (e1, e2)).
Proof.
  unfold _obter_par_ordenado. split; [|split; [|split]].
  - destruct (indice e1 (estados self) <? indice e2 (estados self))%Z eqn:L;
      [left | right]; split; try reflexivity; lia.
  - intros N I.
    assert (D : indice e1 (estados self) <> indice e2 (estados self)).
    { intros Q. destruct I as [I|I].
      - apply N. eapply indice_injetivo; eauto.
      - apply N. symmetry. eapply indice_injetivo; eauto. }
    destruct (indice e1 (estados self) <? indice e2 (estados self))%Z eqn:L1;
      destruct (indice e2 (estados self) <? indice e1 (estados self))%Z eqn:L2;
      try reflexivity; lia.
  - intros ND N I1 I2. apply par_ordenado_em_pares; assumption.
  - intros N1 N2. rewrite (indice_nao_In _ _ N1), (indice_nao_In _ _ N2).
    split; reflexivity.
Qed.

Lemma fold_marcar_trivial_resto finais l : forall (tab : tabela_t) p,
  ~ (In p l /\ um_final finais p = true) ->
  dict_get (fold_left (marcar_trivial finais) l tab) p = dict_get tab p.
Proof.
  induction l as [|q l IH]; intros tab p N; cbn [fold_left]; [reflexivity|].
  rewrite IH by (intros [I U]; apply N; split; [right; exact I | exact U]).
  unfold marcar_trivial. fold (um_final finais q).
  destruct (um_final finais q) eqn:U; [|reflexivity].
  apply dict_get_set_other. intros ->. apply N. split; [left; reflexivity|exact U].
Qed.

(** X5. Trivial marking changes no key of the table and sets to marked
    exactly the entries whose pair has one final and one non-final state;
    every other entry keeps the value it had. *)
Theorem marcar_pares_triviais_exato (self : Minimizador) :
  dict_keys (tabela_marcacao (_marcar_pares_triviais self)) =
    dict_keys (tabela_marcacao self) /\
  forall p,
    dict_get (tabela_marcacao (_marcar_pares_triviais self)) p =
    if (dict_in (tabela_marcacao self) p &&
        um_final (estados_finais self) p)%bool
    then Some true
    else dict_get (tabela_marcacao self) p.
Proof.
  cbn [_marcar_pares_triviais com_tabela tabela_marcacao]. split.
  - apply fold_marcar_trivial_keys, incl_refl.
  - intros p. unfold dict_in.
    destruct (dict_get (tabela_marcacao self) p) as [v|] eqn:G.
    + cbn [andb]. destruct (um_final (estados_finais self) p) eqn:U.
      * apply fold_marcar_trivial_marca; [|exact U].
        eapply dict_get_Some_key; eauto.
      * rewrite fold_marcar_trivial_resto; [exact G|].
        intros [_ X]; congruence.
    + cbn [andb]. rewrite fold_marcar_trivial_resto; [exact G|].
      intros [I _]. apply dict_get_None in G. contradiction.
Qed.

(** ** Marks, classes and the language of the states *)

Lemma preencher_tabela_cenario_A :
  preencher_tabela (__init__ cenario_A) = Ok cenario_A_final.
Proof. vm_compute. reflexivity. Qed.

Lemma preencher_tabela_ciclo :
  preencher_tabela (__init__ afd_ciclo) = Ok ciclo_final.
Proof. vm_compute. reflexivity. Qed.

Lemma destinos_listados_cenario_A : destinos_listados cenario_A.
Proof. apply destinos_listados_b_correto; vm_compute; reflexivity. Qed.

Lemma marcado_nao_equivalente_listados (a : AFD) (self4 : Minimizador) e1 e2 :
  destinos_listados a -> preencher_tabela (__init__ a) = Ok self4 ->
  marcado (tabela_marcacao self4) (e1, e2) -> ~ equivalentes a e1 e2.
Proof.
  intros Hd P M Eq.
  pose proof (preencher_tabela_init a self4 P)
    as ((_ & K & _) & A & _ & _ & E & _ & F & D).
  assert (Ik : In (e1, e2) (dict_keys (tabela_marcacao self4)))
    by (eapply dict_get_Some_key; exact M).
  destruct (pares_In _ _ _ (proj1 (K _) Ik)) as [I1 I2].
  destruct (preencher_tabela_fundada a self4 P _ M) as (w & Fw & N).
  rewrite A in Fw. cbn [fst snd] in N.
  rewrite !(aceita_poda_listados a (estados self4) (transicoes self4)
              (estados_finais self4) Hd E F D w) in N by assumption.
  apply N, Eq, Fw.
Qed.

(** X6. Every pair the final table marks is a pair of two different listed
    reachable states that some word over the alphabet tells apart in the
    pruned automaton; when the destinations of reachable states are listed,
    the two states are not language-equivalent in the given automaton.  The
    table never marks two equivalent states, also on partial automata. *)
Theorem marcados_sao_distinguiveis
  (a : AFD) (self4 : Minimizador)
  (P : preencher_tabela (__init__ a) = Ok self4) :
  (forall p, marcado (tabela_marcacao self4) p ->
     In p (pares (estados self4)) /\ distinguiveis self4 p) /\
  (destinos_listados a ->
   forall e1 e2, marcado (tabela_marcacao self4) (e1, e2) ->
     ~ equivalentes a e1 e2).
Proof.
  split.
  - intros p M. split; [|apply (preencher_tabela_fundada a self4 P), M].
    pose proof (preencher_tabela_init a self4 P) as ((_ & K & _) & _).
    apply K. eapply dict_get_Some_key; exact M.
  - intros Hd e1 e2. apply marcado_nao_equivalente_listados; assumption.
Qed.

Lemma marcados_sao_distinguiveis_witness :
  preencher_tabela (__init__ cenario_A) = Ok cenario_A_final /\
  ~ equivalentes cenario_A "q0" "q1".
Proof.
  split; [exact preencher_tabela_cenario_A|].
  apply (proj2 (marcados_sao_distinguiveis cenario_A cenario_A_final
                  preencher_tabela_cenario_A)
           destinos_listados_cenario_A "q0" "q1").
  reflexivity.
Defined.

(** X7. On an automaton with distinct states in which the destinations of
    reachable states are listed, two listed reachable states that accept
    the same words always end in one class: the partition never separates
    equivalent states, also on partial automata. *)
Theorem equivalentes_na_mesma_classe
  (a : AFD) (self4 : Minimizador)
  (Hnd : NoDup (afd_estados a)) (Hd : destinos_listados a)
  (P : preencher_tabela (__init__ a) = Ok self4)
  (e1 e2 : string)
  (I1 : In e1 (estados self4)) (I2 : In e2 (estados self4))
  (Heq : equivalentes a e1 e2) :
  mesma_classe (_encontrar_classes_equivalencia self4) e1 e2.
Proof.
  pose proof (preencher_tabela_init a self4 P)
    as ((NK & K & _) & _ & _ & _ & _ & ND & _).
  specialize (ND Hnd).
  destruct (encontrar_classes_equivalencia_spec self4 ND) as [_ L].
  apply L. destruct (string_dec e1 e2) as [<-|N]; [apply ligados_refl, I1|].
  pose proof (obter_par_ordenado_em_pares self4 e1 e2 ND N I1 I2) as Ip.
  apply K in Ip.
  assert (NM : ~ marcado (tabela_marcacao self4)
                 (_obter_par_ordenado self4 e1 e2)).
  { intros M. destruct (obter_par_ordenado_ou self4 e1 e2) as [Q|Q];
      rewrite Q in M;
      apply (marcado_nao_equivalente_listados a self4 _ _ Hd P M).
    - exact Heq.
    - intros w Fw. symmetry. apply Heq, Fw. }
  destruct (obter_par_ordenado_ou self4 e1 e2) as [Q|Q]; rewrite Q in *.
  - apply ligados_par; auto. apply nao_marcado_item; auto.
  - apply ligados_sym, ligados_par; auto. apply nao_marcado_item; auto.
Qed.

Lemma equivalentes_ciclo : equivalentes afd_ciclo "A" "B".
Proof.
  apply (completo_nao_marcados_equivalentes afd_ciclo) with (self4 := ciclo_final).
  - nodup_concreto.
  - apply completo_b_correto; vm_compute; reflexivity.
  - exact preencher_tabela_ciclo.
  - left; reflexivity.
  - discriminate.
Qed.

Lemma equivalentes_na_mesma_classe_witness :
  NoDup (afd_estados afd_ciclo) /\ destinos_listados afd_ciclo /\
  equivalentes afd_ciclo "A" "B" /\
  mesma_classe (_encontrar_classes_equivalencia ciclo_final) "A" "B".
Proof.
  assert (Hnd : NoDup (afd_estados afd_ciclo)) by nodup_concreto.
  assert (Hd : destinos_listados afd_ciclo)
    by (apply destinos_listados_b_correto; vm_compute; reflexivity).
  split; [exact Hnd|split; [exact Hd|split; [exact equivalentes_ciclo|]]].
  apply (equivalentes_na_mesma_classe afd_ciclo ciclo_final Hnd Hd
           preencher_tabela_ciclo "A" "B").
  - left; reflexivity.
  - right; left; reflexivity.
  - exact equivalentes_ciclo.
Defined.

Lemma mesma_classe_finais (a : AFD) (self4 : Minimizador) x y :
  NoDup (afd_estados a) -> preencher_tabela (__init__ a) = Ok self4 ->
  mesma_classe (_encontrar_classes_equivalencia self4) x y ->
  (In x (estados_finais self4) <-> In y (estados_finais self4)).
Proof.
  intros Hnd P M.
  pose proof (preencher_tabela_init a self4 P)
    as ((NK & K & Tr & _) & _ & _ & _ & _ & ND & _).
  specialize (ND Hnd).
  destruct (encontrar_classes_equivalencia_spec self4 ND) as [_ L].
  apply L in M.
  induction M as [x I|e1 e2 I I1 I2|x y M IH|x y z M1 IH1 M2 IH2].
  - apply iff_refl.
  - apply nao_marcado_item in I; [|exact NK]. destruct I as [Ik NM].
    destruct (um_final (estados_finais self4) (e1, e2)) eqn:U.
    + destruct (NM (Tr _ Ik U)).
    + unfold um_final in U. cbn [fst snd] in U.
      apply negb_false_iff, Bool.eqb_prop in U.
      rewrite <- !set_mem_In, U. apply iff_refl.
  - symmetry; exact IH.
  - rewrite IH1; exact IH2.
Qed.

(** X8. On an automaton with distinct states, partial or not, no class
    mixes accepting and non-accepting states: two states of one class are
    both in the accepting list or both outside it. *)
Theorem classes_nao_misturam_finais
  (a : AFD) (self4 : Minimizador)
  (Hnd : NoDup (afd_estados a))
  (P : preencher_tabela (__init__ a) = Ok self4)
  (x y : string)
  (M : mesma_classe (_encontrar_classes_equivalencia self4) x y) :
  In x (afd_estados_finais a) <-> In y (afd_estados_finais a).
Proof.
  pose proof (mesma_classe_finais a self4 x y Hnd P M) as Q.
  pose proof (preencher_tabela_init a self4 P)
    as (_ & _ & _ & _ & E & _ & F & _).
  destruct (encontrar_classes_cobrem self4) as [_ Su].
  destruct M as (c & Ic & Ix & Iy).
  apply (proj2 (Su c Ic)) in Ix, Iy.
  apply (proj1 (E _)) in Ix, Iy.
  pose proof (F x) as Fx. pose proof (F y) as Fy. tauto.
Qed.

Lemma classes_nao_misturam_finais_witness :
  NoDup (afd_estados afd_parcial) /\
  preencher_tabela (__init__ afd_parcial) = Ok parcial_final /\
  mesma_classe (_encontrar_classes_equivalencia parcial_final) "p" "r" /\
  (In "p" (afd_estados_finais afd_parcial) <->
   In "r" (afd_estados_finais afd_parcial)).
Proof.
  assert (Hnd : NoDup (afd_estados afd_parcial)) by nodup_concreto.
  assert (M : mesma_classe (_encontrar_classes_equivalencia parcial_final)
                "p" "r")
    by (apply mesma_classe_b_correto; vm_compute; reflexivity).
  split; [exact Hnd|split; [exact preencher_tabela_parcial|split; [exact M|]]].
  exact (classes_nao_misturam_finais afd_parcial parcial_final Hnd
           preencher_tabela_parcial "p" "r" M).
Defined.

Lemma list_remove_length c l :
  In c l -> S (List.length (list_remove c l)) = List.length l.
Proof.
  induction l as [|x l IH]; cbn [list_remove List.length]; [intros []|].
  destruct (set_eqb x c) eqn:E; [reflexivity|].
  intros [->|I]; [rewrite set_eqb_refl in E; discriminate|].
  cbn [List.length]. rewrite IH by exact I. reflexivity.
Qed.

Lemma set_eqb_sym c d : set_eqb c d = set_eqb d c.
Proof. unfold set_eqb. apply andb_comm. Qed.

Lemma unir_par_length classes item :
  List.length (unir_par classes item) <= List.length classes.
Proof.
  destruct item as [[e1 e2] m]. unfold unir_par.
  destruct m; [lia|]. cbn [fst snd]. rewrite localizar_spec.
  destruct (find (set_mem e1) (rev classes)) as [c1|] eqn:F1; [|lia].
  destruct (find (set_mem e2) (rev classes)) as [c2|] eqn:F2; [|lia].
  destruct (set_eqb c1 c2) eqn:E; cbn [negb]; [lia|].
  apply find_rev_Some in F1, F2. destruct F1 as [I1 _], F2 as [I2 _].
  rewrite length_app. cbn [List.length].
  pose proof (list_remove_length c1 classes I1) as L1.
  assert (I2' : In c2 (list_remove c1 classes)).
  { destruct (list_remove_resto c1 classes c2 I2) as [R|Q]; [exact R|].
    rewrite set_eqb_sym in Q. congruence. }
  pose proof (list_remove_length c2 _ I2') as L2. lia.
Qed.

Lemma fold_unir_par_length : forall tab classes,
  List.length (fold_left unir_par tab classes) <= List.length classes.
Proof.
  induction tab as [|item tab IH]; intros classes; cbn [fold_left]; [lia|].
  etransitivity; [apply IH | apply unir_par_length].
Qed.

Lemma encontrar_classes_length (self : Minimizador) :
  List.length (_encontrar_classes_equivalencia self)
    <= List.length (estados self).
Proof.
  unfold _encontrar_classes_equivalencia.
  etransitivity; [apply fold_unir_par_length|].
  rewrite length_map. lia.
Qed.

Lemma preencher_tabela_filtro (a : AFD) (self4 : Minimizador) :
  preencher_tabela (__init__ a) = Ok self4 ->
  exists alc, estados self4 = filter (fun e => set_mem e alc) (afd_estados a).
Proof.
  intros P.
  destruct (preencher_tabela_spec (__init__ a) eq_refl) as (self1 & R & Cases).
  destruct Cases as [[_ X]|[_ (tab & X & _)]]; rewrite X in P;
    [discriminate|]. injection P as <-.
  unfold _remover_estados_inalcancaveis in R.
  destruct (_encontrar_estados_alcancaveis (__init__ a)) as [alc| |];
    cbn [bind] in R; try discriminate. injection R as <-.
  exists alc. reflexivity.
Qed.

(** X9. The minimised automaton never has more states than the given one:
    it has at least one state, at most as many as there are listed
    reachable states, and so at most as many as the state list is long. *)
Theorem minimizado_nao_cresce
  (set_iter : pyset -> list string) (a m : AFD)
  (E : minimizar set_iter (__init__ a) = Ok m) :
  exists self4,
    preencher_tabela (__init__ a) = Ok self4 /\
    1 <= List.length (afd_estados m) /\
    List.length (afd_estados m) <= List.length (estados self4) /\
    List.length (estados self4) <= List.length (afd_estados a).
Proof.
  unfold minimizar in E.
  destruct (preencher_tabela (__init__ a)) as [self4| |] eqn:P;
    cbn [bind] in E; try discriminate.
  exists self4. split; [reflexivity|].
  apply construir_Ok_inv in E. destruct E as (n0 & fs & novas & _ & _ & _ & ->).
  cbn [afd_estados]. rewrite length_map.
  split; [|split].
  - pose proof (preencher_tabela_init a self4 P) as (_ & _ & _ & NE & _).
    destruct (encontrar_classes_cobrem self4) as [Co _].
    destruct (estados self4) as [|e r]; [contradiction|].
    destruct (Co e (or_introl eq_refl)) as (c & Ic & _).
    destruct (_encontrar_classes_equivalencia self4); [destruct Ic|].
    cbn [List.length]; lia.
  - apply encontrar_classes_length.
  - destruct (preencher_tabela_filtro a self4 P) as (alc & ->).
    apply filter_length_le.
Qed.

Lemma minimizado_nao_cresce_witness :
  exists m,
    minimizar ordem_id (__init__ cenario_A) = Ok m /\
    List.length (afd_estados m) <= List.length (afd_estados cenario_A).
Proof.
  destruct (minimizar ordem_id (__init__ cenario_A)) as [m| |] eqn:E;
    try (vm_compute in E; discriminate E).
  exists m. split; [reflexivity|].
  destruct (minimizado_nao_cresce ordem_id cenario_A m E)
    as (self4 & _ & _ & L1 & L2).
  lia.
Defined.

(** ** Class names *)

Lemma separar_sem_virgula x : sem_virgula x -> separar x = [x].
Proof.
  induction x as [|c r IH]; cbn [sem_virgula separar]; [reflexivity|].
  intros [N S]. rewrite (proj2 (Ascii.eqb_neq c ","%char) N), (IH S).
  reflexivity.
Qed.

Lemma separar_prefixo x resto :
  sem_virgula x -> separar (x ++ "," ++ resto)%string = x :: separar resto.
Proof.
  induction x as [|c r IH]; intros S.
  - reflexivity.
  - destruct S as [N S]. cbn [append separar].
    rewrite (proj2 (Ascii.eqb_neq c ","%char) N).
    change (r ++ String "," resto)%string with (r ++ "," ++ resto)%string.
    rewrite (IH S). reflexivity.
Qed.

Lemma separar_join l :
  l <> [] -> Forall sem_virgula l -> separar (join "," l) = l.
Proof.
  induction l as [|x l IH]; [contradiction|]. intros _ F.
  inversion F as [|? ? Sx Fl]; subst.
  destruct l as [|y l]; cbn [join].
  - apply separar_sem_virgula, Sx.
  - rewrite separar_prefixo by exact Sx. f_equal. apply IH; [discriminate|exact Fl].
Qed.

Lemma append_cancela_r (a b s : string) :
  (a ++ s)%string = (b ++ s)%string -> a = b.
Proof.
  assert (L : forall x y : string,
            String.length (x ++ y) = String.length x + String.length y).
  { induction x as [|c x IH]; intros y; cbn; [reflexivity|]. rewrite IH; lia. }
  revert b; induction a as [|c a IH]; intros [|d b] E; cbn [append] in E.
  - reflexivity.
  - apply (f_equal String.length) in E. cbn [String.length] in E.
    rewrite L in E. lia.
  - apply (f_equal String.length) in E. cbn [String.length] in E.
    rewrite L in E. lia.
  - injection E as -> E. f_equal. apply IH, E.
Qed.

Lemma nome_classe_injetivo set_iter c1 c2 :
  ordem_valida set_iter -> c1 <> [] -> c2 <> [] ->
  Forall sem_virgula c1 -> Forall sem_virgula c2 ->
  nome_classe set_iter c1 = nome_classe set_iter c2 -> Permutation c1 c2.
Proof.
  intros Hiter N1 N2 F1 F2 E. unfold nome_classe in E.
  cbn [append] in E. injection E as E. apply append_cancela_r in E.
  assert (P1 : Permutation c1 (sorted (set_iter c1))).
  { eapply Permutation_trans; [apply Permutation_sym, Hiter|].
    apply sorted_Permutation. }
  assert (P2 : Permutation c2 (sorted (set_iter c2))).
  { eapply Permutation_trans; [apply Permutation_sym, Hiter|].
    apply sorted_Permutation. }
  assert (Q : sorted (set_iter c1) = sorted (set_iter c2)).
  { rewrite <- (separar_join (sorted (set_iter c1))),
            <- (separar_join (sorted (set_iter c2))).
    - rewrite E; reflexivity.
    - intros Z. rewrite Z in P2. apply Permutation_sym, Permutation_nil in P2.
      contradiction.
    - eapply Permutation_Forall; [exact P2 | exact F2].
    - intros Z. rewrite Z in P1. apply Permutation_sym, Permutation_nil in P1.
      contradiction.
    - eapply Permutation_Forall; [exact P1 | exact F1]. }
  eapply Permutation_trans; [exact P1|]. rewrite Q.
  apply Permutation_sym, P2.
Qed.

Lemma nomes_das_classes_NoDup set_iter (a : AFD) (self4 : Minimizador) :
  ordem_valida set_iter -> NoDup (afd_estados a) ->
  Forall sem_virgula (afd_estados a) ->
  preencher_tabela (__init__ a) = Ok self4 ->
  NoDup (map (nome_classe set_iter) (_encontrar_classes_equivalencia self4)).
Proof.
  intros Hiter Hnd Hv P.
  pose proof (preencher_tabela_init a self4 P)
    as (_ & _ & _ & _ & E & ND & _).
  destruct (encontrar_classes_equivalencia_spec self4 (ND Hnd))
    as [(NDc & NE & U) _].
  destruct (encontrar_classes_cobrem self4) as [_ Su].
  apply Finite.Injective_map_NoDup_in; [|exact NDc].
  intros c1 c2 I1 I2 Q.
  assert (Fv : forall c, In c (_encontrar_classes_equivalencia self4) ->
                 Forall sem_virgula c).
  { intros c Ic. apply Forall_forall. intros x Ix.
    apply (proj2 (Su c Ic)) in Ix. apply (proj1 (E x)) in Ix.
    rewrite Forall_forall in Hv. apply Hv; tauto. }
  pose proof (nome_classe_injetivo set_iter c1 c2 Hiter
                (proj1 (Su c1 I1)) (proj1 (Su c2 I2))
                (Fv c1 I1) (Fv c2 I2) Q) as Pm.
  destruct c1 as [|x c1]; [destruct (proj1 (Su _ I1) eq_refl)|].
  apply (U _ _ x I1 I2); [left; reflexivity|].
  eapply Permutation_in; [exact Pm | left; reflexivity].
Qed.

(** X10. Class names.  When no listed state name holds a comma and the
    states are distinct, the classes of the minimised automaton get pairwise
    different names, so its state list has no duplicates.  Nothing checks
    for a collision: with a comma in a state name two classes can get one
    name, as on the automaton with the states [a,b], [a] and [b], where the
    state list of the result holds [{a,b}] twice. *)
Theorem nomes_de_classe_sem_colisao
  (set_iter : pyset -> list string) (Hiter : ordem_valida set_iter) :
  (forall a m,
     NoDup (afd_estados a) -> Forall sem_virgula (afd_estados a) ->
     minimizar set_iter (__init__ a) = Ok m ->
     NoDup (afd_estados m)) /\
  (exists m,
     NoDup (afd_estados afd_virgula) /\
     minimizar set_iter (__init__ afd_virgula) = Ok m /\
     afd_estados m = ["{a,b}"; "{a,b}"]).
Proof.
  split.
  - intros a m Hnd Hv E. unfold minimizar in E.
    destruct (preencher_tabela (__init__ a)) as [self4| |] eqn:P;
      cbn [bind] in E; try discriminate.
    apply construir_Ok_inv in E.
    destruct E as (n0 & fs & novas & _ & _ & _ & ->). cbn [afd_estados].
    eapply nomes_das_classes_NoDup; eauto.
  - destruct (minimizar_sucesso set_iter Hiter afd_virgula) as (m & E).
    + left; reflexivity.
    + apply destinos_listados_b_correto; vm_compute; reflexivity.
    + exists m. split; [nodup_concreto|split; [exact E|]].
      unfold minimizar in E.
      destruct (preencher_tabela (__init__ afd_virgula)) as [self4| |] eqn:P;
        cbn [bind] in E; try discriminate.
      apply construir_Ok_inv in E.
      destruct E as (n0 & fs & novas & _ & _ & _ & ->). cbn [afd_estados].
      rewrite (nomes_ordem set_iter ordem_id Hiter ordem_valida_id).
      vm_compute in P. injection P as <-. vm_compute. reflexivity.
Qed.

Lemma nomes_de_classe_sem_colisao_witness :
  ordem_valida ordem_id /\
  exists m,
    minimizar ordem_id (__init__ cenario_A) = Ok m /\ NoDup (afd_estados m).
Proof.
  split; [exact ordem_valida_id|].
  destruct (minimizar ordem_id (__init__ cenario_A)) as [m| |] eqn:E;
    try (vm_compute in E; discriminate E).
  exists m. split; [reflexivity|].
  apply (proj1 (nomes_de_classe_sem_colisao ordem_id ordem_valida_id)
           cenario_A m); [nodup_concreto | | exact E].
  repeat constructor; cbn; intuition discriminate.
Defined.

(** ** The minimised automaton simulates the given one *)

Lemma transicoes_classe_get (t : transicoes_t) (d : dict string string)
  (r : string) : forall simbolos linha0 linha,
  transicoes_classe t d r simbolos linha0 = Ok linha ->
  forall s,
    dict_get linha s =
    match (if set_mem s simbolos then delta t r s else None) with
    | Some dest => dict_get d dest
    | None => dict_get linha0 s
    end.
Proof.
  induction simbolos as [|a simbolos IH]; intros linha0 linha;
    cbn [transicoes_classe].
  - intros [= <-] s. reflexivity.
  - intros E s. unfold set_mem; cbn [existsb]. fold (set_mem s simbolos).
    destruct (delta t r a) as [dest_a|] eqn:Da.
    + unfold dict_index in E.
      destruct (dict_get d dest_a) as [n|] eqn:G; cbn [bind] in E;
        [|discriminate].
      rewrite (IH _ _ E s).
      destruct (String.eqb_spec s a) as [->|N]; cbn [orb].
      * rewrite Da. destruct (set_mem a simbolos); [reflexivity|].
        rewrite dict_get_set_same. symmetry; exact G.
      * destruct (if set_mem s simbolos then delta t r s else None);
          [reflexivity|].
        apply dict_get_set_other. congruence.
    + rewrite (IH _ _ E s).
      destruct (String.eqb_spec s a) as [->|N]; cbn [orb]; [|reflexivity].
      rewrite Da. destruct (set_mem a simbolos); reflexivity.
Qed.

Lemma novas_transicoes_de_fora set_iter (t : transicoes_t)
  (alf : list string) (d : dict string string) : forall classes novas0 novas n,
  novas_transicoes_de set_iter t alf d classes novas0 = Ok novas ->
  ~ In n (map (nome_classe set_iter) classes) ->
  dict_get novas n = dict_get novas0 n.
Proof.
  induction classes as [|c classes IH]; intros novas0 novas n;
    cbn [novas_transicoes_de map].
  - intros [= <-] _. reflexivity.
  - destruct (representante_de set_iter c) as [r| |]; cbn [bind];
      try discriminate.
    destruct (transicoes_classe t d r alf []) as [linha| |]; cbn [bind];
      try discriminate.
    intros E N. rewrite (IH _ _ n E) by (intros I; apply N; right; exact I).
    apply dict_get_set_other. intros Q. apply N. left. exact Q.
Qed.

Lemma novas_transicoes_de_get set_iter (t : transicoes_t)
  (alf : list string) (d : dict string string) : forall classes novas0 novas c,
  novas_transicoes_de set_iter t alf d classes novas0 = Ok novas ->
  NoDup (map (nome_classe set_iter) classes) -> In c classes ->
  exists r linha,
    representante_de set_iter c = Ok r /\
    transicoes_classe t d r alf [] = Ok linha /\
    dict_get novas (nome_classe set_iter c) = Some linha.
Proof.
  induction classes as [|c0 classes IH]; intros novas0 novas c;
    cbn [novas_transicoes_de map]; [intros _ _ []|].
  destruct (representante_de set_iter c0) as [r| |] eqn:R; cbn [bind];
    try discriminate.
  destruct (transicoes_classe t d r alf []) as [linha| |] eqn:L; cbn [bind];
    try discriminate.
  intros E ND I. inversion ND as [|? ? Nn NDr]; subst.
  destruct I as [<-|I].
  - exists r, linha. split; [exact R|split; [exact L|]].
    rewrite (novas_transicoes_de_fora _ _ _ _ _ _ _ _ E Nn).
    apply dict_get_set_same.
  - apply (IH _ _ c E NDr I).
Qed.

Lemma NoDup_map_injetivo {A B : Type} (f : A -> B) : forall (l : list A),
  NoDup (map f l) -> forall x y, In x l -> In y l -> f x = f y -> x = y.
Proof.
  induction l as [|z l IH]; intros ND x y Ix Iy E; [destruct Ix|].
  cbn [map] in ND. inversion ND as [|? ? N NDl]; subst.
  destruct Ix as [<-|Ix], Iy as [<-|Iy]; auto.
  - exfalso; apply N. rewrite E. apply in_map, Iy.
  - exfalso; apply N. rewrite <- E. apply in_map, Ix.
Qed.

Section Simulacao.
Variable set_iter : pyset -> list string.
Hypothesis Hiter : ordem_valida set_iter.
Variables (a : AFD) (self4 : Minimizador) (m : AFD).
Hypothesis Hnd : NoDup (afd_estados a).
Hypothesis Hc : completo a.
Hypothesis HP : preencher_tabela (__init__ a) = Ok self4.
Hypothesis HE :
  _construir_afd_minimizado set_iter self4
    (_encontrar_classes_equivalencia self4) = Ok m.
Hypothesis Hnomes : NoDup (afd_estados m).

Let classes := _encontrar_classes_equivalencia self4.
Let d := mapear_classes set_iter classes.

Lemma sim_estados : afd_estados m = map (nome_classe set_iter) classes.
Proof.
  destruct (construir_Ok_inv _ _ _ _ HE) as (n0 & fs & novas & _ & _ & _ & ->).
  reflexivity.
Qed.

Lemma sim_disjuntas : classes_disjuntas classes.
Proof.
  pose proof (preencher_tabela_init a self4 HP)
    as (_ & _ & _ & _ & _ & ND & _).
  apply (encontrar_classes_equivalencia_spec self4 (ND Hnd)).
Qed.

Lemma sim_classe x :
  In x (estados self4) ->
  exists c, In c classes /\ In x c /\
            dict_get d x = Some (nome_classe set_iter c).
Proof.
  intros Ix. destruct (encontrar_classes_cobrem self4) as [Co _].
  destruct (Co x Ix) as (c & Ic & Ixc). exists c. split; [exact Ic|].
  split; [exact Ixc|].
  apply mapear_classes_disjuntas; auto. apply sim_disjuntas.
Qed.

Lemma sim_mesmo_nome x y nx :
  dict_get d x = Some nx -> dict_get d y = Some nx ->
  mesma_classe classes x y.
Proof.
  intros Gx Gy. apply (mapear_classes_Some set_iter Hiter) in Gx, Gy.
  destruct Gx as (c1 & I1 & Ix & E1), Gy as (c2 & I2 & Iy & E2).
  assert (c1 = c2).
  { pose proof Hnomes as ND. rewrite sim_estados in ND.
    apply (NoDup_map_injetivo _ _ ND c1 c2 I1 I2). congruence. }
  subst c2. exists c1; auto.
Qed.

Lemma sim_passo x y s nx ny :
  In x (estados self4) -> In s (alfabeto self4) ->
  delta (transicoes self4) x s = Some y ->
  dict_get d x = Some nx -> dict_get d y = Some ny ->
  delta (afd_transicoes m) nx s = Some ny.
Proof.
  intros Ix Is D Gx Gy.
  destruct (construir_Ok_inv _ _ _ _ HE) as (n0 & fs & novas & _ & _ & N & Em).
  pose proof Hnomes as ND. rewrite sim_estados in ND.
  destruct (sim_classe x Ix) as (c & Ic & Ixc & Gc).
  fold d in Gc. rewrite Gx in Gc. injection Gc as ->.
  destruct (novas_transicoes_de_get _ _ _ _ _ _ _ c N ND Ic)
    as (r & linha & R & L & G).
  rewrite Em. cbn [afd_transicoes]. unfold delta at 1. rewrite G.
  rewrite (transicoes_classe_get _ _ _ _ _ _ L s).
  rewrite (proj2 (set_mem_In _ _) Is).
  assert (Ir : In r c).
  { unfold representante_de in R. destruct (set_iter c) as [|r' rest] eqn:S;
      [discriminate|]. injection R as ->.
    apply (proj1 (set_iter_In set_iter Hiter c r)). rewrite S.
    left; reflexivity. }
  destruct (encontrar_classes_cobrem self4) as [_ Su].
  destruct (poda_completa a self4 Hc HP r s (proj2 (Su c Ic) r Ir) Is)
    as (dr & Dr & Idr).
  rewrite Dr.
  pose proof (classes_consistentes a self4 Hnd Hc HP c r x s dr y
                Ic Ir Ixc Is Dr D) as (c' & Ic' & J1 & J2).
  pose proof (mapear_classes_disjuntas set_iter Hiter _ c' dr
                sim_disjuntas Ic' J1) as Gdr.
  pose proof (mapear_classes_disjuntas set_iter Hiter _ c' y
                sim_disjuntas Ic' J2) as Gy'.
  unfold d, classes in *. congruence.
Qed.

Lemma sim_correr : forall w x y nx,
  Forall (fun s => In s (alfabeto self4)) w ->
  In x (estados self4) ->
  correr (transicoes self4) x w = Some y ->
  dict_get d x = Some nx ->
  exists ny, dict_get d y = Some ny /\ In y (estados self4) /\
             correr (afd_transicoes m) nx w = Some ny.
Proof.
  induction w as [|s w IH]; intros x y nx Fw Ix R Gx.
  - cbn in R. injection R as <-. exists nx. cbn. auto.
  - inversion Fw as [|? ? Is Fw']; subst. cbn [correr] in R |- *.
    destruct (poda_completa a self4 Hc HP x s Ix Is) as (y1 & D1 & I1).
    rewrite D1 in R.
    destruct (sim_classe y1 I1) as (c1 & _ & _ & G1). fold d in G1.
    rewrite (sim_passo x y1 s nx _ Ix Is D1 Gx G1).
    apply (IH y1 y _ Fw' I1 R G1).
Qed.

Lemma sim_finais x nx :
  In x (estados self4) -> dict_get d x = Some nx ->
  set_mem nx (set_of_list (afd_estados_finais m)) =
  set_mem x (estados_finais self4).
Proof.
  intros Ix Gx.
  destruct (construir_Ok_inv _ _ _ _ HE) as (n0 & fs & novas & _ & F & _ & Em).
  fold classes in F. fold d in F.
  destruct (coletar_finais_spec d (set_iter (estados_finais self4)) [])
    as [(fs' & Q & _ & B & _)|(k & Q & _)]; rewrite Q in F; [|discriminate].
  injection F as ->. rewrite Em. cbn [afd_estados_finais].
  destruct (set_mem x (estados_finais self4)) eqn:M.
  - apply set_mem_In. apply set_of_list_In.
    apply (proj2 (set_iter_In set_iter Hiter _ _)). apply (proj2 (B nx)).
    right. exists x. split; [|exact Gx].
    apply (proj2 (set_iter_In set_iter Hiter _ _)).
    apply set_mem_In, M.
  - apply set_mem_false. intros I. rewrite set_of_list_In in I.
    apply (proj1 (set_iter_In set_iter Hiter _ _)) in I.
    apply (proj1 (B nx)) in I. destruct I as [[]|(ef & Ief & Gef)].
    apply (proj1 (set_iter_In set_iter Hiter _ _)) in Ief.
    pose proof (sim_mesmo_nome ef x nx Gef Gx) as Ms.
    apply (mesma_classe_finais a self4 ef x Hnd HP Ms) in Ief.
    apply (proj2 (set_mem_In _ _)) in Ief. congruence.
Qed.

Lemma sim_aceita_poda w x nx :
  Forall (fun s => In s (alfabeto self4)) w ->
  In x (estados self4) -> dict_get d x = Some nx ->
  aceita (afd_transicoes m) (set_of_list (afd_estados_finais m)) nx w =
  aceita (transicoes self4) (estados_finais self4) x w.
Proof.
  intros Fw Ix Gx.
  pose proof (preencher_tabela_init a self4 HP) as (_ & A & _).
  assert (Fa : Forall (fun s => In s (afd_alfabeto a)) w)
    by (rewrite <- A; exact Fw).
  destruct (correr_poda a self4 Hc HP w Fa x Ix) as (y & R & _ & Iy).
  destruct (sim_correr w x y nx Fw Ix R Gx) as (ny & Gy & _ & Rm).
  unfold aceita. rewrite R, Rm. apply sim_finais; assumption.
Qed.

Lemma sim_aceita w x nx :
  Forall (fun s => In s (afd_alfabeto a)) w ->
  In x (estados self4) -> dict_get d x = Some nx ->
  aceita (afd_transicoes m) (set_of_list (afd_estados_finais m)) nx w =
  aceita (afd_transicoes a) (set_of_list (afd_estados_finais a)) x w.
Proof.
  intros Fw Ix Gx.
  rewrite <- (aceita_poda a self4 Hc HP w x Fw Ix).
  pose proof (preencher_tabela_init a self4 HP) as (_ & A & _).
  apply sim_aceita_poda; auto. rewrite A; exact Fw.
Qed.

Lemma sim_alfabeto : afd_alfabeto m = afd_alfabeto a.
Proof.
  destruct (construir_Ok_inv _ _ _ _ HE) as (n0 & fs & novas & _ & _ & _ & ->).
  pose proof (preencher_tabela_init a self4 HP) as (_ & A & _).
  exact A.
Qed.

Lemma sim_inicial :
  In (afd_estado_inicial a) (estados self4) /\
  dict_get d (afd_estado_inicial a) = Some (afd_estado_inicial m).
Proof.
  destruct (construir_Ok_inv _ _ _ _ HE) as (n0 & fs & novas & G & _ & _ & ->).
  pose proof (preencher_tabela_init a self4 HP) as (_ & _ & Q & _).
  rewrite Q in G. cbn [afd_estado_inicial]. split; [|exact G].
  apply (mapear_classes_Some set_iter Hiter) in G.
  destruct G as (c & Ic & Ix & _).
  destruct (encontrar_classes_cobrem self4) as [_ Su].
  apply (proj2 (Su c Ic)), Ix.
Qed.

Lemma sim_estado n :
  In n (afd_estados m) ->
  exists x, In x (estados self4) /\ dict_get d x = Some n.
Proof.
  rewrite sim_estados. intros I. apply in_map_iff in I.
  destruct I as (c & <- & Ic).
  destruct (encontrar_classes_cobrem self4) as [_ Su].
  destruct (Su c Ic) as [NE Sub].
  destruct c as [|x c']; [contradiction|].
  exists x. split; [apply Sub; left; reflexivity|].
  apply mapear_classes_disjuntas; auto; [apply sim_disjuntas|left; reflexivity].
Qed.

Lemma sim_distintos x y nx ny :
  In x (estados self4) -> In y (estados self4) ->
  dict_get d x = Some nx -> dict_get d y = Some ny -> nx <> ny ->
  distinguiveis self4 (x, y) \/ distinguiveis self4 (y, x).
Proof.
  intros Ix Iy Gx Gy N.
  pose proof (preencher_tabela_init a self4 HP)
    as ((NK & K & _) & _ & _ & _ & _ & ND & _).
  specialize (ND Hnd).
  destruct (encontrar_classes_equivalencia_spec self4 ND) as [_ L].
  assert (Nxy : x <> y) by (intros ->; unfold d in *; congruence).
  assert (NM : ~ mesma_classe classes x y).
  { intros (c & Ic & Ixc & Iyc).
    pose proof (mapear_classes_disjuntas set_iter Hiter _ c x
                  sim_disjuntas Ic Ixc) as Gx'.
    pose proof (mapear_classes_disjuntas set_iter Hiter _ c y
                  sim_disjuntas Ic Iyc) as Gy'.
    unfold d, classes in *. congruence. }
  pose proof (obter_par_ordenado_em_pares self4 x y ND Nxy Ix Iy) as Ip.
  apply K in Ip.
  destruct (dict_in_keys _ _ Ip) as ([|] & G).
  - pose proof (preencher_tabela_fundada a self4 HP _ G) as Dg.
    destruct (obter_par_ordenado_ou self4 x y) as [Q|Q]; rewrite Q in Dg;
      [left|right]; exact Dg.
  - exfalso. apply NM, L.
    assert (NMk : ~ marcado (tabela_marcacao self4)
                    (_obter_par_ordenado self4 x y))
      by (unfold marcado; congruence).
    destruct (obter_par_ordenado_ou self4 x y) as [Q|Q]; rewrite Q in *.
    + apply ligados_par; auto. apply nao_marcado_item; auto.
    + apply ligados_sym, ligados_par; auto. apply nao_marcado_item; auto.
Qed.

Lemma sim_distinguiveis n1 n2 :
  In n1 (afd_estados m) -> In n2 (afd_estados m) -> n1 <> n2 ->
  exists w,
    Forall (fun s => In s (afd_alfabeto m)) w /\
    aceita (afd_transicoes m) (set_of_list (afd_estados_finais m)) n1 w <>
    aceita (afd_transicoes m) (set_of_list (afd_estados_finais m)) n2 w.
Proof.
  intros I1 I2 N.
  destruct (sim_estado n1 I1) as (x & Ix & Gx).
  destruct (sim_estado n2 I2) as (y & Iy & Gy).
  pose proof (preencher_tabela_init a self4 HP) as (_ & A & _).
  destruct (sim_distintos x y n1 n2 Ix Iy Gx Gy N) as [Dg|Dg];
    destruct Dg as (w & Fw & Nw); cbn [fst snd] in Nw;
    exists w; (split; [rewrite sim_alfabeto, <- A; exact Fw|]);
    rewrite (sim_aceita_poda w x n1 Fw Ix Gx),
            (sim_aceita_poda w y n2 Fw Iy Gy); congruence.
Qed.

Lemma sim_alcancavel n :
  In n (afd_estados m) ->
  alcancavel (afd_transicoes m) (afd_alfabeto m) (afd_estado_inicial m) n.
Proof.
  intros I. destruct (sim_estado n I) as (x & Ix & Gx).
  pose proof (preencher_tabela_init a self4 HP)
    as (_ & A & _ & _ & E & _).
  destruct (proj1 (E x) Ix) as [_ (w & Fw & R)].
  destruct sim_inicial as [I0 G0].
  destruct (correr_poda a self4 Hc HP w Fw _ I0) as (y & Rp & Ra & _).
  assert (y = x) by congruence. subst y.
  assert (Fw4 : Forall (fun s => In s (alfabeto self4)) w)
    by (rewrite A; exact Fw).
  destruct (sim_correr w _ x _ Fw4 I0 Rp G0) as (nx & Gx' & _ & Rm).
  exists w. split; [rewrite sim_alfabeto; exact Fw|].
  unfold d in *. congruence.
Qed.
Lemma sim_total n s :
  In n (afd_estados m) -> In s (afd_alfabeto m) ->
  exists n', delta (afd_transicoes m) n s = Some n' /\ In n' (afd_estados m).
Proof.
  intros I Is. destruct (sim_estado n I) as (x & Ix & Gx).
  pose proof (preencher_tabela_init a self4 HP) as (_ & A & _).
  rewrite sim_alfabeto, <- A in Is.
  destruct (poda_completa a self4 Hc HP x s Ix Is) as (y & D & Iy).
  destruct (sim_classe y Iy) as (c & Ic & _ & Gy).
  exists (nome_classe set_iter c). split.
  - apply (sim_passo x y s n _ Ix Is D Gx Gy).
  - rewrite sim_estados. apply in_map, Ic.
Qed.

End Simulacao.

Lemma minimizar_Ok_inv set_iter (a m : AFD) :
  minimizar set_iter (__init__ a) = Ok m ->
  exists self4,
    preencher_tabela (__init__ a) = Ok self4 /\
    _construir_afd_minimizado set_iter self4
      (_encontrar_classes_equivalencia self4) = Ok m.
Proof.
  unfold minimizar.
  destruct (preencher_tabela (__init__ a)) as [self4| |]; cbn [bind];
    try discriminate.
  intros E. exists self4. split; [reflexivity|exact E].
Qed.

Lemma minimizar_cenario_A :
  minimizar ordem_id (__init__ cenario_A) = Ok cenario_A_min.
Proof. vm_compute. reflexivity. Qed.

(** X11. Minimising keeps the language.  On a complete automaton with
    distinct state names, whenever the class names of the result are
    pairwise distinct (comma-free state names ensure it), the minimised
    automaton accepts, from its start state, exactly the words over the
    alphabet that the given automaton accepts from its start state, for
    every iteration order of the sets. *)
Theorem minimizar_preserva_linguagem
  (set_iter : pyset -> list string) (a m : AFD)
  (Hiter : ordem_valida set_iter)
  (Hnd : NoDup (afd_estados a)) (Hc : completo a)
  (E : minimizar set_iter (__init__ a) = Ok m)
  (Hnomes : NoDup (afd_estados m))
  (w : list string) (Fw : Forall (fun s => In s (afd_alfabeto a)) w) :
  aceita (afd_transicoes m) (set_of_list (afd_estados_finais m))
    (afd_estado_inicial m) w =
  aceita (afd_transicoes a) (set_of_list (afd_estados_finais a))
    (afd_estado_inicial a) w.
Proof.
  destruct (minimizar_Ok_inv _ _ _ E) as (self4 & P & C).
  destruct (sim_inicial set_iter Hiter a self4 m P C Hnomes) as [I0 G0].
  apply (sim_aceita set_iter Hiter a self4 m Hnd Hc P C Hnomes w _ _ Fw I0 G0).
Qed.

Lemma minimizar_preserva_linguagem_witness :
  aceita (afd_transicoes cenario_A_min)
    (set_of_list (afd_estados_finais cenario_A_min))
    (afd_estado_inicial cenario_A_min) ["b"; "a"; "a"; "b"] =
  aceita (afd_transicoes cenario_A)
    (set_of_list (afd_estados_finais cenario_A))
    (afd_estado_inicial cenario_A) ["b"; "a"; "a"; "b"].
Proof.
  assert (Hnd : NoDup (afd_estados cenario_A)) by nodup_concreto.
  assert (Hc : completo cenario_A)
    by (apply completo_b_correto; vm_compute; reflexivity).
  assert (Hn : NoDup (afd_estados cenario_A_min)) by nodup_concreto.
  assert (Fw : Forall (fun s => In s (afd_alfabeto cenario_A))
                 ["b"; "a"; "a"; "b"])
    by (repeat constructor; cbn; tauto).
  exact (minimizar_preserva_linguagem ordem_id cenario_A cenario_A_min
           ordem_valida_id Hnd Hc minimizar_cenario_A Hn _ Fw).
Defined.

(** X12. The result is minimal.  Under the same conditions, two different
    states of the minimised automaton are told apart by some word over the
    alphabet, and every state of the minimised automaton is reached from
    its start state: no two states could be merged and none could be
    dropped. *)
Theorem minimizado_minimo
  (set_iter : pyset -> list string) (a m : AFD)
  (Hiter : ordem_valida set_iter)
  (Hnd : NoDup (afd_estados a)) (Hc : completo a)
  (E : minimizar set_iter (__init__ a) = Ok m)
  (Hnomes : NoDup (afd_estados m)) :
  (forall n1 n2,
     In n1 (afd_estados m) -> In n2 (afd_estados m) -> n1 <> n2 ->
     exists w,
       Forall (fun s => In s (afd_alfabeto m)) w /\
       aceita (afd_transicoes m) (set_of_list (afd_estados_finais m)) n1 w <>
       aceita (afd_transicoes m) (set_of_list (afd_estados_finais m)) n2 w) /\
  (forall n,
     In n (afd_estados m) ->
     alcancavel (afd_transicoes m) (afd_alfabeto m) (afd_estado_inicial m) n).
Proof.
  destruct (minimizar_Ok_inv _ _ _ E) as (self4 & P & C).
  split.
  - apply (sim_distinguiveis set_iter Hiter a self4 m Hnd Hc P C Hnomes).
  - apply (sim_alcancavel set_iter Hiter a self4 m Hnd Hc P C Hnomes).
Qed.

Lemma minimizado_minimo_witness :
  (exists w,
     Forall (fun s => In s (afd_alfabeto cenario_A_min)) w /\
     aceita (afd_transicoes cenario_A_min)
       (set_of_list (afd_estados_finais cenario_A_min)) "{q0}" w <>
     aceita (afd_transicoes cenario_A_min)
       (set_of_list (afd_estados_finais cenario_A_min)) "{q1}" w) /\
  alcancavel (afd_transicoes cenario_A_min) (afd_alfabeto cenario_A_min)
    (afd_estado_inicial cenario_A_min) "{q2}".
Proof.
  assert (Hnd : NoDup (afd_estados cenario_A)) by nodup_concreto.
  assert (Hc : completo cenario_A)
    by (apply completo_b_correto; vm_compute; reflexivity).
  assert (Hn : NoDup (afd_estados cenario_A_min)) by nodup_concreto.
  destruct (minimizado_minimo ordem_id cenario_A cenario_A_min
              ordem_valida_id Hnd Hc minimizar_cenario_A Hn) as [D R].
  split.
  - apply D; [vm_compute; tauto | vm_compute; tauto | discriminate].
  - apply R. vm_compute; tauto.
Defined.

(** ** An automaton that is minimal already *)

Lemma filter_tudo {A : Type} (f : A -> bool) (l : list A) :
  (forall x, In x l -> f x = true) -> filter f l = l.
Proof.
  induction l as [|x l IH]; intros H; cbn [filter]; [reflexivity|].
  rewrite (H x (or_introl eq_refl)), IH; [reflexivity|].
  intros y Iy; apply H; right; exact Iy.
Qed.

Lemma fold_unir_par_marcados (tab : tabela_t) :
  (forall p v, In (p, v) tab -> v = true) ->
  forall classes, fold_left unir_par tab classes = classes.
Proof.
  induction tab as [|[p v] tab IH]; intros H classes; cbn [fold_left];
    [reflexivity|].
  rewrite (H p v (or_introl eq_refl)). cbn [unir_par]. apply IH.
  intros q w I; apply (H q w); right; exact I.
Qed.

Lemma nome_classe_unitaria set_iter e :
  ordem_valida set_iter -> nome_classe set_iter [e] = chaves e.
Proof.
  intros H. unfold nome_classe, chaves.
  rewrite (Permutation_length_1_inv (Permutation_sym (H [e]))).
  reflexivity.
Qed.

Lemma chaves_injetiva x y : chaves x = chaves y -> x = y.
Proof.
  unfold chaves. cbn [append]. intros H. injection H as H.
  exact (append_cancela_r _ _ _ H).
Qed.

Lemma NoDup_map_chaves l : NoDup l -> NoDup (map chaves l).
Proof.
  induction 1 as [|x l N ND IH]; cbn [map]; constructor; [|exact IH].
  intros I. apply in_map_iff in I. destruct I as (y & E & Iy).
  apply chaves_injetiva in E. subst y. contradiction.
Qed.

Section JaMinimo.
Variable set_iter : pyset -> list string.
Hypothesis Hiter : ordem_valida set_iter.
Variable b : AFD.
Hypothesis Hnd : NoDup (afd_estados b).
Hypothesis Hc : completo b.
Hypothesis Halc : todos_alcancaveis b.
Hypothesis Hmin : sem_equivalentes b.
Variable s4 : Minimizador.
Hypothesis HP : preencher_tabela (__init__ b) = Ok s4.

Lemma jm_estados : estados s4 = afd_estados b.
Proof.
  destruct (preencher_tabela_filtro b s4 HP) as (alc & Q).
  pose proof (preencher_tabela_init b s4 HP) as (_ & _ & _ & _ & E & _).
  rewrite Q. apply filter_tudo. intros x Ix.
  assert (I : In x (estados s4)) by (apply E; split; auto).
  rewrite Q in I. apply filter_In in I. tauto.
Qed.

Lemma jm_marcados p v : In (p, v) (tabela_marcacao s4) -> v = true.
Proof.
  intros I. destruct v; [reflexivity|]. exfalso.
  pose proof (preencher_tabela_init b s4 HP)
    as ((NK & K & _) & _ & _ & _ & _ & ND & _).
  specialize (ND Hnd).
  apply (nao_marcado_item _ _ NK) in I. destruct I as [Ik NM].
  destruct p as [x y].
  pose proof (proj1 (K _) Ik) as Ip.
  pose proof (pares_distintos _ _ _ ND Ip) as N.
  destruct (pares_In _ _ _ Ip) as [Ix Iy].
  rewrite jm_estados in Ix, Iy.
  apply N, (Hmin x y Ix Iy).
  apply (completo_nao_marcados_equivalentes b Hnd Hc s4 x y HP Ik NM).
Qed.

Lemma jm_classes :
  _encontrar_classes_equivalencia s4 = map (fun e => [e]) (afd_estados b).
Proof.
  unfold _encontrar_classes_equivalencia.
  rewrite fold_unir_par_marcados by exact jm_marcados.
  rewrite jm_estados. reflexivity.
Qed.

Lemma jm_mapa x :
  In x (afd_estados b) ->
  dict_get (mapear_classes set_iter (_encontrar_classes_equivalencia s4)) x
    = Some (chaves x).
Proof.
  intros Ix. rewrite <- (nome_classe_unitaria set_iter x Hiter).
  pose proof (preencher_tabela_init b s4 HP)
    as (_ & _ & _ & _ & _ & ND & _).
  apply mapear_classes_disjuntas; auto.
  - apply (encontrar_classes_equivalencia_spec s4 (ND Hnd)).
  - rewrite jm_classes. apply (in_map (fun e => [e])), Ix.
  - left; reflexivity.
Qed.

Variable m2 : AFD.
Hypothesis HE :
  _construir_afd_minimizado set_iter s4
    (_encontrar_classes_equivalencia s4) = Ok m2.

Lemma jm_nomes : afd_estados m2 = map chaves (afd_estados b).
Proof.
  destruct (construir_Ok_inv _ _ _ _ HE) as (n0 & fs & novas & _ & _ & _ & ->).
  cbn [afd_estados]. rewrite jm_classes, map_map. apply map_ext.
  intros e. apply nome_classe_unitaria, Hiter.
Qed.

Lemma jm_NoDup : NoDup (afd_estados m2).
Proof. rewrite jm_nomes. apply NoDup_map_chaves, Hnd. Qed.

Lemma jm_renomeado : renomeado b m2.
Proof.
  pose proof (preencher_tabela_init b s4 HP)
    as (_ & A & _ & _ & E & _ & F & D).
  split; [exact jm_nomes|].
  split; [exact (sim_alfabeto set_iter b s4 m2 HP HE jm_NoDup)|].
  split; [|split].
  - destruct (sim_inicial set_iter Hiter b s4 m2 HP HE jm_NoDup) as [I0 G0].
    rewrite jm_estados in I0. rewrite (jm_mapa _ I0) in G0. congruence.
  - intros x Ix.
    assert (I4 : In x (estados s4)) by (rewrite jm_estados; exact Ix).
    pose proof (sim_finais set_iter Hiter b s4 m2 Hnd HP HE jm_NoDup
                  x _ I4 (jm_mapa x Ix)) as Q.
    split; intros I.
    + assert (M : set_mem x (estados_finais s4) = true).
      { rewrite <- Q. apply (proj2 (set_mem_In _ _)).
        apply (proj2 (set_of_list_In _ _)), I. }
      apply (proj1 (set_mem_In _ _)) in M. apply (proj1 (F x)) in M. tauto.
    + assert (M : set_mem (chaves x) (set_of_list (afd_estados_finais m2))
                  = true).
      { rewrite Q. apply (proj2 (set_mem_In _ _)), (proj2 (F x)).
        split; [exact I|apply Halc, Ix]. }
      apply (proj1 (set_mem_In _ _)) in M.
      apply (proj1 (set_of_list_In _ _)), M.
  - intros x s Ix Is.
    assert (I4 : In x (estados s4)) by (rewrite jm_estados; exact Ix).
    assert (Is4 : In s (alfabeto s4)) by (rewrite A; exact Is).
    destruct (poda_completa b s4 Hc HP x s I4 Is4) as (y & Dy & Iy).
    rewrite (sim_passo set_iter Hiter b s4 m2 Hnd Hc HP HE jm_NoDup
               x y s _ _ I4 Is4 Dy (jm_mapa x Ix)
               (jm_mapa y ltac:(rewrite <- jm_estados; exact Iy))).
    rewrite D, (proj2 (set_mem_In _ _) I4) in Dy. rewrite Dy. reflexivity.
Qed.
End JaMinimo.

Lemma bem_formado_destinos_listados (m : AFD) :
  bem_formado m -> destinos_listados m.
Proof.
  intros (_ & _ & T) x s dest _ _ D. unfold delta in D.
  destruct (dict_get (afd_transicoes m) x) as [linha|] eqn:G; [|discriminate].
  apply dict_get_In in G, D.
  exact (proj2 (T x linha G) s dest D).
Qed.

Section DepoisDeMinimizar.
Variable set_iter : pyset -> list string.
Hypothesis Hiter : ordem_valida set_iter.
Variables (a m : AFD).
Hypothesis Hnd : NoDup (afd_estados a).
Hypothesis Hc : completo a.
Hypothesis E : minimizar set_iter (__init__ a) = Ok m.
Hypothesis Hnomes : NoDup (afd_estados m).

Lemma dm_inicial : In (afd_estado_inicial m) (afd_estados m).
Proof. exact (proj1 (minimizar_bem_formado set_iter Hiter a m E)). Qed.

Lemma dm_total n s :
  In n (afd_estados m) -> In s (afd_alfabeto m) ->
  exists n', delta (afd_transicoes m) n s = Some n' /\ In n' (afd_estados m).
Proof.
  destruct (minimizar_Ok_inv _ _ _ E) as (self4 & P & C).
  apply (sim_total set_iter Hiter a self4 m Hnd Hc P C Hnomes).
Qed.

Lemma dm_completo : completo m.
Proof.
  intros x s R Is. apply dm_total; [|exact Is].
  apply alcancavel_listado; [exact dm_inicial| |exact R].
  apply bem_formado_destinos_listados.
  exact (minimizar_bem_formado set_iter Hiter a m E).
Qed.

Lemma dm_todos_alcancaveis : todos_alcancaveis m.
Proof.
  destruct (minimizar_Ok_inv _ _ _ E) as (self4 & P & C).
  intros n. apply (sim_alcancavel set_iter Hiter a self4 m Hnd Hc P C Hnomes).
Qed.

Lemma dm_sem_equivalentes : sem_equivalentes m.
Proof.
  destruct (minimizar_Ok_inv _ _ _ E) as (self4 & P & C).
  intros x y Ix Iy Q. destruct (string_dec x y) as [|N]; [assumption|].
  destruct (sim_distinguiveis set_iter Hiter a self4 m Hnd Hc P C Hnomes
              x y Ix Iy N) as (w & Fw & Nw).
  destruct Nw. apply Q, Fw.
Qed.
End DepoisDeMinimizar.

Lemma ja_minimo_renomeado set_iter (b : AFD) :
  ordem_valida set_iter -> NoDup (afd_estados b) -> completo b ->
  In (afd_estado_inicial b) (afd_estados b) ->
  todos_alcancaveis b -> sem_equivalentes b ->
  exists m2, minimizar set_iter (__init__ b) = Ok m2 /\ renomeado b m2.
Proof.
  intros Hiter Hnd Hc Hq0 Halc Hmin.
  destruct (minimizar_sucesso set_iter Hiter b Hq0
              (completo_destinos_listados b Hc)) as (m2 & E).
  exists m2. split; [exact E|].
  destruct (minimizar_Ok_inv _ _ _ E) as (s4 & P & C).
  exact (jm_renomeado set_iter Hiter b Hnd Hc Halc Hmin s4 P m2 C).
Qed.

(** X13. The result is complete.  Under the conditions of X11, every state
    of the minimised automaton has, on every symbol of the alphabet, a move
    to a state of the minimised automaton; the start state of the result is
    one of its states. *)
Theorem minimizado_completo
  (set_iter : pyset -> list string) (a m : AFD)
  (Hiter : ordem_valida set_iter)
  (Hnd : NoDup (afd_estados a)) (Hc : completo a)
  (E : minimizar set_iter (__init__ a) = Ok m)
  (Hnomes : NoDup (afd_estados m)) :
  In (afd_estado_inicial m) (afd_estados m) /\
  (forall n s,
     In n (afd_estados m) -> In s (afd_alfabeto m) ->
     exists n',
       delta (afd_transicoes m) n s = Some n' /\ In n' (afd_estados m)) /\
  completo m.
Proof.
  split; [exact (dm_inicial set_iter Hiter a m E)|].
  split.
  - exact (dm_total set_iter Hiter a m Hnd Hc E Hnomes).
  - exact (dm_completo set_iter Hiter a m Hnd Hc E Hnomes).
Qed.

Lemma minimizado_completo_witness :
  exists n',
    delta (afd_transicoes cenario_A_min) "{q1}" "b" = Some n' /\
    In n' (afd_estados cenario_A_min).
Proof.
  assert (Hnd : NoDup (afd_estados cenario_A)) by nodup_concreto.
  assert (Hc : completo cenario_A)
    by (apply completo_b_correto; vm_compute; reflexivity).
  assert (Hn : NoDup (afd_estados cenario_A_min)) by nodup_concreto.
  destruct (minimizado_completo ordem_id cenario_A cenario_A_min
              ordem_valida_id Hnd Hc minimizar_cenario_A Hn) as (_ & T & _).
  apply T; vm_compute; tauto.
Defined.

(** X14. An automaton that is minimal already comes back renamed only.
    When the states are distinct, the automaton is complete, the start
    state is listed, every listed state is reachable and no two listed
    states accept the same words, [minimizar] returns the same automaton
    with every state name put in braces: same number of states in the same
    order, same alphabet, and the start state, the accepting states and the
    moves are those of the input under the renaming. *)
Theorem ja_minimo_so_renomeia
  (set_iter : pyset -> list string) (b : AFD)
  (Hiter : ordem_valida set_iter)
  (Hnd : NoDup (afd_estados b)) (Hc : completo b)
  (Hq0 : In (afd_estado_inicial b) (afd_estados b))
  (Halc : todos_alcancaveis b) (Hmin : sem_equivalentes b) :
  exists m2, minimizar set_iter (__init__ b) = Ok m2 /\ renomeado b m2.
Proof. apply ja_minimo_renomeado; assumption. Qed.

Lemma ja_minimo_so_renomeia_witness :
  exists m2,
    minimizar ordem_rev (__init__ cenario_A_min) = Ok m2 /\
    renomeado cenario_A_min m2.
Proof.
  assert (Hnd : NoDup (afd_estados cenario_A)) by nodup_concreto.
  assert (Hc : completo cenario_A)
    by (apply completo_b_correto; vm_compute; reflexivity).
  assert (Hn : NoDup (afd_estados cenario_A_min)) by nodup_concreto.
  assert (Hq0 : In (afd_estado_inicial cenario_A_min)
                  (afd_estados cenario_A_min))
    by (vm_compute; tauto).
  exact (ja_minimo_so_renomeia ordem_rev cenario_A_min ordem_valida_rev Hn
           (dm_completo ordem_id ordem_valida_id cenario_A cenario_A_min
              Hnd Hc minimizar_cenario_A Hn)
           Hq0
           (dm_todos_alcancaveis ordem_id ordem_valida_id cenario_A
              cenario_A_min Hnd Hc minimizar_cenario_A Hn)
           (dm_sem_equivalentes ordem_id ordem_valida_id cenario_A
              cenario_A_min Hnd Hc minimizar_cenario_A Hn)).
Defined.

(** X15. Minimising twice.  Under the conditions of X11, running
    [minimizar] on its own result succeeds and merges or drops nothing
    more: the second result is the first with every state name put in
    braces once more. *)
Theorem minimizar_duas_vezes
  (set_iter : pyset -> list string) (a m : AFD)
  (Hiter : ordem_valida set_iter)
  (Hnd : NoDup (afd_estados a)) (Hc : completo a)
  (E : minimizar set_iter (__init__ a) = Ok m)
  (Hnomes : NoDup (afd_estados m)) :
  exists m2,
    minimizar set_iter (__init__ m) = Ok m2 /\
    renomeado m m2 /\
    List.length (afd_estados m2) = List.length (afd_estados m).
Proof.
  destruct (ja_minimo_renomeado set_iter m Hiter Hnomes
              (dm_completo set_iter Hiter a m Hnd Hc E Hnomes)
              (dm_inicial set_iter Hiter a m E)
              (dm_todos_alcancaveis set_iter Hiter a m Hnd Hc E Hnomes)
              (dm_sem_equivalentes set_iter Hiter a m Hnd Hc E Hnomes))
    as (m2 & E2 & R).
  exists m2. split; [exact E2|]. split; [exact R|].
  destruct R as (Q & _). rewrite Q. apply length_map.
Qed.

Lemma minimizar_duas_vezes_witness :
  exists m2,
    minimizar ordem_id (__init__ cenario_A_min) = Ok m2 /\
    renomeado cenario_A_min m2 /\
    List.length (afd_estados m2) = List.length (afd_estados cenario_A_min).
Proof.
  assert (Hnd : NoDup (afd_estados cenario_A)) by nodup_concreto.
  assert (Hc : completo cenario_A)
    by (apply completo_b_correto; vm_compute; reflexivity).
  assert (Hn : NoDup (afd_estados cenario_A_min)) by nodup_concreto.
  exact (minimizar_duas_vezes ordem_id cenario_A cenario_A_min
           ordem_valida_id Hnd Hc minimizar_cenario_A Hn).
Defined.

(** ** What a failure of the reducer names *)







(** ** A second call on the same object *)











Section Reutilizacao.
Variables (a : AFD) (self4 : Minimizador).
Hypothesis Hnd : NoDup (afd_estados a).
Hypothesis Hq0 : In (afd_estado_inicial a) (afd_estados a).
Hypothesis Hd : destinos_listados a.
Hypothesis HP : preencher_tabela (__init__ a) = Ok self4.





End Reutilizacao.



(** ** The drawing *)









(** ** The printed table *)

Lemma obter_par_ordenado_simetrico (self : Minimizador) e1 e2 :
  e1 <> e2 -> In e1 (estados self) ->
  _obter_par_ordenado self e1 e2 = _obter_par_ordenado self e2 e1.
Proof.
  intros N I. unfold _obter_par_ordenado.
  assert (D : indice e1 (estados self) <> indice e2 (estados self))
    by (intros Q; apply N; eapply indice_injetivo; eauto).
  destruct (indice e1 (estados self) <? indice e2 (estados self))%Z eqn:L1;
    destruct (indice e2 (estados self) <? indice e1 (estados self))%Z eqn:L2;
    try reflexivity; lia.
Qed.

Lemma equivalentes_sym (a : AFD) x y :
  equivalentes a x y -> equivalentes a y x.
Proof. intros Q w Fw. symmetry. apply Q, Fw. Qed.

Lemma marcador_valor (a : AFD) (self4 : Minimizador) ei ej :
  NoDup (afd_estados a) -> preencher_tabela (__init__ a) = Ok self4 ->
  In ei (estados self4) -> In ej (estados self4) -> ei <> ej ->
  In (_obter_par_ordenado self4 ei ej) (dict_keys (tabela_marcacao self4)) /\
  ((marcador self4 ei ej = "X" /\
    marcado (tabela_marcacao self4) (_obter_par_ordenado self4 ei ej)) \/
   (marcador self4 ei ej = "-" /\
    ~ marcado (tabela_marcacao self4) (_obter_par_ordenado self4 ei ej))).
Proof.
  intros Hnd P Ii Ij N.
  pose proof (preencher_tabela_init a self4 P)
    as ((NK & K & _) & _ & _ & _ & _ & ND & _).
  specialize (ND Hnd).
  pose proof (obter_par_ordenado_em_pares self4 ei ej ND N Ii Ij) as Ip.
  apply K in Ip. split; [exact Ip|].
  destruct (dict_in_keys _ _ Ip) as (v & G).
  unfold marcador, dict_in, marcado. rewrite G.
  destruct v; [left|right]; split; try reflexivity; congruence.
Qed.

(** X19. The printed table after the table work.  On an automaton with
    distinct states, the cell of two different listed reachable states
    never shows the question mark: it shows [X] or [-], the same in both
    argument orders; [X] only for two states that some word tells apart;
    and on a complete automaton [-] exactly for the pairs of
    language-equivalent states. *)
Theorem tabela_exibida_sem_interrogacao
  (a : AFD) (self4 : Minimizador)
  (Hnd : NoDup (afd_estados a))
  (P : preencher_tabela (__init__ a) = Ok self4)
  (ei ej : string)
  (Ii : In ei (estados self4)) (Ij : In ej (estados self4))
  (N : ei <> ej) :
  marcador self4 ei ej = marcador self4 ej ei /\
  (marcador self4 ei ej = "X" \/ marcador self4 ei ej = "-") /\
  (marcador self4 ei ej = "X" ->
   exists w,
     Forall (fun s => In s (alfabeto self4)) w /\
     aceita (transicoes self4) (estados_finais self4) ei w <>
     aceita (transicoes self4) (estados_finais self4) ej w) /\
  (completo a -> (marcador self4 ei ej = "-" <-> equivalentes a ei ej)).
Proof.
  destruct (marcador_valor a self4 ei ej Hnd P Ii Ij N) as [Ik V].
  split; [|split; [|split]].
  - unfold marcador. rewrite (obter_par_ordenado_simetrico self4 ei ej N Ii).
    reflexivity.
  - destruct V as [[-> _]|[-> _]]; auto.
  - intros X. destruct V as [[_ M]|[Q _]]; [|rewrite Q in X; discriminate].
    destruct (preencher_tabela_fundada a self4 P _ M) as (w & Fw & Nw).
    exists w. split; [exact Fw|].
    destruct (obter_par_ordenado_ou self4 ei ej) as [Q|Q]; rewrite Q in Nw;
      cbn [fst snd] in Nw; congruence.
  - intros Hc. split.
    + intros T. destruct V as [[Q _]|[_ NM]]; [rewrite Q in T; discriminate|].
      destruct (obter_par_ordenado_ou self4 ei ej) as [Q|Q]; rewrite Q in *.
      * apply (completo_nao_marcados_equivalentes a Hnd Hc self4 ei ej P Ik NM).
      * apply equivalentes_sym.
        apply (completo_nao_marcados_equivalentes a Hnd Hc self4 ej ei P Ik NM).
    + intros Q. destruct V as [[_ M]|[T _]]; [|exact T]. exfalso.
      destruct (obter_par_ordenado_ou self4 ei ej) as [R|R]; rewrite R in *.
      * exact (marcado_nao_equivalente a self4 ei ej Hc P Ik M Q).
      * exact (marcado_nao_equivalente a self4 ej ei Hc P Ik M
                 (equivalentes_sym a ei ej Q)).
Qed.

Lemma tabela_exibida_sem_interrogacao_witness :
  marcador cenario_A_final "q1" "q0" = marcador cenario_A_final "q0" "q1" /\
  (marcador cenario_A_final "q1" "q0" = "X" \/
   marcador cenario_A_final "q1" "q0" = "-").
Proof.
  assert (Hnd : NoDup (afd_estados cenario_A)) by nodup_concreto.
  assert (Ii : In "q1" (estados cenario_A_final)) by (vm_compute; tauto).
  assert (Ij : In "q0" (estados cenario_A_final)) by (vm_compute; tauto).
  assert (N : "q1" <> "q0") by discriminate.
  destruct (tabela_exibida_sem_interrogacao cenario_A cenario_A_final Hnd
              preencher_tabela_cenario_A "q1" "q0" Ii Ij N) as (S & V & _).
  split; [exact S|exact V].
Defined.
